(** * Live transcription pipeline of the meeting demo

    A shallow embedding of the transcript handling code of
    [demos/browser/app/meetingV2/meetingV2.ts]
    ([transcriptEventHandler], [renderPartialTranscriptResults],
    [updatePartialTranscriptDiv], [populatePartialTranscriptSegmentsFromResult],
    [createSpaceSpan], [appendNewSpeakerTranscriptDiv], [appendStatusDiv])
    together with the properties of it that the specification states, and
    of the code of the same file that keeps the button states
    ([toggleButton], [isButtonOn], [setButtonVisibility],
    [displayButtonStates], [updateButtonVideoRecordingDrop],
    [updateUXForViewOnlyMode], [updateUXForReplicaMeetingPromotionState]),
    shows the chat ([dataMessageHandler]) and names the voice focus model
    ([voiceFocusName], [getVoiceFocusSpec]).

    Conventions of the embedding:
    - JavaScript [Map]s are association lists kept in insertion order;
    - times in milliseconds are integers ([Z]); the code keeps them in
      doubles, whose sums and differences are exact as long as the operands
      and the result are safe integers ([isSafeInteger]), and the properties
      that rest on the arithmetic of the times assume that much;
    - confidences are IEEE doubles;
    - strings are byte strings (UTF-8), so U+00A0 is the two bytes C2 A0;
    - the DOM is a tree of elements; elements that the code keeps a reference
      to after inserting them in the page live in a store and are named by
      their index;
    - a call either completes or throws, and in both cases yields the state
      of the fields as the call left them. *)

From Stdlib Require Import List String Ascii ZArith Bool Lia Floats.
From Stdlib Require Import Sorted Permutation.
Import ListNotations.
Local Open Scope string_scope.
Local Open Scope list_scope.
Local Open Scope Z_scope.

(** ** JavaScript values *)

(** [!x] for a [number | null] variable: [null] and [0] are falsy. *)
Definition truthy (x : option Z) : bool :=
  match x with
  | None => false
  | Some n => negb (n =? 0)
  end.

(** [Number.MAX_SAFE_INTEGER], 2^53 - 1, and [Number.isSafeInteger] on an
    integer: up to there a double holds every integer, and the sum or the
    difference of two safe integers is computed without rounding when it is
    safe itself. *)
Definition MAX_SAFE_INTEGER : Z := 2 ^ 53 - 1.

Definition isSafeInteger (z : Z) : Prop :=
  - MAX_SAFE_INTEGER <= z <= MAX_SAFE_INTEGER.

(** [s.startsWith(p)] *)
Definition startsWith (s p : string) : bool := String.prefix p s.

(** [s.split(sep)] for a one-character separator. *)
Fixpoint split_from (sep : ascii) (cur s : string) : list string :=
  match s with
  | EmptyString => [cur]
  | String c rest =>
      if Ascii.eqb c sep then cur :: split_from sep "" rest
      else split_from sep (cur ++ String c "")%string rest
  end.

Definition split (sep : ascii) (s : string) : list string := split_from sep "" s.

(** [new Set<string>()] with [add], [has], [size] and [clear]. *)
Module JsSet.
Definition t := list string.
Definition empty : t := [].
Definition has (x : string) (s : t) : bool := existsb (String.eqb x) s.
Definition add (x : string) (s : t) : t := if has x s then s else s ++ [x].
Definition size (s : t) : nat := List.length s.
Definition clear (s : t) : t := [].
End JsSet.

(** [new Map<string, V>()]: entries in insertion order, one per key.
    [set] on a key that is present keeps the entry at its place. *)
Module JsMap.
Section Ops.
Context {V : Type}.

Definition t := list (string * V).

Definition empty : t := [].

Fixpoint get (k : string) (m : t) : option V :=
  match m with
  | [] => None
  | (k', v) :: rest => if String.eqb k' k then Some v else get k rest
  end.

Definition has (k : string) (m : t) : bool :=
  match get k m with Some _ => true | None => false end.

Fixpoint set (k : string) (v : V) (m : t) : t :=
  match m with
  | [] => [(k, v)]
  | (k', v') :: rest =>
      if String.eqb k' k then (k', v) :: rest else (k', v') :: set k v rest
  end.

Fixpoint delete (k : string) (m : t) : t :=
  match m with
  | [] => []
  | (k', v') :: rest =>
      if String.eqb k' k then delete k rest else (k', v') :: delete k rest
  end.

Definition keys (m : t) : list string := map fst m.
Definition values (m : t) : list V := map snd m.
Definition size (m : t) : nat := List.length m.
Definition clear (m : t) : t := [].
End Ops.
Arguments t V : clear implicits.
End JsMap.

(** [arr.indexOf(x)] on an array of strings; [-1] when [x] is not in it. *)
Fixpoint indexOf (x : string) (l : list string) : Z :=
  match l with
  | [] => -1
  | y :: rest =>
      if String.eqb y x then 0
      else let i := indexOf x rest in if i <? 0 then -1 else i + 1
  end.

(** ** The DOM *)

#[local] Unset Elimination Schemes.
Inductive Node :=
| Text (data : string)
| Elem (tag : string) (classList : list string) (children : list Node).

#[local] Set Elimination Schemes.

Definition createElement (tag : string) : Node := Elem tag [] [].

Definition setInnerText (n : Node) (s : string) : Node :=
  match n with
  | Elem tag cl _ => Elem tag cl [Text s]
  | Text _ => n
  end.

Definition classList_add (n : Node) (c : string) : Node :=
  match n with
  | Elem tag cl ch =>
      Elem tag (if existsb (String.eqb c) cl then cl else cl ++ [c]) ch
  | Text _ => n
  end.

Definition appendChild (parent child : Node) : Node :=
  match parent with
  | Elem tag cl ch => Elem tag cl (ch ++ [child])
  | Text _ => parent
  end.

Definition childNodes (n : Node) : list Node :=
  match n with
  | Elem _ _ ch => ch
  | Text _ => []
  end.

(** The text a node shows, in document order. *)
Fixpoint textContent (n : Node) : string :=
  match n with
  | Text s => s
  | Elem _ _ ch =>
      (fix go (l : list Node) : string :=
         match l with
         | [] => ""
         | c :: rest => (textContent c ++ go rest)%string
         end) ch
  end.

(** U+00A0, NO-BREAK SPACE. *)
Definition nbsp : string :=
  String (ascii_of_nat 194) (String (ascii_of_nat 160) EmptyString).

(** ** Transcript events *)

Record Attendee := mkAttendee {
  attendeeId : string;
  externalUserId : string
}.

(** Modelled from the spec: the enumeration [TranscriptItemType] is declared
    by the conferencing SDK; the source only names its member [PUNCTUATION],
    the specification gives the two members word and punctuation. *)
Inductive TranscriptItemType := WORD | PUNCTUATION.

Definition isPunctuation (t : TranscriptItemType) : bool :=
  match t with PUNCTUATION => true | WORD => false end.

Module Item.
Record t := mk {
  content : string;
  type : TranscriptItemType;
  attendee : Attendee;
  startTimeMs : Z;
  endTimeMs : Z;
  (** [None]: the item has no own property [confidence]. *)
  confidence : option float
}.
End Item.

Module Entity.
Record t := mk { content : string }.
End Entity.

Module Alternative.
Record t := mk {
  (** [None]: the property is missing ([undefined]). *)
  items : option (list Item.t);
  entities : option (list Entity.t)
}.
End Alternative.

Module Result.
Record t := mk {
  resultId : string;
  isPartial : bool;
  languageCode : option string;
  alternatives : list Alternative.t;
  endTimeMs : Z
}.
End Result.

Inductive TranscriptionStatusType := STARTED | STOPPED | FAILED.

Record EngineSettings := mkEngineSettings {
  settingsLanguageCode : option string
}.

(** What [JSON.parse(status.transcriptionConfiguration)] gives. *)
Inductive TranscriptionConfiguration :=
| SyntaxError
| FalsyConfiguration
| Configuration (EngineTranscribeSettings : option EngineSettings)
                (EngineTranscribeMedicalSettings : option EngineSettings).

Module Status.
Record t := mk {
  type : TranscriptionStatusType;
  eventTimeMs : Z;
  transcriptionRegion : string;
  transcriptionConfiguration : TranscriptionConfiguration;
  message : option string
}.
End Status.

Inductive TranscriptEvent :=
| TranscriptionStatus (status : Status.t)
| Transcript (results : list Result.t).

Definition LANGUAGES_NO_WORD_SEPARATOR : JsSet.t := ["ja-JP"; "zh-CN"].

(** [languageCode && LANGUAGES_NO_WORD_SEPARATOR.has(languageCode)] *)
Definition isNoWordSeparatorLanguage (languageCode : option string) : bool :=
  match languageCode with
  | None => false
  | Some code =>
      negb (String.eqb code "") && JsSet.has code LANGUAGES_NO_WORD_SEPARATOR
  end.

(** [interface TranscriptSegment] *)
Module Segment.
Record t := mk {
  contentSpan : Node;
  attendee : Attendee;
  startTimeMs : Z;
  endTimeMs : Z
}.
End Segment.

(** ** The fields of the application that the handler uses *)

Inductive ContainerChild :=
| StatusDiv (status : Status.t)
| PartialTranscriptDivRef (ref : nat).

Record App := mkApp {
  enableLiveTranscription : bool;
  noWordSeparatorForTranscription : bool;
  (** children of [transcriptContainerDiv], oldest first *)
  transcriptContainerDiv : list ContainerChild;
  (** [null] or a reference into [divStore] *)
  partialTranscriptDiv : option nat;
  partialTranscriptResultTimeMap : JsMap.t Z;
  partialTranscriptResultMap : JsMap.t Result.t;
  transcriptEntitySet : JsSet.t;
  (** every [div] made by [renderPartialTranscriptResults], by creation
      order, each given by its children *)
  divStore : list (list Node)
}.

(** ** Segment builder *)

Definition createSpaceSpan : Node :=
  setInnerText (classList_add (createElement "span") "transcript-content") nbsp.

(** The double that the literal [0.3] denotes. *)
Definition confidenceThreshold : float := 0x1.3333333333333p-2%float.

(** [item.hasOwnProperty('confidence') && !item.content.startsWith('[') &&
    item.confidence < 0.3] *)
Definition lowConfidence (item : Item.t) : bool :=
  match Item.confidence item with
  | None => false
  | Some c =>
      negb (startsWith (Item.content item) "[")
      && PrimFloat.ltb c confidenceThreshold
  end.

Definition isEntity (entitySet : JsSet.t) (item : Item.t) : bool :=
  (0 <? Z.of_nat (JsSet.size entitySet)) && JsSet.has (Item.content item) entitySet.

(** The [itemContentSpan] of one iteration of the loop over the items. *)
Definition itemContentSpan (entitySet : JsSet.t) (item : Item.t) : Node :=
  let span0 := setInnerText (createElement "span") (Item.content item) in
  let span1 := classList_add span0 "transcript-content" in
  let span2 := if lowConfidence item
               then classList_add span1 "confidence-style" else span1 in
  if isEntity entitySet item then classList_add span2 "entity-color" else span2.

(** The local variables of [populatePartialTranscriptSegmentsFromResult]
    and the array it pushes to. [contentSpan = None] is [undefined]. *)
Record Run := mkRun {
  startTimeMs : option Z;
  attendee : option Attendee;
  contentSpan : option Node;
  segments : list Segment.t
}.

Definition runOpen (r : Run) : bool := truthy (startTimeMs r).

(** One iteration of [for (const item of result.alternatives[0].items)].
    The three variables are assigned together, so [contentSpan] and
    [attendee] are set whenever [startTimeMs] is truthy
    ([populateItems_runs]); the cases where one of them would be missing are
    given as [None]. *)
Definition populateItem (noSeparator : bool) (entitySet : JsSet.t)
    (r : Run) (item : Item.t) : option Run :=
  let span := itemContentSpan entitySet item in
  if negb (truthy (startTimeMs r)) then
    Some (mkRun (Some (Item.startTimeMs item)) (Some (Item.attendee item))
                (Some (appendChild (createElement "span") span))
                (segments r))
  else if isPunctuation (Item.type item) then
    match contentSpan r, attendee r, startTimeMs r with
    | Some cs, Some a, Some t =>
        Some (mkRun None None
                    (Some (appendChild cs span))
                    (segments r ++
                     [Segment.mk (appendChild cs span) a t (Item.endTimeMs item)]))
    | _, _, _ => None
    end
  else
    match contentSpan r with
    | Some cs =>
        Some (mkRun (startTimeMs r) (attendee r)
                    (Some (if noSeparator
                           then appendChild cs span
                           else appendChild (appendChild cs createSpaceSpan) span))
                    (segments r))
    | None => None
    end.

Fixpoint populateItems (noSeparator : bool) (entitySet : JsSet.t)
    (r : Run) (items : list Item.t) : option Run :=
  match items with
  | [] => Some r
  | item :: rest =>
      match populateItem noSeparator entitySet r item with
      | Some r' => populateItems noSeparator entitySet r' rest
      | None => None
      end
  end.

(** The closing [if (startTimeMs) { segments.push(...) }]. *)
Definition closeRun (endTimeMs : Z) (r : Run) : option (list Segment.t) :=
  if truthy (startTimeMs r) then
    match contentSpan r, attendee r, startTimeMs r with
    | Some cs, Some a, Some t =>
        Some (segments r ++ [Segment.mk cs a t endTimeMs])
    | _, _, _ => None
    end
  else Some (segments r).

(** [populatePartialTranscriptSegmentsFromResult(segments, result)]: the
    array after the call, or [None] when the call throws. *)
Definition populatePartialTranscriptSegmentsFromResult
    (noSeparator : bool) (entitySet : JsSet.t)
    (segs : list Segment.t) (result : Result.t) : option (list Segment.t) :=
  match Result.alternatives result with
  | [] => None
  | alternative :: _ =>
      match Alternative.items alternative with
      | None => None
      | Some items =>
          match populateItems noSeparator entitySet
                  (mkRun None None None segs) items with
          | Some r => closeRun (Result.endTimeMs result) r
          | None => None
          end
      end
  end.

(** ** Renderer *)

(** [partialTranscriptSegments.sort((a, b) => a.startTimeMs - b.startTimeMs)]:
    [Array.prototype.sort] is stable, so segments that start at the same
    time keep their order. *)
Fixpoint insertByStartTime (s : Segment.t) (l : list Segment.t) : list Segment.t :=
  match l with
  | [] => [s]
  | s' :: rest =>
      if Segment.startTimeMs s <=? Segment.startTimeMs s'
      then s :: s' :: rest
      else s' :: insertByStartTime s rest
  end.

Fixpoint sortByStartTime (l : list Segment.t) : list Segment.t :=
  match l with
  | [] => []
  | s :: rest => insertByStartTime s (sortByStartTime rest)
  end.

(** The two children of one [speakerTranscriptDiv]. *)
Record SpeakerTranscript := mkSpeakerTranscript {
  speakerSpan : Node;
  transcriptSpan : Node
}.

Definition speakerTranscriptDiv (b : SpeakerTranscript) : Node :=
  appendChild
    (appendChild (classList_add (createElement "div") "transcript") (speakerSpan b))
    (transcriptSpan b).

(** The loop state of [updatePartialTranscriptDiv]: the children appended
    to [partialTranscriptDiv] so far and [speakerToTranscriptSpanMap], whose
    values are references to the [transcriptSpan] of one of these children,
    given by the child's index. *)
Record Walk := mkWalk {
  speakerDivs : list SpeakerTranscript;
  speakerToTranscriptSpanMap : JsMap.t nat
}.

Fixpoint updateAt {A : Type} (i : nat) (f : A -> A) (l : list A) : list A :=
  match l, i with
  | [], _ => []
  | x :: rest, O => f x :: rest
  | x :: rest, S j => x :: updateAt j f rest
  end.

(** [externalUserId.split('#').slice(-1)[0] + ': '] *)
Definition speakerLabel (a : Attendee) : string :=
  (last (split "#"%char (externalUserId a)) "" ++ ": ")%string.

Definition appendNewSpeakerTranscriptDiv (segment : Segment.t) (w : Walk) : Walk :=
  let speakerSpan0 :=
    setInnerText (classList_add (createElement "span") "transcript-speaker")
                 (speakerLabel (Segment.attendee segment)) in
  mkWalk (speakerDivs w ++ [mkSpeakerTranscript speakerSpan0 (Segment.contentSpan segment)])
         (JsMap.set (attendeeId (Segment.attendee segment))
                    (List.length (speakerDivs w))
                    (speakerToTranscriptSpanMap w)).

(** One iteration of [for (const segment of partialTranscriptSegments)]. *)
Definition renderSegment (w : Walk) (segment : Segment.t) : Walk :=
  let newSpeakerId := attendeeId (Segment.attendee segment) in
  if negb (JsMap.has newSpeakerId (speakerToTranscriptSpanMap w)) then
    appendNewSpeakerTranscriptDiv segment w
  else
    let partialResultSpeakers := JsMap.keys (speakerToTranscriptSpanMap w) in
    if indexOf newSpeakerId partialResultSpeakers
       <? Z.of_nat (List.length partialResultSpeakers) - 1
    then
      appendNewSpeakerTranscriptDiv segment
        (mkWalk (speakerDivs w)
                (JsMap.delete newSpeakerId (speakerToTranscriptSpanMap w)))
    else
      match JsMap.get newSpeakerId (speakerToTranscriptSpanMap w) with
      | Some ref =>
          mkWalk
            (updateAt ref
               (fun b =>
                  mkSpeakerTranscript (speakerSpan b)
                    (appendChild (appendChild (transcriptSpan b) createSpaceSpan)
                                 (Segment.contentSpan segment)))
               (speakerDivs w))
            (speakerToTranscriptSpanMap w)
      | None => w
      end.

Definition renderSegments (segs : list Segment.t) : Walk :=
  fold_left renderSegment segs (mkWalk [] JsMap.empty).

(** [for (const result of this.partialTranscriptResultMap.values())
       this.populatePartialTranscriptSegmentsFromResult(segments, result)] *)
Fixpoint collectSegments (noSeparator : bool) (entitySet : JsSet.t)
    (segs : list Segment.t) (results : list Result.t) : option (list Segment.t) :=
  match results with
  | [] => Some segs
  | result :: rest =>
      match populatePartialTranscriptSegmentsFromResult
              noSeparator entitySet segs result with
      | Some segs' => collectSegments noSeparator entitySet segs' rest
      | None => None
      end
  end.

(** The children that one pass of [updatePartialTranscriptDiv] leaves in
    [partialTranscriptDiv]; [None] when building the segments throws. *)
Definition renderedSpeakerDivs (noSeparator : bool) (entitySet : JsSet.t)
    (resultMap : JsMap.t Result.t) : option (list SpeakerTranscript) :=
  match collectSegments noSeparator entitySet [] (JsMap.values resultMap) with
  | Some segs => Some (speakerDivs (renderSegments (sortByStartTime segs)))
  | None => None
  end.

(** ** The event handler *)

(** How a call ends; either way with the fields as the call left them. *)
Inductive Completion :=
| Normal (app : App)
| Throw (app : App).

Definition stateOf (c : Completion) : App :=
  match c with Normal app => app | Throw app => app end.

Definition completes (c : Completion) : bool :=
  match c with Normal _ => true | Throw _ => false end.

Definition set_enableLiveTranscription (b : bool) (app : App) : App :=
  mkApp b (noWordSeparatorForTranscription app) (transcriptContainerDiv app)
        (partialTranscriptDiv app) (partialTranscriptResultTimeMap app)
        (partialTranscriptResultMap app) (transcriptEntitySet app) (divStore app).

Definition set_noWordSeparatorForTranscription (b : bool) (app : App) : App :=
  mkApp (enableLiveTranscription app) b (transcriptContainerDiv app)
        (partialTranscriptDiv app) (partialTranscriptResultTimeMap app)
        (partialTranscriptResultMap app) (transcriptEntitySet app) (divStore app).

Definition set_transcriptContainerDiv (c : list ContainerChild) (app : App) : App :=
  mkApp (enableLiveTranscription app) (noWordSeparatorForTranscription app) c
        (partialTranscriptDiv app) (partialTranscriptResultTimeMap app)
        (partialTranscriptResultMap app) (transcriptEntitySet app) (divStore app).

Definition set_partialTranscriptDiv (d : option nat) (app : App) : App :=
  mkApp (enableLiveTranscription app) (noWordSeparatorForTranscription app)
        (transcriptContainerDiv app) d (partialTranscriptResultTimeMap app)
        (partialTranscriptResultMap app) (transcriptEntitySet app) (divStore app).

Definition set_partialTranscriptResultTimeMap (m : JsMap.t Z) (app : App) : App :=
  mkApp (enableLiveTranscription app) (noWordSeparatorForTranscription app)
        (transcriptContainerDiv app) (partialTranscriptDiv app) m
        (partialTranscriptResultMap app) (transcriptEntitySet app) (divStore app).

Definition set_partialTranscriptResultMap (m : JsMap.t Result.t) (app : App) : App :=
  mkApp (enableLiveTranscription app) (noWordSeparatorForTranscription app)
        (transcriptContainerDiv app) (partialTranscriptDiv app)
        (partialTranscriptResultTimeMap app) m (transcriptEntitySet app)
        (divStore app).

Definition set_transcriptEntitySet (s : JsSet.t) (app : App) : App :=
  mkApp (enableLiveTranscription app) (noWordSeparatorForTranscription app)
        (transcriptContainerDiv app) (partialTranscriptDiv app)
        (partialTranscriptResultTimeMap app) (partialTranscriptResultMap app) s
        (divStore app).

Definition set_divStore (d : list (list Node)) (app : App) : App :=
  mkApp (enableLiveTranscription app) (noWordSeparatorForTranscription app)
        (transcriptContainerDiv app) (partialTranscriptDiv app)
        (partialTranscriptResultTimeMap app) (partialTranscriptResultMap app)
        (transcriptEntitySet app) d.

(** [updatePartialTranscriptDiv]. The children are appended one by one by
    the source; nothing can throw once the segments are built, so they are
    stored at once here. *)
Definition updatePartialTranscriptDiv (app : App) : Completion :=
  match partialTranscriptDiv app with
  | None => Throw app
  | Some ref =>
      let app1 := set_divStore (updateAt ref (fun _ => []) (divStore app)) app in
      match renderedSpeakerDivs (noWordSeparatorForTranscription app1)
              (transcriptEntitySet app1) (partialTranscriptResultMap app1) with
      | None => Throw app1
      | Some divs =>
          Normal (set_divStore
                    (updateAt ref (fun _ => List.map speakerTranscriptDiv divs)
                              (divStore app1))
                    app1)
      end
  end.

Definition renderPartialTranscriptResults (app : App) : Completion :=
  match partialTranscriptDiv app with
  | Some _ => updatePartialTranscriptDiv app
  | None =>
      let ref := List.length (divStore app) in
      let app1 := set_partialTranscriptDiv (Some ref)
                    (set_divStore (divStore app ++ [[]]) app) in
      match updatePartialTranscriptDiv app1 with
      | Normal app2 =>
          Normal (set_transcriptContainerDiv
                    (transcriptContainerDiv app2 ++ [PartialTranscriptDivRef ref])
                    app2)
      | Throw app2 => Throw app2
      end
  end.

(** [appendStatusDiv]: the text of the line is made of the fields of the
    status; the line is kept as the status itself. *)
Definition appendStatusDiv (status : Status.t) (app : App) : App :=
  set_transcriptContainerDiv (transcriptContainerDiv app ++ [StatusDiv status]) app.

(** [for (const entity of entities) for (const content of
    entity.content.split(' ')) this.transcriptEntitySet.add(content)] *)
Definition addEntities (entities : list Entity.t) (s : JsSet.t) : JsSet.t :=
  fold_left
    (fun acc entity =>
       fold_left (fun acc' content => JsSet.add content acc')
                 (split " "%char (Entity.content entity)) acc)
    entities s.

(** The [if (!isPartial) { ... }] block that fills the entity set;
    [None] when [result.alternatives[0]] is [undefined]. *)
Definition extractEntities (result : Result.t) (s : JsSet.t) : option JsSet.t :=
  if negb (Result.isPartial result) then
    match Result.alternatives result with
    | [] => None
    | alternative :: _ =>
        match Alternative.entities alternative with
        | Some (e :: es) => Some (addEntities (e :: es) s)
        | _ => Some s
        end
    end
  else Some s.

(** [for (const [olderResultId, endTimeMs] of this.partialTranscriptResultTimeMap)]
    over the entries still to visit; deleting the entry just visited does
    not disturb the iteration of a [Map]. [resultEndTimeMs - 5000] is the
    subtraction of the integers, which is the one of the code when
    [resultEndTimeMs] and the difference are safe integers; beyond 2^53 the
    code's difference is rounded. *)
Fixpoint evictOlder (resultId : string) (resultEndTimeMs : Z)
    (entries : list (string * Z)) (timeMap : JsMap.t Z) : JsMap.t Z :=
  match entries with
  | [] => timeMap
  | (olderResultId, endTimeMs) :: rest =>
      if String.eqb olderResultId resultId then timeMap
      else if endTimeMs <? resultEndTimeMs - 5000 then
        evictOlder resultId resultEndTimeMs rest (JsMap.delete olderResultId timeMap)
      else evictOlder resultId resultEndTimeMs rest timeMap
  end.

(** The part of the loop body after [if (isPartial) continue]. *)
Definition finalizeResult (result : Result.t) (app : App) : App :=
  let resultId := Result.resultId result in
  let timeMap1 :=
    evictOlder resultId (Result.endTimeMs result)
               (partialTranscriptResultTimeMap app)
               (partialTranscriptResultTimeMap app) in
  let timeMap2 := JsMap.delete resultId timeMap1 in
  let app1 := set_transcriptEntitySet (JsSet.clear (transcriptEntitySet app))
                (set_partialTranscriptResultTimeMap timeMap2 app) in
  if Nat.eqb (JsMap.size timeMap2) 0 then
    set_partialTranscriptResultMap
      (JsMap.clear (partialTranscriptResultMap app1))
      (set_partialTranscriptDiv None app1)
  else app1.

(** [this.partialTranscriptResultMap.set(resultId, result);
     this.partialTranscriptResultTimeMap.set(resultId, result.endTimeMs)] *)
Definition upsertResult (result : Result.t) (app : App) : App :=
  set_partialTranscriptResultTimeMap
    (JsMap.set (Result.resultId result) (Result.endTimeMs result)
               (partialTranscriptResultTimeMap app))
    (set_partialTranscriptResultMap
       (JsMap.set (Result.resultId result) result (partialTranscriptResultMap app))
       app).

(** The body of [for (const result of transcriptEvent.results)]. *)
Definition processResult (app : App) (result : Result.t) : Completion :=
  let app1 :=
    if isNoWordSeparatorLanguage (Result.languageCode result)
    then set_noWordSeparatorForTranscription true app else app in
  match extractEntities result (transcriptEntitySet app1) with
  | None => Throw app1
  | Some entitySet =>
      let app2 := upsertResult result (set_transcriptEntitySet entitySet app1) in
      match renderPartialTranscriptResults app2 with
      | Throw app3 => Throw app3
      | Normal app3 =>
          if Result.isPartial result then Normal app3
          else Normal (finalizeResult result app3)
      end
  end.

Fixpoint processResults (app : App) (results : list Result.t) : Completion :=
  match results with
  | [] => Normal app
  | result :: rest =>
      match processResult app result with
      | Normal app' => processResults app' rest
      | Throw app' => Throw app'
      end
  end.

(** The language code that a STARTED status carries. *)
Definition configuredLanguageCode
    (c : TranscriptionConfiguration) : option (option string) :=
  match c with
  | SyntaxError => None
  | FalsyConfiguration => Some None
  | Configuration (Some settings) _ => Some (settingsLanguageCode settings)
  | Configuration None (Some settings) => Some (settingsLanguageCode settings)
  | Configuration None None => Some None
  end.

(** [transcriptEventHandler], on the fields. Of its first block,
    [if (!this.enableLiveTranscription) { ... }], only the assignment to
    [enableLiveTranscription] is kept here: this is the handler for a call
    that is entered with the flag set, or whose first block runs to its end.
    The calls of the block that act on the page, one of which can throw,
    are in [transcriptEventHandlerOnPage] below. The scroll position of the
    transcript view is not part of the state. *)
Definition transcriptEventHandler (app : App) (transcriptEvent : TranscriptEvent)
    : Completion :=
  let app1 :=
    if negb (enableLiveTranscription app)
    then set_enableLiveTranscription true app else app in
  match transcriptEvent with
  | TranscriptionStatus status =>
      let app2 := appendStatusDiv status app1 in
      match Status.type status with
      | STARTED =>
          match configuredLanguageCode (Status.transcriptionConfiguration status) with
          | None => Throw app2
          | Some languageCode =>
              if isNoWordSeparatorLanguage languageCode
              then Normal (set_noWordSeparatorForTranscription true app2)
              else Normal app2
          end
      | STOPPED | FAILED =>
          if enableLiveTranscription app2 then
            Normal
              (set_partialTranscriptResultMap
                 (JsMap.clear (partialTranscriptResultMap app2))
                 (set_partialTranscriptDiv None
                    (set_partialTranscriptResultTimeMap
                       (JsMap.clear (partialTranscriptResultTimeMap app2))
                       (set_noWordSeparatorForTranscription false
                          (set_enableLiveTranscription false app2)))))
          else Normal app2
      end
  | Transcript results => processResults app1 results
  end.

(** The fields before the first event; [enableLiveTranscription] is
    [true] by its initialiser and [false] once the page has reset it. *)
Definition freshApp (enabled : bool) : App :=
  mkApp enabled false [] None JsMap.empty JsMap.empty JsSet.empty [].

Definition initialApp : App := freshApp true.

(** A sequence of events, each delivered to the handler in the state the
    previous call left, whether that call completed or threw. *)
Fixpoint deliver (app : App) (events : list TranscriptEvent) : App :=
  match events with
  | [] => app
  | e :: rest => deliver (stateOf (transcriptEventHandler app e)) rest
  end.

(** The same, when every call completes. *)
Fixpoint deliverAll (app : App) (events : list TranscriptEvent) : option App :=
  match events with
  | [] => Some app
  | e :: rest =>
      match transcriptEventHandler app e with
      | Normal app' => deliverAll app' rest
      | Throw _ => None
      end
  end.

(** ** Button states *)

(** [type ButtonState = 'on' | 'off' | 'disabled'] *)
Inductive ButtonState := On | Off | Disabled.

(** How a call on the page ends: it returns or it throws, with the page as
    the call left it. *)
Inductive Outcome (S : Type) :=
| Done (s : S)
| Threw (s : S).
Arguments Done {S} s.
Arguments Threw {S} s.

Definition outcomeState {S : Type} (o : Outcome S) : S :=
  match o with Done s => s | Threw s => s end.

Definition returns {S : Type} (o : Outcome S) : bool :=
  match o with Done _ => true | Threw _ => false end.

(** What the button code reads and writes of an element: its
    [style.display], its class list, the class list of its first element
    child ([None] when it has no child) and its [disabled] attribute. The
    first child is taken not to be one of the elements fetched by id. *)
Module Element.
Record t := mk {
  display : string;
  classList : list string;
  firstElementChild : option (list string);
  disabled : bool
}.
End Element.

(** [classList.add(c)] and [classList.remove(c)] *)
Definition classes_add (c : string) (l : list string) : list string :=
  if existsb (String.eqb c) l then l else l ++ [c].

Definition classes_remove (c : string) (l : list string) : list string :=
  filter (fun x => negb (String.eqb x c)) l.

(** [this.buttonStates], an object whose keys are element ids, and the
    elements of the document that have an id. *)
Record Page := mkPage {
  buttonStates : JsMap.t ButtonState;
  elements : JsMap.t Element.t
}.

(** The [buttonStates] of a new [DemoMeetingApp]. *)
Definition initialButtonStates : JsMap.t ButtonState :=
  [("button-microphone", Off); ("button-camera", Off); ("button-speaker", On);
   ("button-content-share", Off); ("button-live-transcription", On);
   ("button-video-stats", Off); ("button-promote-to-primary", On);
   ("button-video-filter", Off); ("button-video-recording-drop", Off);
   ("button-record-self", Off); ("button-record-cloud", Off);
   ("button-live-connector", Off)].

(** [isButtonOn(button)] *)
Definition isButtonOn (button : string) (states : JsMap.t ButtonState) : bool :=
  match JsMap.get button states with
  | Some On => true
  | _ => false
  end.

Definition isButtonDisabled (button : string) (states : JsMap.t ButtonState)
    : bool :=
  match JsMap.get button states with
  | Some Disabled => true
  | _ => false
  end.

(** [add(on ? a : b)] followed by [remove(on ? b : a)] on a class list. *)
Definition showOn (on : bool) (a b : string) (l : list string) : list string :=
  classes_remove (if on then b else a) (classes_add (if on then a else b) l).

(** The body of the loop of [displayButtonStates] for one button. *)
Definition displayButton (states : JsMap.t ButtonState) (button : string)
    (els : JsMap.t Element.t) : Outcome (JsMap.t Element.t) :=
  match JsMap.get button els with
  | None => Threw els
  | Some element =>
      let drop := JsMap.get (button ++ "-drop")%string els in
      let on := isButtonOn button states in
      let classes :=
        showOn on "btn-success" "btn-outline-secondary"
               (Element.classList element) in
      match Element.firstElementChild element with
      | None =>
          Threw (JsMap.set button
                   (Element.mk (Element.display element) classes None
                               (Element.disabled element))
                   els)
      | Some childClasses =>
          let els1 :=
            JsMap.set button
              (Element.mk (Element.display element) classes
                          (Some (showOn on "svg-active" "svg-inactive"
                                        childClasses))
                          (isButtonDisabled button states))
              els in
          match drop with
          | None => Done els1
          | Some d =>
              Done (JsMap.set (button ++ "-drop")%string
                      (Element.mk (Element.display d)
                         (showOn on "btn-success" "btn-outline-secondary"
                                 (Element.classList d))
                         (Element.firstElementChild d)
                         (isButtonDisabled button states))
                      els1)
          end
      end
  end.

(** [for (const button in this.buttonStates) { ... }] of
    [displayButtonStates], over the keys still to visit. *)
Fixpoint displayButtons (states : JsMap.t ButtonState) (buttons : list string)
    (els : JsMap.t Element.t) : Outcome (JsMap.t Element.t) :=
  match buttons with
  | [] => Done els
  | button :: rest =>
      match displayButton states button els with
      | Done els' => displayButtons states rest els'
      | Threw els' => Threw els'
      end
  end.

Definition displayButtonStates (page : Page) : Outcome Page :=
  match displayButtons (buttonStates page) (JsMap.keys (buttonStates page))
          (elements page) with
  | Done els => Done (mkPage (buttonStates page) els)
  | Threw els => Threw (mkPage (buttonStates page) els)
  end.

(** [toggleButton(button, state?)]; what it returns is the state of the
    button in the page it leaves. *)
Definition toggleButton (button : string) (state : option ButtonState)
    (page : Page) : Outcome Page :=
  let states :=
    match state with
    | Some st => JsMap.set button st (buttonStates page)
    | None =>
        match JsMap.get button (buttonStates page) with
        | Some On => JsMap.set button Off (buttonStates page)
        | _ => JsMap.set button On (buttonStates page)
        end
    end in
  displayButtonStates (mkPage states (elements page)).

(** [setButtonVisibility(button, visible, state?)] *)
Definition setButtonVisibility (button : string) (visible : bool)
    (state : option ButtonState) (page : Page) : Outcome Page :=
  match JsMap.get button (elements page) with
  | None => Threw page
  | Some element =>
      toggleButton button state
        (mkPage (buttonStates page)
           (JsMap.set button
              (Element.mk (if visible then "inline-block" else "none")
                          (Element.classList element)
                          (Element.firstElementChild element)
                          (Element.disabled element))
              (elements page)))
  end.

Definition stateIs (button : string) (st : ButtonState)
    (states : JsMap.t ButtonState) : bool :=
  match JsMap.get button states, st with
  | Some On, On | Some Off, Off | Some Disabled, Disabled => true
  | _, _ => false
  end.

(** [updateButtonVideoRecordingDrop()] *)
Definition updateButtonVideoRecordingDrop (page : Page) : Outcome Page :=
  let states := buttonStates page in
  let states' :=
    if stateIs "button-record-self" On states
       || stateIs "button-record-cloud" On states
       || stateIs "button-live-connector" On states
    then JsMap.set "button-video-recording-drop" On states
    else if stateIs "button-record-self" Off states
            && stateIs "button-record-cloud" Off states
            && stateIs "button-live-connector" Off states
    then JsMap.set "button-video-recording-drop" Off states
    else states in
  displayButtonStates (mkPage states' (elements page)).

(** A [for (const button in this.buttonStates)] loop whose body may throw,
    over the keys still to visit; the bodies below only assign to keys that
    exist, which does not disturb the enumeration. *)
Fixpoint forEachButton (body : string -> Page -> Outcome Page)
    (buttons : list string) (page : Page) : Outcome Page :=
  match buttons with
  | [] => Done page
  | button :: rest =>
      match body button page with
      | Done page' => forEachButton body rest page'
      | Threw page' => Threw page'
      end
  end.

(** [button === 'button-speaker' || button === 'button-video-stats' ||
    button === 'button-live-transcription'] *)
Definition keepsItsState (button : string) : bool :=
  String.eqb button "button-speaker"
  || String.eqb button "button-video-stats"
  || String.eqb button "button-live-transcription".

(** [updateUXForViewOnlyMode()], without the call that mutes the audio. *)
Definition updateUXForViewOnlyMode (page : Page) : Outcome Page :=
  forEachButton
    (fun button page' =>
       if keepsItsState button then Done page'
       else toggleButton button (Some Disabled) page')
    (JsMap.keys (buttonStates page)) page.

(** [updateUXForReplicaMeetingPromotionState(promotedState)], without the
    log line and the call that mutes the audio; [isPromoted] is
    [promotedState === 'promoted']. *)
Definition updateUXForReplicaMeetingPromotionState (isPromoted : bool)
    (page : Page) : Outcome Page :=
  forEachButton
    (fun button page' =>
       if keepsItsState button then Done page'
       else if String.eqb button "button-promote-to-primary"
       then toggleButton button (Some (if isPromoted then On else Off)) page'
       else toggleButton button (Some (if isPromoted then Off else Disabled))
                         page')
    (JsMap.keys (buttonStates page)) page.

(** ** The handler and the page *)

(** The first block of [transcriptEventHandler],
    [if (!this.enableLiveTranscription) { ... }]. [enableLiveTranscription]
    is set first. [updateLiveTranscriptionDisplayState] writes a log line and
    toggles a class on the elements of [liveTranscriptionDisplayables],
    which are not part of the page kept here. [setButtonVisibility] throws
    when the page has no element [button-live-transcription] or when the
    display of the button states throws, and the call of the handler ends
    there. The transcript container is taken to exist, as in the rest of the
    handler, so setting its [style.display] does not throw. *)
Definition showLiveTranscription (app : App) (page : Page)
    : Completion * Page :=
  if negb (enableLiveTranscription app) then
    let app1 := set_enableLiveTranscription true app in
    match setButtonVisibility "button-live-transcription" true (Some Off) page with
    | Done page1 => (Normal app1, page1)
    | Threw page1 => (Throw app1, page1)
    end
  else (Normal app, page).

(** [transcriptEventHandler] with the whole of its first block: what
    follows the block is [transcriptEventHandler] above, entered with
    [enableLiveTranscription] set. *)
Definition transcriptEventHandlerOnPage (app : App) (page : Page)
    (transcriptEvent : TranscriptEvent) : Completion * Page :=
  match showLiveTranscription app page with
  | (Normal app1, page1) => (transcriptEventHandler app1 transcriptEvent, page1)
  | (Throw app1, page1) => (Throw app1, page1)
  end.

(** ** Chat messages *)

Module DataMessage.
Record t := mk {
  throttled : bool;
  senderAttendeeId : string;
  senderExternalUserId : string;
  timestampMs : Z;
  topic : string;
  (** [dataMessage.text()] *)
  text : string
}.
End DataMessage.

(** A child that [dataMessageHandler] appends to the element
    [receive-message]: the [div] of class message-bubble-sender with the
    name of the sender, or the [div] of class message-bubble-self or
    message-bubble-other that holds the rendering of the text. *)
Inductive ChatNode :=
| SenderName (name : string)
| MessageText (isSelf : bool) (text : string).

(** The fields that [dataMessageHandler] keeps for the chat, the attendee id
    of the credentials of the session, and the children of the element
    [receive-message], which the page of the demo has. *)
Record Chat := mkChat {
  selfAttendeeId : string;
  lastMessageSender : option string;
  lastReceivedMessageTimestamp : Z;
  receiveMessage : list ChatNode
}.

(** The fields of a new [DemoMeetingApp]. *)
Definition initialChat (self : string) : Chat := mkChat self None 0 [].

(** [this.lastMessageSender !== dataMessage.senderAttendeeId] *)
Definition senderChanged (last : option string) (sender : string) : bool :=
  match last with
  | Some l => negb (String.eqb l sender)
  | None => true
  end.

(** [dataMessageHandler(dataMessage)], as far as the chat is concerned. The
    branches for the topics quizForumQuestion and displayForm write to other
    elements and return; what they do there, and whether they throw, is left
    out. *)
Definition dataMessageHandler (chat : Chat) (dataMessage : DataMessage.t) : Chat :=
  if negb (DataMessage.throttled dataMessage) then
    let isSelf :=
      String.eqb (DataMessage.senderAttendeeId dataMessage) (selfAttendeeId chat) in
    if DataMessage.timestampMs dataMessage <=? lastReceivedMessageTimestamp chat
    then chat
    else
      let timestamp := DataMessage.timestampMs dataMessage in
      if String.eqb (DataMessage.topic dataMessage) "quizForumQuestion" then
        mkChat (selfAttendeeId chat) (lastMessageSender chat) timestamp
               (receiveMessage chat)
      else if String.eqb (DataMessage.topic dataMessage) "displayForm" then
        mkChat (selfAttendeeId chat) (lastMessageSender chat) timestamp
               (receiveMessage chat)
      else
        let messageNameSpan :=
          SenderName
            (last (split "#"%char (DataMessage.senderExternalUserId dataMessage))
                  "") in
        let messageTextSpan := MessageText isSelf (DataMessage.text dataMessage) in
        let children1 :=
          if senderChanged (lastMessageSender chat)
                           (DataMessage.senderAttendeeId dataMessage)
          then receiveMessage chat ++ [messageNameSpan]
          else receiveMessage chat in
        mkChat (selfAttendeeId chat)
               (Some (DataMessage.senderAttendeeId dataMessage))
               timestamp
               (children1 ++ [messageTextSpan])
  else chat.

(** The messages of a list, handled one after the other. *)
Definition dataMessages (chat : Chat) (messages : list DataMessage.t) : Chat :=
  fold_left dataMessageHandler messages chat.

(** ** Voice focus *)

(** [voiceFocusName(name = VOICE_FOCUS_NAME)]: [VOICE_FOCUS_NAME] is the
    query parameter voiceFocusName, [None] when it is missing or empty; the
    argument is [None] when the call gives none. *)
Definition voiceFocusName (VOICE_FOCUS_NAME : option string)
    (name : option string) : option string :=
  let name' := match name with Some n => Some n | None => VOICE_FOCUS_NAME end in
  match name' with
  | Some n =>
      if negb (String.eqb n "")
         && existsb (String.eqb n) ["default"; "ns_es"]
      then Some n else None
  | None => None
  end.

(** What [getVoiceFocusSpec] reads of its argument: [joinInfo.Meeting] is
    missing, or it is there and the optional chain
    [.Meeting?.MeetingFeatures?.Audio?.EchoReduction] gives a string or
    [undefined]. *)
Inductive JoinInfo :=
| NoMeeting
| MeetingInfo (EchoReduction : option string).

(** [getVoiceFocusSpec(joinInfo)] on the name of [VOICE_FOCUS_SPEC], the one
    object that every call reads, writes and returns; [None] when the call
    throws. *)
Definition getVoiceFocusSpec (VOICE_FOCUS_NAME : option string)
    (joinInfo : JoinInfo) (specName : option string) : option (option string) :=
  match joinInfo with
  | NoMeeting => None
  | MeetingInfo echoReduction =>
      let es := match echoReduction with
                | Some v => String.eqb v "AVAILABLE"
                | None => false
                end in
      match specName with
      | Some n =>
          if negb (String.eqb n "") then Some specName
          else Some (if es then voiceFocusName VOICE_FOCUS_NAME (Some "ns_es")
                     else voiceFocusName VOICE_FOCUS_NAME (Some "default"))
      | None =>
          Some (if es then voiceFocusName VOICE_FOCUS_NAME (Some "ns_es")
                else voiceFocusName VOICE_FOCUS_NAME (Some "default"))
      end
  end.

(** ** Notions used to state the properties *)

(** The class list of an element. *)
Definition classListOf (n : Node) : list string :=
  match n with
  | Elem _ cl _ => cl
  | Text _ => []
  end.

(** The tokens of a run as the specification words them: the leading token,
    then every further token, preceded by one no-break space token unless
    the session has no word separator or the token is punctuation. *)
Definition separatedToken (noSeparator : bool) (entitySet : JsSet.t)
    (item : Item.t) : list Node :=
  if noSeparator || isPunctuation (Item.type item)
  then [itemContentSpan entitySet item]
  else [createSpaceSpan; itemContentSpan entitySet item].

Definition runTokens (noSeparator : bool) (entitySet : JsSet.t)
    (first : Item.t) (rest : list Item.t) : list Node :=
  itemContentSpan entitySet first
  :: flat_map (separatedToken noSeparator entitySet) rest.

(** The segment of the run [first :: rest] that ends at [endTimeMs]. *)
Definition segmentOfRun (noSeparator : bool) (entitySet : JsSet.t)
    (first : Item.t) (rest : list Item.t) (endTimeMs : Z) : Segment.t :=
  Segment.mk (Elem "span" [] (runTokens noSeparator entitySet first rest))
             (Item.attendee first) (Item.startTimeMs first) endTimeMs.

(** The variables of the builder describe the run [first :: rest] that the
    items read so far end with. *)
Definition holdsRun (noSeparator : bool) (entitySet : JsSet.t)
    (read : list Item.t) (r : Run) : Prop :=
  runOpen r = true ->
  exists before first rest,
    read = before ++ first :: rest
    /\ contentSpan r = Some (Elem "span" [] (runTokens noSeparator entitySet first rest))
    /\ attendee r = Some (Item.attendee first)
    /\ startTimeMs r = Some (Item.startTimeMs first).

(** A segment that a punctuation item closed, among [items]. *)
Definition closedSegment (noSeparator : bool) (entitySet : JsSet.t)
    (items : list Item.t) (s : Segment.t) : Prop :=
  exists before first body punctuation after,
    items = before ++ first :: body ++ punctuation :: after
    /\ Item.type punctuation = PUNCTUATION
    /\ s = segmentOfRun noSeparator entitySet first (body ++ [punctuation])
             (Item.endTimeMs punctuation).

(** A segment made of consecutive items of [items]. *)
Definition runSegment (noSeparator : bool) (entitySet : JsSet.t)
    (items : list Item.t) (s : Segment.t) : Prop :=
  exists before first rest after endTimeMs,
    items = before ++ first :: rest ++ after
    /\ s = segmentOfRun noSeparator entitySet first rest endTimeMs.

(** The segments of a list of items as section 4.3 of the specification
    describes the builder: the items are read in order; an item read while no
    run is open opens a run, whatever its start time; a punctuation item read
    while a run is open is appended to it and closes it at its own end time;
    any other item is appended to the open run; the run still open after the
    last item is closed at the end time of the result. [current] is the run
    being read, its first item and the items appended since. *)
Fixpoint runsFrom (noSeparator : bool) (entitySet : JsSet.t)
    (resultEndTimeMs : Z) (current : option (Item.t * list Item.t))
    (items : list Item.t) : list Segment.t :=
  match items with
  | [] =>
      match current with
      | Some (first, rest) =>
          [segmentOfRun noSeparator entitySet first rest resultEndTimeMs]
      | None => []
      end
  | item :: more =>
      match current with
      | None =>
          runsFrom noSeparator entitySet resultEndTimeMs (Some (item, [])) more
      | Some (first, rest) =>
          if isPunctuation (Item.type item)
          then segmentOfRun noSeparator entitySet first (rest ++ [item])
                            (Item.endTimeMs item)
               :: runsFrom noSeparator entitySet resultEndTimeMs None more
          else runsFrom noSeparator entitySet resultEndTimeMs
                        (Some (first, rest ++ [item])) more
      end
  end.

Definition runsOfItems (noSeparator : bool) (entitySet : JsSet.t)
    (items : list Item.t) (resultEndTimeMs : Z) : list Segment.t :=
  runsFrom noSeparator entitySet resultEndTimeMs None items.

(** The variables of the builder hold the run [current]: none of them
    counts when no run is being read. *)
Definition currentRun (noSeparator : bool) (entitySet : JsSet.t)
    (current : option (Item.t * list Item.t)) (r : Run) : Prop :=
  match current with
  | None => runOpen r = false
  | Some (first, rest) =>
      startTimeMs r = Some (Item.startTimeMs first)
      /\ Item.startTimeMs first <> 0
      /\ attendee r = Some (Item.attendee first)
      /\ contentSpan r
         = Some (Elem "span" [] (runTokens noSeparator entitySet first rest))
  end.

(** The speaker whose span was opened last: the last key of
    [speakerToTranscriptSpanMap]. *)
Definition mostRecentSpeaker (w : Walk) : option string :=
  match rev (JsMap.keys (speakerToTranscriptSpanMap w)) with
  | [] => None
  | k :: _ => Some k
  end.

(** The block that [appendNewSpeakerTranscriptDiv] makes for a segment. *)
Definition newSpeakerTranscript (segment : Segment.t) : SpeakerTranscript :=
  mkSpeakerTranscript
    (Elem "span" ["transcript-speaker"]
          [Text (speakerLabel (Segment.attendee segment))])
    (Segment.contentSpan segment).

(** A block after a further segment was merged into its span. *)
Definition mergedInto (b : SpeakerTranscript) (segment : Segment.t)
    : SpeakerTranscript :=
  mkSpeakerTranscript (speakerSpan b)
    (appendChild (appendChild (transcriptSpan b) createSpaceSpan)
                 (Segment.contentSpan segment)).

(** The walk keeps one entry per speaker, and the entry set last refers to
    the block appended last. *)
Definition walkInvariant (w : Walk) : Prop :=
  NoDup (JsMap.keys (speakerToTranscriptSpanMap w))
  /\ forall m k ref,
       speakerToTranscriptSpanMap w = m ++ [(k, ref)] ->
       S ref = List.length (speakerDivs w).

(** A state as a pass of the renderer leaves it: the current block holds
    what the stored results render to. *)
Definition rendered (app : App) : Prop :=
  exists ref divs store,
    partialTranscriptDiv app = Some ref
    /\ renderedSpeakerDivs (noWordSeparatorForTranscription app)
         (transcriptEntitySet app) (partialTranscriptResultMap app) = Some divs
    /\ divStore app
       = updateAt ref (fun _ => List.map speakerTranscriptDiv divs) store.

(** Every key of the time map has a partial result, with the recorded end
    time, in the result map. *)
Definition trackedArePartial (app : App) : Prop :=
  forall k t,
    JsMap.get k (partialTranscriptResultTimeMap app) = Some t ->
    exists r,
      JsMap.get k (partialTranscriptResultMap app) = Some r
      /\ Result.isPartial r = true
      /\ Result.endTimeMs r = t.

(** The result map is emptied when the last key of the time map goes. *)
Definition emptiedTogether (app : App) : Prop :=
  partialTranscriptResultTimeMap app = [] -> partialTranscriptResultMap app = [].

(** [k] comes before [resultId] in the insertion order [keys]. *)
Fixpoint insertedBefore (k resultId : string) (keys : list string) : bool :=
  match keys with
  | [] => false
  | k' :: rest =>
      if String.eqb k' resultId then false
      else if String.eqb k' k then true
      else insertedBefore k resultId rest
  end.

(** Some entry of [k] that comes before [resultId] is older than [limit]. *)
Fixpoint evictedBefore (resultId : string) (limit : Z)
    (entries : list (string * Z)) (k : string) : bool :=
  match entries with
  | [] => false
  | (k', t) :: rest =>
      if String.eqb k' resultId then false
      else if String.eqb k' k
           then (t <? limit) || evictedBefore resultId limit rest k
           else evictedBefore resultId limit rest k
  end.

(** The result has a best alternative with an items array. *)
Definition hasItems (result : Result.t) : bool :=
  match Result.alternatives result with
  | alternative :: _ =>
      match Alternative.items alternative with
      | Some _ => true
      | None => false
      end
  | [] => false
  end.

(** ** Events used as examples *)

Definition alice : Attendee := mkAttendee "attendee-a" "tenant#Alice".
Definition bob : Attendee := mkAttendee "attendee-b" "tenant#Bob".

(** The doubles that the literals [0.2] and [0] denote. *)
Definition confidence_0_2 : float := 0x1.999999999999ap-3%float.
Definition confidence_0 : float := 0%float.

Definition word (a : Attendee) (text : string) (startMs endMs : Z) : Item.t :=
  Item.mk text WORD a startMs endMs None.

Definition fullStop (a : Attendee) (startMs endMs : Z) : Item.t :=
  Item.mk "." PUNCTUATION a startMs endMs None.

(** [{resultId: "r1", isPartial: true, alternatives: [{items: [{content:
    "hello", type: word, attendee: X, startTimeMs: 0, endTimeMs: 500}]}],
    endTimeMs: 500}] *)
Definition r1 (X : Attendee) : Result.t :=
  Result.mk "r1" true None
    [Alternative.mk (Some [word X "hello" 0 500]) None] 500.

Definition unsureWord (a : Attendee) : Item.t :=
  Item.mk "word" WORD a 100 200 (Some confidence_0_2).

Definition redactedName (a : Attendee) : Item.t :=
  Item.mk "[NAME]" WORD a 100 200 (Some confidence_0).

Definition partialResult (id : string) (items : list Item.t) (endMs : Z)
    : Result.t :=
  Result.mk id true None [Alternative.mk (Some items) None] endMs.

Definition finalResult (id : string) (items : list Item.t)
    (entities : option (list Entity.t)) (endMs : Z) : Result.t :=
  Result.mk id false None [Alternative.mk (Some items) entities] endMs.

(** A partial result whose [alternatives] array is empty. *)
Definition noAlternative (id : string) (endMs : Z) : Result.t :=
  Result.mk id true None [] endMs.

Definition stopped : Status.t :=
  Status.mk STOPPED 20000 "us-east-1" FalsyConfiguration None.

(** ** Reference descriptions used by the further properties *)

(** The blocks of a walk, described without the map: [current] is the block
    of [speaker], who spoke last; a segment of the same speaker is merged
    into it, a segment of another attendee closes it and starts a block. *)
Fixpoint turnsFrom (current : SpeakerTranscript) (speaker : string)
    (segs : list Segment.t) : list SpeakerTranscript :=
  match segs with
  | [] => [current]
  | s :: rest =>
      if String.eqb speaker (attendeeId (Segment.attendee s))
      then turnsFrom (mergedInto current s) speaker rest
      else current :: turnsFrom (newSpeakerTranscript s)
                                (attendeeId (Segment.attendee s)) rest
  end.

Definition speakerTurns (segs : list Segment.t) : list SpeakerTranscript :=
  match segs with
  | [] => []
  | s :: rest =>
      turnsFrom (newSpeakerTranscript s) (attendeeId (Segment.attendee s)) rest
  end.

(** [a] does not start after [b]. *)
Definition startsBefore (a b : Segment.t) : Prop :=
  Segment.startTimeMs a <= Segment.startTimeMs b.

(** The character [c] occurs in [s]. *)
Fixpoint occurs (c : ascii) (s : string) : bool :=
  match s with
  | EmptyString => false
  | String c' rest => Ascii.eqb c' c || occurs c rest
  end.

(** The tokens that the entities of a finalized result add to the set. *)
Definition entityTokens (entities : list Entity.t) : list string :=
  flat_map (fun entity => split " "%char (Entity.content entity)) entities.

(** The entities of the best alternative of a result, none when the
    property is missing. *)
Definition entitiesOf (result : Result.t) : list Entity.t :=
  match Result.alternatives result with
  | alternative :: _ =>
      match Alternative.entities alternative with
      | Some entities => entities
      | None => []
      end
  | [] => []
  end.

(** The event is a STOPPED or FAILED status. *)
Definition isStopOrFail (event : TranscriptEvent) : bool :=
  match event with
  | TranscriptionStatus status =>
      match Status.type status with
      | STARTED => false
      | STOPPED | FAILED => true
      end
  | Transcript _ => false
  end.

(** The language codes that an event carries: the one of the configuration
    of a STARTED status, those of the results of a batch. *)
Definition eventLanguageCodes (event : TranscriptEvent) : list (option string) :=
  match event with
  | TranscriptionStatus status =>
      match configuredLanguageCode (Status.transcriptionConfiguration status) with
      | Some languageCode => [languageCode]
      | None => []
      end
  | Transcript results => List.map Result.languageCode results
  end.

(** How the page may differ after some calls: blocks were added to the
    store, children were appended to the transcript container, and the blocks
    that were not the current one are as they were and are not current. *)
Definition advances (app app' : App) : Prop :=
  (List.length (divStore app) <= List.length (divStore app'))%nat
  /\ (exists added,
        transcriptContainerDiv app' = transcriptContainerDiv app ++ added)
  /\ forall j,
       (j < List.length (divStore app))%nat ->
       partialTranscriptDiv app <> Some j ->
       nth_error (divStore app') j = nth_error (divStore app) j
       /\ partialTranscriptDiv app' <> Some j.

(** There is a current block exactly when some result is tracked, and every
    tracked key has a stored result. *)
Definition blockFollowsStore (app : App) : Prop :=
  (partialTranscriptDiv app = None <-> partialTranscriptResultTimeMap app = [])
  /\ (partialTranscriptResultTimeMap app = [] -> partialTranscriptResultMap app = [])
  /\ forall k,
       JsMap.get k (partialTranscriptResultTimeMap app) <> None ->
       JsMap.get k (partialTranscriptResultMap app) <> None.

(** The element shows the state of the button: the classes of the element
    and of its first child tell whether the button is on, and the element is
    disabled exactly when the button is. *)
Definition reflectsState (states : JsMap.t ButtonState) (button : string)
    (element : Element.t) : Prop :=
  (In "btn-success" (Element.classList element)
   <-> isButtonOn button states = true)
  /\ (In "btn-outline-secondary" (Element.classList element)
      <-> isButtonOn button states = false)
  /\ (exists child,
        Element.firstElementChild element = Some child
        /\ (In "svg-active" child <-> isButtonOn button states = true)
        /\ (In "svg-inactive" child <-> isButtonOn button states = false))
  /\ Element.disabled element = isButtonDisabled button states.

(** A page with an element, with a child, for each of the initial buttons. *)
Definition examplePage : Page :=
  mkPage initialButtonStates
    (List.map (fun entry => (fst entry, Element.mk "" [] (Some []) false))
              initialButtonStates).

(** The message goes to one of the quiz branches, not to the chat. *)
Definition isQuizTopic (m : DataMessage.t) : bool :=
  String.eqb (DataMessage.topic m) "quizForumQuestion"
  || String.eqb (DataMessage.topic m) "displayForm".

(** The greatest timestamp among [start] and the messages that are not
    throttled. *)
Definition latestTimestamp (start : Z) (messages : list DataMessage.t) : Z :=
  fold_left
    (fun latest m =>
       if DataMessage.throttled m then latest
       else Z.max latest (DataMessage.timestampMs m))
    messages start.

(** * Properties *)

Ltac unfold_setters :=
  unfold upsertResult, appendStatusDiv,
    set_enableLiveTranscription, set_noWordSeparatorForTranscription,
    set_transcriptContainerDiv, set_partialTranscriptDiv,
    set_partialTranscriptResultTimeMap, set_partialTranscriptResultMap,
    set_transcriptEntitySet, set_divStore in *.

(** ** Maps *)

Section JsMapFacts.
Context {V : Type}.
Implicit Types (m : JsMap.t V) (k : string) (v : V).

Lemma get_set_same m k v : JsMap.get k (JsMap.set k v m) = Some v.
Proof.
  induction m as [|[k' v'] m IH]; simpl.
  - now rewrite String.eqb_refl.
  - destruct (String.eqb k' k) eqn:E; simpl; rewrite E; auto.
Qed.

Lemma get_set_other m k k' v :
  k <> k' -> JsMap.get k' (JsMap.set k v m) = JsMap.get k' m.
Proof.
  intros Hne. induction m as [|[k0 v0] m IH]; simpl.
  - destruct (String.eqb_spec k k'); congruence.
  - destruct (String.eqb_spec k0 k) as [->|Hk]; simpl.
    + destruct (String.eqb_spec k k'); congruence.
    + now rewrite IH.
Qed.

Lemma get_delete_same m k : JsMap.get k (JsMap.delete k m) = None.
Proof.
  induction m as [|[k' v'] m IH]; simpl; auto.
  destruct (String.eqb k' k) eqn:E; simpl; rewrite ?E; auto.
Qed.

Lemma get_delete_other m k k' :
  k <> k' -> JsMap.get k' (JsMap.delete k m) = JsMap.get k' m.
Proof.
  intros Hne. induction m as [|[k0 v0] m IH]; simpl; auto.
  destruct (String.eqb_spec k0 k) as [->|Hk]; simpl.
  - destruct (String.eqb_spec k k'); congruence.
  - now rewrite IH.
Qed.

(** Writing again what is stored leaves the map as it is. *)
Lemma set_get_id m k v : JsMap.get k m = Some v -> JsMap.set k v m = m.
Proof.
  induction m as [|[k' v'] m IH]; simpl; [discriminate|].
  destruct (String.eqb k' k) eqn:E; intros H.
  - congruence.
  - now rewrite IH.
Qed.

Lemma get_In m k v : JsMap.get k m = Some v -> In (k, v) m.
Proof.
  induction m as [|[k' v'] m IH]; simpl; [discriminate|].
  destruct (String.eqb_spec k' k) as [->|Hk]; intros H.
  - left. congruence.
  - right. auto.
Qed.

Lemma get_None_keys m k : JsMap.get k m = None <-> ~ In k (JsMap.keys m).
Proof.
  induction m as [|[k' v'] m IH]; simpl.
  - tauto.
  - destruct (String.eqb_spec k' k) as [->|Hk].
    + split; [discriminate | intros H; exfalso; auto].
    + rewrite IH. tauto.
Qed.

Lemma keys_set_absent m k v :
  JsMap.get k m = None -> JsMap.set k v m = m ++ [(k, v)].
Proof.
  induction m as [|[k' v'] m IH]; simpl; auto.
  destruct (String.eqb k' k); [discriminate|].
  intros H. now rewrite IH.
Qed.

Lemma keys_set_present m k v :
  JsMap.get k m <> None -> JsMap.keys (JsMap.set k v m) = JsMap.keys m.
Proof.
  induction m as [|[k' v'] m IH]; simpl; [congruence|].
  destruct (String.eqb_spec k' k) as [->|Hk]; simpl; auto.
  intros H. now rewrite IH.
Qed.

Lemma In_keys_delete m k k' :
  In k' (JsMap.keys (JsMap.delete k m)) -> In k' (JsMap.keys m) /\ k' <> k.
Proof.
  induction m as [|[k0 v0] m IH]; simpl; [tauto|].
  destruct (String.eqb_spec k0 k) as [->|Hk]; simpl.
  - intros H. destruct (IH H). auto.
  - intros [<-|H]; [auto|]. destruct (IH H). auto.
Qed.

Lemma NoDup_keys_delete m k :
  NoDup (JsMap.keys m) -> NoDup (JsMap.keys (JsMap.delete k m)).
Proof.
  induction m as [|[k0 v0] m IH]; simpl; auto.
  intros H. inversion H as [|? ? Hin Hnd]; subst.
  destruct (String.eqb k0 k); simpl; auto.
  constructor; auto.
  intros Hin'. apply In_keys_delete in Hin'. tauto.
Qed.

Lemma NoDup_keys_set m k v :
  NoDup (JsMap.keys m) -> NoDup (JsMap.keys (JsMap.set k v m)).
Proof.
  intros H. destruct (JsMap.get k m) eqn:E.
  - rewrite keys_set_present; congruence.
  - rewrite keys_set_absent by assumption.
    unfold JsMap.keys. rewrite map_app. simpl.
    apply get_None_keys in E.
    apply NoDup_rev in H. rewrite <- (rev_involutive (map fst m ++ [k])).
    apply NoDup_rev. rewrite rev_app_distr. simpl.
    constructor; auto. now rewrite <- in_rev.
Qed.
End JsMapFacts.

(** ** Segment builder *)

Lemma runTokens_snoc noSeparator entitySet first rest item :
  runTokens noSeparator entitySet first (rest ++ [item])
  = runTokens noSeparator entitySet first rest
    ++ separatedToken noSeparator entitySet item.
Proof.
  unfold runTokens. rewrite flat_map_app. simpl. now rewrite app_nil_r.
Qed.

Lemma holdsRun_start noSeparator entitySet read item segs :
  holdsRun noSeparator entitySet (read ++ [item])
    (mkRun (Some (Item.startTimeMs item)) (Some (Item.attendee item))
           (Some (appendChild (createElement "span")
                              (itemContentSpan entitySet item)))
           segs).
Proof.
  intros _. exists read, item, []. repeat split.
Qed.

(** One item, read in a state that describes the items read so far. *)
Lemma populateItem_step noSeparator entitySet read r item :
  holdsRun noSeparator entitySet read r ->
  exists r',
    populateItem noSeparator entitySet r item = Some r'
    /\ holdsRun noSeparator entitySet (read ++ [item]) r'
    /\ (segments r' = segments r
        \/ exists before first body,
             read = before ++ first :: body
             /\ runOpen r = true
             /\ Item.type item = PUNCTUATION
             /\ segments r' =
                segments r ++
                [segmentOfRun noSeparator entitySet first (body ++ [item])
                              (Item.endTimeMs item)]).
Proof.
  intros Hrun. unfold populateItem.
  destruct (truthy (startTimeMs r)) eqn:Hopen; simpl.
  - destruct (Hrun Hopen) as (before & first & rest & Hread & Hcs & Hat & Hst).
    rewrite Hcs, Hat, Hst.
    destruct (isPunctuation (Item.type item)) eqn:Hp.
    + eexists. split; [reflexivity|]. split.
      * intros Hopen'. discriminate Hopen'.
      * right. exists before, first, rest. repeat split; auto.
        { destruct (Item.type item); [discriminate | reflexivity]. }
        simpl. unfold segmentOfRun. rewrite runTokens_snoc.
        unfold separatedToken. rewrite Hp, orb_true_r. reflexivity.
    + eexists. split; [reflexivity|]. split; [|now left].
      intros _. exists before, first, (rest ++ [item]). simpl.
      repeat split; auto.
      * rewrite Hread, <- app_assoc. reflexivity.
      * rewrite runTokens_snoc. unfold separatedToken. rewrite Hp, orb_false_r.
        destruct noSeparator; simpl; rewrite <- ?app_assoc; reflexivity.
  - eexists. split; [reflexivity|]. split; [apply holdsRun_start | now left].
Qed.

(** The loop over the items never throws, and every segment it pushes is
    one that a punctuation item closed. *)
Lemma populateItems_runs noSeparator entitySet rest :
  forall read r,
    holdsRun noSeparator entitySet read r ->
    exists r' new,
      populateItems noSeparator entitySet r rest = Some r'
      /\ holdsRun noSeparator entitySet (read ++ rest) r'
      /\ segments r' = segments r ++ new
      /\ Forall (closedSegment noSeparator entitySet (read ++ rest)) new.
Proof.
  induction rest as [|item rest IH]; intros read r Hrun.
  - exists r, []. rewrite !app_nil_r. simpl. auto.
  - destruct (populateItem_step noSeparator entitySet read r item Hrun)
      as (r1 & Hstep & Hrun1 & Hsegs).
    destruct (IH _ _ Hrun1) as (r' & new & Hloop & Hrun' & Hsegs' & Hnew).
    simpl. rewrite Hstep.
    replace (read ++ item :: rest) with ((read ++ [item]) ++ rest)
      by (rewrite <- app_assoc; reflexivity).
    destruct Hsegs as [Hsame | (before & first & body & Hread & _ & Hp & Hpush)].
    + exists r', new. rewrite <- Hsame. auto.
    + exists r', (segmentOfRun noSeparator entitySet first (body ++ [item])
                               (Item.endTimeMs item) :: new).
      repeat split; auto.
      * rewrite Hsegs', Hpush, <- app_assoc. reflexivity.
      * constructor; auto.
        exists before, first, body, item, rest. repeat split; auto.
        rewrite Hread, <- !app_assoc. reflexivity.
Qed.

Lemma closedSegment_runSegment noSeparator entitySet items s :
  closedSegment noSeparator entitySet items s ->
  runSegment noSeparator entitySet items s.
Proof.
  intros (before & first & body & p & after & Hitems & _ & Hs).
  exists before, first, (body ++ [p]), after, (Item.endTimeMs p).
  split; auto. rewrite Hitems, <- app_assoc. reflexivity.
Qed.

(** Building the segments of a result that has a best alternative with an
    items array never throws; the segments pushed are runs of its items. *)
Lemma populate_runs noSeparator entitySet segs result alternative others items :
  Result.alternatives result = alternative :: others ->
  Alternative.items alternative = Some items ->
  exists new,
    populatePartialTranscriptSegmentsFromResult noSeparator entitySet segs result
    = Some (segs ++ new)
    /\ Forall (runSegment noSeparator entitySet items) new.
Proof.
  intros Halt Hitems.
  unfold populatePartialTranscriptSegmentsFromResult. rewrite Halt, Hitems.
  destruct (populateItems_runs noSeparator entitySet items []
              (mkRun None None None segs)) as (r & new & Hloop & Hrun & Hsegs & Hnew).
  { intros H. discriminate H. }
  rewrite Hloop. simpl in Hrun, Hsegs, Hnew.
  assert (Hnew' : Forall (runSegment noSeparator entitySet items) new).
  { eapply Forall_impl; [|exact Hnew].
    intros s. apply closedSegment_runSegment. }
  unfold closeRun. destruct (truthy (startTimeMs r)) eqn:Hopen.
  - destruct (Hrun Hopen) as (before & first & rest & Hread & Hcs & Hat & Hst).
    rewrite Hcs, Hat, Hst, Hsegs.
    exists (new ++ [segmentOfRun noSeparator entitySet first rest
                                 (Result.endTimeMs result)]).
    split; [now rewrite app_assoc|].
    apply Forall_app. split; auto. constructor; auto.
    exists before, first, rest, [], (Result.endTimeMs result).
    split; auto. now rewrite app_nil_r.
  - exists new. rewrite Hsegs. auto.
Qed.

Lemma runTokens_noSeparator entitySet first rest :
  runTokens true entitySet first rest
  = List.map (itemContentSpan entitySet) (first :: rest).
Proof.
  reflexivity.
Qed.

Lemma runTokens_separator entitySet first rest :
  runTokens false entitySet first rest
  = itemContentSpan entitySet first
    :: flat_map (fun item =>
                   if isPunctuation (Item.type item)
                   then [itemContentSpan entitySet item]
                   else [createSpaceSpan; itemContentSpan entitySet item]) rest.
Proof. reflexivity. Qed.

(** C5. The specification expects one segment "hello" from 0 to 500 for the
    result r1, whose only item starts at 0. The builder tests the start time
    of the run for truthiness, so a run that starts at 0 counts as not
    started: no segment is pushed at the end of the items. *)
Theorem build_r1_pushes_no_segment (X : Attendee) (noSeparator : bool)
    (entitySet : JsSet.t) :
  populatePartialTranscriptSegmentsFromResult noSeparator entitySet [] (r1 X)
  = Some [].
Proof. reflexivity. Qed.

(** The same result with a start time other than 0 gives the one segment
    that the specification describes. *)
Lemma build_single_word_segment (X : Attendee) (noSeparator : bool)
    (entitySet : JsSet.t) (t : Z) :
  t <> 0 ->
  populatePartialTranscriptSegmentsFromResult noSeparator entitySet []
    (partialResult "r1" [word X "hello" t 500] 500)
  = Some [Segment.mk (Elem "span" [] [itemContentSpan entitySet (word X "hello" t 500)])
                     X t 500].
Proof.
  intros Ht. unfold populatePartialTranscriptSegmentsFromResult. simpl.
  unfold closeRun. simpl.
  destruct (Z.eqb_spec t 0) as [->|_]; [congruence | reflexivity].
Qed.

(** C6. The span of an item carries the low-confidence class exactly when
    the item has a confidence, its content does not start with an opening
    bracket and the confidence is below 0.3; "[NAME]" with confidence 0 does
    not carry it, "word" with confidence 0.2 does. *)
Theorem low_confidence_flag (entitySet : JsSet.t) :
  (forall item,
     In "confidence-style" (classListOf (itemContentSpan entitySet item))
     <-> exists c,
           Item.confidence item = Some c
           /\ startsWith (Item.content item) "[" = false
           /\ PrimFloat.ltb c confidenceThreshold = true)
  /\ (forall a, ~ In "confidence-style"
                   (classListOf (itemContentSpan entitySet (redactedName a))))
  /\ (forall a, In "confidence-style"
                   (classListOf (itemContentSpan entitySet (unsureWord a)))).
Proof.
  assert (Hiff : forall item,
     In "confidence-style" (classListOf (itemContentSpan entitySet item))
     <-> lowConfidence item = true).
  { intros item. unfold itemContentSpan.
    destruct (lowConfidence item), (isEntity entitySet item); cbn;
      intuition discriminate. }
  split; [|split].
  - intros item. rewrite Hiff. unfold lowConfidence. split.
    + destruct (Item.confidence item) as [c|]; [|discriminate].
      intros H. apply andb_true_iff in H. destruct H as [Hb Hc].
      exists c. repeat split; auto. now apply negb_true_iff.
    + intros (c & Hc & Hb & Hlt). now rewrite Hc, Hb, Hlt.
  - intros a H. apply Hiff in H. discriminate H.
  - intros a. apply Hiff. reflexivity.
Qed.

(** C7. The claim fails on a run whose first item starts at 0, by the
    defect of C5. With the flag unset, the items "good" (from 0) and "morning"
    (from 100) are one run, "good", a no-break space, "morning". The builder
    opens a run at "good", takes it as not started because its start time 0 is
    falsy, and opens a run again at "morning": the one segment pushed holds
    the token "morning" alone, with no separator and without "good". *)
Theorem leading_token_at_zero_is_lost (X : Attendee) (entitySet : JsSet.t) :
  let good := word X "good" 0 100 in
  let morning := word X "morning" 100 200 in
  populatePartialTranscriptSegmentsFromResult false entitySet []
    (partialResult "r7" [good; morning] 200)
  = Some [Segment.mk (Elem "span" [] [itemContentSpan entitySet morning])
                     X 100 200]
  /\ runsOfItems false entitySet [good; morning] 200
     = [Segment.mk (Elem "span" [] [itemContentSpan entitySet good;
                                    createSpaceSpan;
                                    itemContentSpan entitySet morning])
                   X 0 200].
Proof. split; reflexivity. Qed.

(** C8. The claim fails on a run whose first item starts at 0, by the
    defect of C5. In the finalized r1 of the specification, "hello" (from 0)
    followed by "." (ending at 600), the punctuation item is read while the
    run of "hello" is open and should close it as the segment "hello." from 0
    to 600. The builder takes the run as not started, because its start time
    0 is falsy, so the punctuation item opens a run of its own instead of
    closing one: the one segment pushed, at the end of the items, holds the
    token "." alone and starts at the start time of that item. *)
Theorem punctuation_after_zero_start_opens_run (X : Attendee)
    (noSeparator : bool) (entitySet : JsSet.t) :
  let hello := word X "hello" 0 500 in
  let stop := fullStop X 500 600 in
  populatePartialTranscriptSegmentsFromResult noSeparator entitySet []
    (finalResult "r1" [hello; stop] None 600)
  = Some [Segment.mk (Elem "span" [] [itemContentSpan entitySet stop])
                     X 500 600]
  /\ runsOfItems noSeparator entitySet [hello; stop] 600
     = [Segment.mk (Elem "span" [] [itemContentSpan entitySet hello;
                                    itemContentSpan entitySet stop])
                   X 0 600].
Proof. destruct noSeparator; split; reflexivity. Qed.

(** ** Renderer *)

Lemma indexOf_bounds k l : -1 <= indexOf k l < Z.of_nat (List.length l).
Proof.
  induction l as [|y l IH]; simpl indexOf; cbn [List.length]; [lia|].
  destruct (String.eqb y k); [lia|].
  destruct (Z.ltb_spec (indexOf k l) 0); lia.
Qed.

Lemma indexOf_has {V} (m : JsMap.t V) k :
  JsMap.has k m = true -> 0 <= indexOf k (JsMap.keys m).
Proof.
  unfold JsMap.has.
  induction m as [|[k' v'] m IH]; simpl; [discriminate|].
  destruct (String.eqb k' k); [lia|].
  intros H. specialize (IH H).
  destruct (Z.ltb_spec (indexOf k (JsMap.keys m)) 0); lia.
Qed.

(** A key whose index is the last one is the key of the last entry. *)
Lemma last_index_last_entry {V} (m : JsMap.t V) k :
  JsMap.has k m = true ->
  (indexOf k (JsMap.keys m) <? Z.of_nat (List.length (JsMap.keys m)) - 1) = false ->
  exists m' v, m = m' ++ [(k, v)] /\ JsMap.get k m = Some v.
Proof.
  induction m as [|[k' v'] m IH]; [discriminate|].
  intros Hhas Hidx. pose proof (indexOf_bounds k (JsMap.keys m)) as Hb.
  change (JsMap.keys ((k', v') :: m)) with (k' :: JsMap.keys m) in Hidx.
  cbn [List.length indexOf] in Hidx. rewrite Nat2Z.inj_succ in Hidx.
  apply Z.ltb_ge in Hidx.
  unfold JsMap.has in *. cbn [JsMap.get] in *.
  destruct (String.eqb_spec k' k) as [->|Hne].
  - destruct m as [|e m]; [|cbn [JsMap.keys map List.length] in Hidx; lia].
    exists [], v'. auto.
  - pose proof (indexOf_has m k Hhas) as Hpos.
    destruct (Z.ltb_spec (indexOf k (JsMap.keys m)) 0); [lia|].
    destruct IH as (m' & v & -> & Hget); auto.
    { apply Z.ltb_ge. lia. }
    exists ((k', v') :: m'), v. auto.
Qed.

(** With one entry per key, the key of the last entry has the last index. *)
Lemma last_entry_last_index {V} (m' : JsMap.t V) k v :
  NoDup (JsMap.keys (m' ++ [(k, v)])) ->
  JsMap.get k (m' ++ [(k, v)]) = Some v
  /\ (indexOf k (JsMap.keys (m' ++ [(k, v)]))
      <? Z.of_nat (List.length (JsMap.keys (m' ++ [(k, v)]))) - 1) = false.
Proof.
  induction m' as [|[k' v'] m' IH]; intros Hnd.
  - simpl. rewrite String.eqb_refl. auto.
  - change (JsMap.keys (((k', v') :: m') ++ [(k, v)]))
      with (k' :: JsMap.keys (m' ++ [(k, v)])) in *.
    inversion Hnd as [|? ? Hnotin Hnd']; subst.
    destruct (IH Hnd') as [Hget Hidx].
    cbn [List.length indexOf app JsMap.get]. rewrite Nat2Z.inj_succ.
    destruct (String.eqb_spec k' k) as [->|Hne].
    + exfalso. apply Hnotin. unfold JsMap.keys. rewrite map_app.
      apply in_or_app. right. now left.
    + split; auto.
      assert (0 <= indexOf k (JsMap.keys (m' ++ [(k, v)]))).
      { apply indexOf_has. unfold JsMap.has. now rewrite Hget. }
      apply Z.ltb_ge in Hidx. apply Z.ltb_ge.
      destruct (Z.ltb_spec (indexOf k (JsMap.keys (m' ++ [(k, v)]))) 0); lia.
Qed.

Lemma mostRecentSpeaker_last divs (m : JsMap.t nat) k ref :
  mostRecentSpeaker (mkWalk divs (m ++ [(k, ref)])) = Some k.
Proof.
  unfold mostRecentSpeaker, JsMap.keys. simpl.
  now rewrite map_app, rev_app_distr.
Qed.

Lemma mostRecentSpeaker_inv (w : Walk) k :
  mostRecentSpeaker w = Some k ->
  exists m ref, speakerToTranscriptSpanMap w = m ++ [(k, ref)].
Proof.
  unfold mostRecentSpeaker. destruct w as [divs m]. simpl.
  destruct m as [|e m] using rev_ind; simpl; [discriminate|].
  unfold JsMap.keys. rewrite map_app, rev_app_distr. simpl.
  destruct e as [k' ref]. simpl. intros H. injection H as ->. eauto.
Qed.

Lemma length_updateAt {A} (f : A -> A) (l : list A) :
  forall i, List.length (updateAt i f l) = List.length l.
Proof.
  induction l as [|x l IH]; intros [|i]; simpl; auto.
Qed.

Lemma updateAt_last {A} (f : A -> A) (l : list A) (x : A) :
  updateAt (List.length l) f (l ++ [x]) = l ++ [f x].
Proof.
  induction l as [|y l IH]; simpl; congruence.
Qed.

Lemma updateAt_twice {A} (a b : A) (l : list A) :
  forall i,
    updateAt i (fun _ => a) (updateAt i (fun _ => b) l) = updateAt i (fun _ => a) l.
Proof.
  induction l as [|x l IH]; intros [|i]; simpl; auto.
  now rewrite IH.
Qed.

Lemma appendNew_spec (segment : Segment.t) divs (m : JsMap.t nat) :
  JsMap.get (attendeeId (Segment.attendee segment)) m = None ->
  appendNewSpeakerTranscriptDiv segment (mkWalk divs m)
  = mkWalk (divs ++ [newSpeakerTranscript segment])
           (m ++ [(attendeeId (Segment.attendee segment), List.length divs)]).
Proof.
  intros H. unfold appendNewSpeakerTranscriptDiv. simpl.
  now rewrite keys_set_absent.
Qed.

Lemma appendNew_invariant (segment : Segment.t) divs (m : JsMap.t nat) :
  NoDup (JsMap.keys m) ->
  JsMap.get (attendeeId (Segment.attendee segment)) m = None ->
  walkInvariant (appendNewSpeakerTranscriptDiv segment (mkWalk divs m)).
Proof.
  intros Hnd Hget. split.
  - simpl. now apply NoDup_keys_set.
  - rewrite appendNew_spec by assumption. simpl. intros m0 k ref Heq.
    apply app_inj_tail in Heq. destruct Heq as [_ Heq]. injection Heq as _ <-.
    rewrite length_app. simpl. lia.
Qed.

(** Each step of the walk keeps the invariant and leaves the speaker of the
    segment as the most recent one. *)
Lemma renderSegment_invariant (w : Walk) (segment : Segment.t) :
  walkInvariant w ->
  walkInvariant (renderSegment w segment)
  /\ mostRecentSpeaker (renderSegment w segment)
     = Some (attendeeId (Segment.attendee segment)).
Proof.
  intros [Hnd Hlast]. destruct w as [divs m]. simpl in *.
  unfold renderSegment. simpl.
  set (id := attendeeId (Segment.attendee segment)).
  destruct (JsMap.has id m) eqn:Hhas; simpl.
  - destruct (indexOf id (JsMap.keys m) <? Z.of_nat (List.length (JsMap.keys m)) - 1)
      eqn:Hidx.
    + split.
      * apply appendNew_invariant; [now apply NoDup_keys_delete|].
        apply get_delete_same.
      * rewrite appendNew_spec by apply get_delete_same.
        apply mostRecentSpeaker_last.
    + destruct (last_index_last_entry m id Hhas Hidx) as (m' & ref & -> & Hget).
      rewrite Hget. split.
      * split; auto. simpl. intros m0 k ref0 Heq.
        rewrite length_updateAt. eapply Hlast; eauto.
      * apply mostRecentSpeaker_last.
  - unfold JsMap.has in Hhas.
    destruct (JsMap.get id m) eqn:Hget; [discriminate|].
    split.
    + now apply appendNew_invariant.
    + rewrite appendNew_spec by assumption. apply mostRecentSpeaker_last.
Qed.

Lemma fold_renderSegment_invariant segs :
  forall w, walkInvariant w -> walkInvariant (fold_left renderSegment segs w).
Proof.
  induction segs as [|s segs IH]; simpl; intros w Hw; auto.
  apply IH. now apply renderSegment_invariant.
Qed.

Lemma renderSegments_invariant segs : walkInvariant (renderSegments segs).
Proof.
  apply fold_renderSegment_invariant. split; simpl.
  - constructor.
  - intros [|e m] k ref H; discriminate H.
Qed.

Lemma renderSegments_snoc segs s :
  renderSegments (segs ++ [s]) = renderSegment (renderSegments segs) s.
Proof. unfold renderSegments. now rewrite fold_left_app. Qed.

(** C9. A segment whose attendee is the one of the segment walked just
    before it is merged into the span of the block appended last, after a
    no-break space; a segment whose attendee has an open span but is not the
    speaker whose span was opened last makes the walk forget that span and
    append a new speaker block. *)
Theorem speaker_continuity (segs : list Segment.t) (s : Segment.t) :
  let w := renderSegments segs in
  let id := attendeeId (Segment.attendee s) in
  (forall before s1,
     segs = before ++ [s1] ->
     attendeeId (Segment.attendee s1) = id ->
     exists divs b,
       speakerDivs w = divs ++ [b]
       /\ speakerDivs (renderSegment w s) = divs ++ [mergedInto b s]
       /\ speakerToTranscriptSpanMap (renderSegment w s)
          = speakerToTranscriptSpanMap w)
  /\ (JsMap.has id (speakerToTranscriptSpanMap w) = true ->
      mostRecentSpeaker w <> Some id ->
      speakerDivs (renderSegment w s) = speakerDivs w ++ [newSpeakerTranscript s]
      /\ speakerToTranscriptSpanMap (renderSegment w s)
         = JsMap.delete id (speakerToTranscriptSpanMap w)
           ++ [(id, List.length (speakerDivs w))]).
Proof.
  intros w id. split.
  - intros before s1 Hsegs Hsame.
    assert (Hrecent : mostRecentSpeaker w = Some id).
    { unfold w. rewrite Hsegs, renderSegments_snoc, <- Hsame.
      apply renderSegment_invariant, renderSegments_invariant. }
    destruct (renderSegments_invariant segs) as [Hnd Hlast]. fold w in Hnd, Hlast.
    destruct (mostRecentSpeaker_inv w id Hrecent) as (m & ref & Hm).
    specialize (Hlast m id ref Hm).
    rewrite Hm in Hnd. destruct (last_entry_last_index m id ref Hnd) as [Hget Hidx].
    destruct (speakerDivs w) as [|b0 divs0] eqn:Hdivs using rev_ind;
      [discriminate Hlast|].
    rewrite length_app in Hlast. simpl in Hlast.
    assert (ref = List.length divs0) by lia. subst ref.
    exists divs0, b0. split; auto.
    unfold renderSegment. fold id. unfold JsMap.has.
    rewrite Hm, Hget, Hidx. simpl. rewrite Hdivs, updateAt_last. auto.
  - intros Hhas Hnot.
    unfold renderSegment. fold id. rewrite Hhas. simpl.
    destruct (indexOf id (JsMap.keys (speakerToTranscriptSpanMap w))
              <? Z.of_nat (List.length (JsMap.keys (speakerToTranscriptSpanMap w))) - 1)
      eqn:Hidx.
    + rewrite appendNew_spec by apply get_delete_same. auto.
    + exfalso. apply Hnot.
      destruct (last_index_last_entry _ id Hhas Hidx) as (m' & ref & Hm & _).
      destruct w as [divs m]. simpl in Hm. subst m.
      apply mostRecentSpeaker_last.
Qed.

Lemma speaker_continuity_witness :
  let seg := fun a text t =>
    Segment.mk (appendChild (createElement "span") (itemContentSpan [] (word a text t (t + 50))))
               a t (t + 50) in
  let a1 := seg alice "hello" 100 in
  let b1 := seg bob "yes" 200 in
  let a2 := seg alice "there" 300 in
  List.length (speakerDivs (renderSegments [a1; a2])) = 1%nat
  /\ JsMap.has "attendee-a" (speakerToTranscriptSpanMap (renderSegments [a1; b1])) = true
  /\ mostRecentSpeaker (renderSegments [a1; b1]) <> Some "attendee-a"
  /\ List.length (speakerDivs (renderSegments [a1; b1; a2])) = 3%nat.
Proof.
  intros seg a1 b1 a2.
  assert (Hnot : mostRecentSpeaker (renderSegments [a1; b1]) <> Some "attendee-a").
  { intros H. vm_compute in H. discriminate H. }
  split; [|split; [reflexivity | split; [exact Hnot|]]].
  - destruct (speaker_continuity [a1] a2) as [Hmerge _].
    destruct (Hmerge [] a1 eq_refl eq_refl) as (divs & b & Hdivs & Hstep & _).
    change (renderSegments [a1; a2])
      with (renderSegment (renderSegments [a1]) a2).
    rewrite Hstep. apply (f_equal (@List.length _)) in Hdivs.
    rewrite length_app in *. simpl in *. lia.
  - destruct (speaker_continuity [a1; b1] a2) as [_ Hbreak].
    destruct (Hbreak eq_refl Hnot) as [Hstep _].
    change (renderSegments [a1; b1; a2])
      with (renderSegment (renderSegments [a1; b1]) a2).
    rewrite Hstep. reflexivity.
Defined.

(** ** Rendering passes *)

Lemma update_frame (app : App) :
  let a := stateOf (updatePartialTranscriptDiv app) in
  enableLiveTranscription a = enableLiveTranscription app
  /\ noWordSeparatorForTranscription a = noWordSeparatorForTranscription app
  /\ transcriptContainerDiv a = transcriptContainerDiv app
  /\ partialTranscriptDiv a = partialTranscriptDiv app
  /\ partialTranscriptResultTimeMap a = partialTranscriptResultTimeMap app
  /\ partialTranscriptResultMap a = partialTranscriptResultMap app
  /\ transcriptEntitySet a = transcriptEntitySet app.
Proof.
  unfold updatePartialTranscriptDiv.
  destruct (partialTranscriptDiv app) eqn:Hdiv; simpl; [|now rewrite Hdiv].
  destruct (renderedSpeakerDivs _ _ _); simpl; now rewrite Hdiv.
Qed.

Lemma render_frame (app : App) :
  let a := stateOf (renderPartialTranscriptResults app) in
  enableLiveTranscription a = enableLiveTranscription app
  /\ noWordSeparatorForTranscription a = noWordSeparatorForTranscription app
  /\ partialTranscriptResultTimeMap a = partialTranscriptResultTimeMap app
  /\ partialTranscriptResultMap a = partialTranscriptResultMap app
  /\ transcriptEntitySet a = transcriptEntitySet app.
Proof.
  unfold renderPartialTranscriptResults.
  destruct (partialTranscriptDiv app) eqn:Hdiv.
  - pose proof (update_frame app). simpl in *. tauto.
  - match goal with |- context [updatePartialTranscriptDiv ?x] =>
      pose proof (update_frame x) as H;
      destruct (updatePartialTranscriptDiv x) end;
    simpl in *; tauto.
Qed.

(** A pass that completes leaves a rendered state. *)
Lemma update_rendered (app app1 : App) :
  updatePartialTranscriptDiv app = Normal app1 -> rendered app1.
Proof.
  unfold updatePartialTranscriptDiv, rendered.
  destruct (partialTranscriptDiv app) as [ref|] eqn:Hdiv; [|discriminate].
  simpl. destruct (renderedSpeakerDivs _ _ _) as [divs|] eqn:Hr; [|discriminate].
  intros H. injection H as <-. simpl.
  exists ref, divs, (updateAt ref (fun _ => []) (divStore app)). auto.
Qed.

Lemma render_rendered (app app1 : App) :
  renderPartialTranscriptResults app = Normal app1 -> rendered app1.
Proof.
  unfold renderPartialTranscriptResults.
  destruct (partialTranscriptDiv app) eqn:Hdiv.
  - apply update_rendered.
  - destruct (updatePartialTranscriptDiv _) as [app2|app2] eqn:Hu; [|discriminate].
    intros H. injection H as <-.
    destruct (update_rendered _ _ Hu) as (ref & divs & store & H1 & H2 & H3).
    exists ref, divs, store. simpl. auto.
Qed.

(** A pass over a rendered state changes nothing. *)
Lemma update_stable (app : App) :
  rendered app -> updatePartialTranscriptDiv app = Normal app.
Proof.
  intros (ref & divs & store & Hdiv & Hr & Hstore).
  unfold updatePartialTranscriptDiv. rewrite Hdiv. simpl. rewrite Hr.
  f_equal. unfold_setters. simpl.
  rewrite Hstore, !updateAt_twice, <- Hstore.
  destruct app; reflexivity.
Qed.

(** C10, as the code has it. A pass of the renderer has completed, and
    since then the current block, the result map, the entity set and the
    separator flag have stayed as the pass left them. Storing again a result
    that the two maps hold (same resultId, same object, same end time) then
    changes neither map, and the pass that follows leaves the rendered
    block, and the whole state, as it was: its segment list is the one of the
    earlier pass. *)
Theorem reupsert_renders_the_same (app app1 app2 : App) (result : Result.t) :
  renderPartialTranscriptResults app = Normal app1 ->
  partialTranscriptDiv app2 = partialTranscriptDiv app1 ->
  divStore app2 = divStore app1 ->
  partialTranscriptResultMap app2 = partialTranscriptResultMap app1 ->
  transcriptEntitySet app2 = transcriptEntitySet app1 ->
  noWordSeparatorForTranscription app2 = noWordSeparatorForTranscription app1 ->
  JsMap.get (Result.resultId result) (partialTranscriptResultMap app2)
  = Some result ->
  JsMap.get (Result.resultId result) (partialTranscriptResultTimeMap app2)
  = Some (Result.endTimeMs result) ->
  upsertResult result app2 = app2
  /\ renderPartialTranscriptResults (upsertResult result app2) = Normal app2
  /\ renderedSpeakerDivs (noWordSeparatorForTranscription app2)
       (transcriptEntitySet app2)
       (partialTranscriptResultMap (upsertResult result app2))
     = renderedSpeakerDivs (noWordSeparatorForTranscription app1)
         (transcriptEntitySet app1) (partialTranscriptResultMap app1).
Proof.
  intros Hpass Hdiv2 Hstore2 Hrm2 Hes2 Hflag2 Hres Htime.
  assert (Hsame : upsertResult result app2 = app2).
  { unfold_setters. rewrite (set_get_id _ _ _ Hres), (set_get_id _ _ _ Htime).
    destruct app2; reflexivity. }
  rewrite Hsame. split; [reflexivity|]. split; [|now rewrite Hrm2, Hes2, Hflag2].
  pose proof (render_rendered _ _ Hpass) as Hrendered.
  unfold renderPartialTranscriptResults.
  destruct Hrendered as (ref & divs & store & Hdiv & Hr & Hst).
  rewrite Hdiv2, Hdiv. apply update_stable. exists ref, divs, store.
  rewrite Hdiv2, Hstore2, Hrm2, Hes2, Hflag2. auto.
Qed.

Lemma reupsert_renders_the_same_witness :
  let r := partialResult "r1" [word alice "hello" 100 500] 500 in
  exists app1,
    renderPartialTranscriptResults (upsertResult r initialApp) = Normal app1
    /\ JsMap.get "r1" (partialTranscriptResultMap app1) = Some r
    /\ JsMap.get "r1" (partialTranscriptResultTimeMap app1) = Some 500
    /\ renderPartialTranscriptResults (upsertResult r app1) = Normal app1.
Proof.
  intros r. eexists. split; [reflexivity|].
  split; [reflexivity|]. split; [reflexivity|].
  match goal with |- renderPartialTranscriptResults (upsertResult r ?a) = _ =>
    exact (proj1 (proj2 (reupsert_renders_the_same
                           (upsertResult r initialApp) a a r
                           eq_refl eq_refl eq_refl eq_refl eq_refl eq_refl
                           eq_refl eq_refl)))
  end.
Defined.

(** C10 as stated fails. A batch holds the partial result "p" and a
    finalized result "f" whose entity is "John": the pass made for "f"
    renders the token "John" with the entity class, and the entity set is
    cleared when "f" has been processed. "p" is still tracked, so "f" stays
    in the result map. When "p" is delivered again, the same object, the two
    maps stay as they are and the call completes, yet the block is rendered
    anew without the entity class. In the same way, once a STARTED status in
    ja-JP has set the separator flag, delivering again the stored "good
    morning" renders it without the no-break space. *)
Lemma reupsert_after_entity_set_cleared :
  let P := partialResult "p" [word alice "hello" 100 500] 500 in
  let F := finalResult "f" [word bob "John" 600 700; fullStop bob 700 710]
                       (Some [Entity.mk "John"]) 710 in
  let G := partialResult "g" [word alice "good" 100 200;
                              word alice "morning" 200 300] 300 in
  let started :=
    Status.mk STARTED 1000 "us-east-1"
      (Configuration (Some (mkEngineSettings (Some "ja-JP"))) None) None in
  (exists app app',
     transcriptEventHandler initialApp (Transcript [P; F]) = Normal app
     /\ JsMap.get "p" (partialTranscriptResultMap app) = Some P
     /\ JsMap.get "p" (partialTranscriptResultTimeMap app) = Some 500
     /\ upsertResult P app = app
     /\ transcriptEventHandler app (Transcript [P]) = Normal app'
     /\ partialTranscriptResultMap app' = partialTranscriptResultMap app
     /\ partialTranscriptResultTimeMap app' = partialTranscriptResultTimeMap app
     /\ List.map (List.map (fun block => flat_map classListOf
                                           (flat_map childNodes (childNodes block))))
                 (divStore app)
        = [[["transcript-content"];
            ["transcript-content"; "entity-color"; "transcript-content"]]]
     /\ List.map (List.map (fun block => flat_map classListOf
                                           (flat_map childNodes (childNodes block))))
                 (divStore app')
        = [[["transcript-content"];
            ["transcript-content"; "transcript-content"]]])
  /\ (exists app app',
        deliverAll initialApp [Transcript [G]; TranscriptionStatus started]
        = Some app
        /\ JsMap.get "g" (partialTranscriptResultMap app) = Some G
        /\ JsMap.get "g" (partialTranscriptResultTimeMap app) = Some 300
        /\ transcriptEventHandler app (Transcript [G]) = Normal app'
        /\ List.map (List.map textContent) (divStore app)
           = [[("Alice: good" ++ nbsp ++ "morning")%string]]
        /\ List.map (List.map textContent) (divStore app')
           = [["Alice: goodmorning"]]).
Proof.
  intros P F G started. split.
  - eexists. eexists. split; [vm_compute; reflexivity|].
    repeat (split; [vm_compute; reflexivity|]). vm_compute; reflexivity.
  - eexists. eexists. split; [vm_compute; reflexivity|].
    repeat (split; [vm_compute; reflexivity|]). vm_compute; reflexivity.
Qed.

(** ** The loop over the results of a batch *)

Lemma finalizeResult_fields (result : Result.t) (app : App) :
  let timeMap :=
    JsMap.delete (Result.resultId result)
      (evictOlder (Result.resultId result) (Result.endTimeMs result)
                  (partialTranscriptResultTimeMap app)
                  (partialTranscriptResultTimeMap app)) in
  let app' := finalizeResult result app in
  partialTranscriptResultTimeMap app' = timeMap
  /\ partialTranscriptResultMap app'
     = (if Nat.eqb (JsMap.size timeMap) 0 then []
        else partialTranscriptResultMap app)
  /\ partialTranscriptDiv app'
     = (if Nat.eqb (JsMap.size timeMap) 0 then None
        else partialTranscriptDiv app)
  /\ transcriptEntitySet app' = []
  /\ transcriptContainerDiv app' = transcriptContainerDiv app
  /\ noWordSeparatorForTranscription app' = noWordSeparatorForTranscription app
  /\ enableLiveTranscription app' = enableLiveTranscription app
  /\ divStore app' = divStore app.
Proof.
  unfold finalizeResult. simpl.
  destruct (Nat.eqb _ 0); simpl; repeat split.
Qed.

(** What a completed iteration of the loop did. *)
Lemma processResult_Normal (app app' : App) (result : Result.t) :
  processResult app result = Normal app' ->
  exists entitySet app3,
    extractEntities result (transcriptEntitySet app) = Some entitySet
    /\ renderPartialTranscriptResults
         (upsertResult result
            (set_transcriptEntitySet entitySet
               (if isNoWordSeparatorLanguage (Result.languageCode result)
                then set_noWordSeparatorForTranscription true app else app)))
       = Normal app3
    /\ partialTranscriptResultTimeMap app3
       = JsMap.set (Result.resultId result) (Result.endTimeMs result)
                   (partialTranscriptResultTimeMap app)
    /\ partialTranscriptResultMap app3
       = JsMap.set (Result.resultId result) result (partialTranscriptResultMap app)
    /\ transcriptEntitySet app3 = entitySet
    /\ app' = (if Result.isPartial result then app3
               else finalizeResult result app3).
Proof.
  unfold processResult.
  assert (Hes : transcriptEntitySet
                  (if isNoWordSeparatorLanguage (Result.languageCode result)
                   then set_noWordSeparatorForTranscription true app else app)
                = transcriptEntitySet app)
    by (destruct (isNoWordSeparatorLanguage _); reflexivity).
  rewrite Hes.
  destruct (extractEntities result (transcriptEntitySet app)) as [entitySet|];
    [|discriminate].
  match goal with |- context [renderPartialTranscriptResults ?x] =>
    pose proof (render_frame x) as Hframe;
    destruct (renderPartialTranscriptResults x) as [app3|app3] eqn:Hr end;
    [|discriminate].
  intros H. exists entitySet, app3. split; auto. split; auto.
  simpl in Hframe. destruct Hframe as (_ & _ & Htm & Hrm & Hset).
  rewrite Htm, Hrm, Hset.
  destruct (isNoWordSeparatorLanguage _); simpl;
    (repeat split; destruct (Result.isPartial result); congruence).
Qed.

Lemma extractEntities_partial (result : Result.t) (s s' : JsSet.t) :
  Result.isPartial result = true ->
  extractEntities result s = Some s' -> s' = s.
Proof.
  unfold extractEntities. intros ->. simpl. congruence.
Qed.

(** ** Eviction *)

Lemma get_evictOlder resultId resultEndTimeMs k entries :
  forall timeMap,
    JsMap.get k (evictOlder resultId resultEndTimeMs entries timeMap)
    = if evictedBefore resultId (resultEndTimeMs - 5000) entries k
      then None else JsMap.get k timeMap.
Proof.
  induction entries as [|[k' t] entries IH]; intros timeMap; simpl; auto.
  destruct (String.eqb k' resultId); auto.
  destruct (t <? resultEndTimeMs - 5000); rewrite IH;
    destruct (String.eqb_spec k' k) as [->|Hne]; simpl; auto.
  - rewrite get_delete_same. now destruct (evictedBefore _ _ _ _).
  - now rewrite get_delete_other.
Qed.

Lemma evictedBefore_absent resultId limit entries k :
  ~ In k (JsMap.keys entries) -> evictedBefore resultId limit entries k = false.
Proof.
  induction entries as [|[k' t] entries IH]; simpl; auto.
  intros H. destruct (String.eqb k' resultId); auto.
  destruct (String.eqb_spec k' k) as [->|Hne]; [tauto|].
  apply IH. tauto.
Qed.

(** With one entry per key, a key is evicted exactly when it was inserted
    before the finalized result and its end time is below the limit. *)
Lemma evictedBefore_spec resultId limit entries k t :
  NoDup (JsMap.keys entries) ->
  JsMap.get k entries = Some t ->
  evictedBefore resultId limit entries k
  = insertedBefore k resultId (JsMap.keys entries) && (t <? limit).
Proof.
  induction entries as [|[k' t'] entries IH]; simpl; [discriminate|].
  intros Hnd Hget. inversion Hnd as [|? ? Hnotin Hnd']; subst.
  destruct (String.eqb k' resultId); auto.
  destruct (String.eqb_spec k' k) as [->|Hne]; auto.
  injection Hget as ->. rewrite evictedBefore_absent by assumption.
  now rewrite orb_false_r.
Qed.

Lemma insertedBefore_snoc k resultId keys :
  insertedBefore k resultId (keys ++ [resultId]) = insertedBefore k resultId keys.
Proof.
  induction keys as [|k' keys IH]; simpl.
  - now rewrite String.eqb_refl.
  - now rewrite IH.
Qed.

Lemma insertedBefore_set (timeMap : JsMap.t Z) k resultId t :
  insertedBefore k resultId (JsMap.keys (JsMap.set resultId t timeMap))
  = insertedBefore k resultId (JsMap.keys timeMap).
Proof.
  destruct (JsMap.get resultId timeMap) eqn:E.
  - rewrite keys_set_present; congruence.
  - rewrite keys_set_absent by assumption.
    unfold JsMap.keys. rewrite map_app. apply insertedBefore_snoc.
Qed.

Lemma evictOlder_NoDup resultId resultEndTimeMs entries :
  forall timeMap,
    NoDup (JsMap.keys timeMap) ->
    NoDup (JsMap.keys (evictOlder resultId resultEndTimeMs entries timeMap)).
Proof.
  induction entries as [|[k t] entries IH]; intros timeMap Hnd; simpl; auto.
  destruct (String.eqb k resultId); auto.
  destruct (t <? resultEndTimeMs - 5000); auto using NoDup_keys_delete.
Qed.

(** The time map keeps one entry per key, whether a call completes or
    throws. *)
Lemma processResult_NoDup (app : App) (result : Result.t) :
  NoDup (JsMap.keys (partialTranscriptResultTimeMap app)) ->
  NoDup (JsMap.keys (partialTranscriptResultTimeMap
                       (stateOf (processResult app result)))).
Proof.
  intros Hnd. unfold processResult.
  assert (Hnd1 : NoDup (JsMap.keys (partialTranscriptResultTimeMap
                  (if isNoWordSeparatorLanguage (Result.languageCode result)
                   then set_noWordSeparatorForTranscription true app else app))))
    by (destruct (isNoWordSeparatorLanguage _); exact Hnd).
  destruct (extractEntities _ _) as [entitySet|]; [|exact Hnd1].
  match goal with |- context [renderPartialTranscriptResults ?y] =>
    set (x := y) in * end.
  assert (Hx : NoDup (JsMap.keys (partialTranscriptResultTimeMap x)))
    by (unfold x; simpl; now apply NoDup_keys_set).
  pose proof (render_frame x) as Hframe. cbv zeta in Hframe.
  destruct Hframe as (_ & _ & Htm & _). clearbody x.
  destruct (renderPartialTranscriptResults x) as [app3|app3];
    simpl in Htm |- *; rewrite <- Htm in Hx; [|exact Hx].
  destruct (Result.isPartial result); [exact Hx|]. simpl.
  destruct (finalizeResult_fields result app3) as (-> & _).
  now apply NoDup_keys_delete, evictOlder_NoDup.
Qed.

Lemma processResults_NoDup (results : list Result.t) :
  forall app,
    NoDup (JsMap.keys (partialTranscriptResultTimeMap app)) ->
    NoDup (JsMap.keys (partialTranscriptResultTimeMap
                         (stateOf (processResults app results)))).
Proof.
  induction results as [|result results IH]; simpl; intros app Hnd; auto.
  pose proof (processResult_NoDup app result Hnd) as H.
  destruct (processResult app result); auto.
Qed.

Lemma handler_NoDup (app : App) (event : TranscriptEvent) :
  NoDup (JsMap.keys (partialTranscriptResultTimeMap app)) ->
  NoDup (JsMap.keys (partialTranscriptResultTimeMap
                       (stateOf (transcriptEventHandler app event)))).
Proof.
  intros Hnd. unfold transcriptEventHandler.
  set (app1 := if negb (enableLiveTranscription app)
               then set_enableLiveTranscription true app else app).
  assert (Hnd1 : NoDup (JsMap.keys (partialTranscriptResultTimeMap app1)))
    by (unfold app1; destruct (negb _); exact Hnd).
  clearbody app1. destruct event as [status|results].
  - destruct (Status.type status).
    + destruct (configuredLanguageCode _); [|exact Hnd1].
      destruct (isNoWordSeparatorLanguage _); exact Hnd1.
    + destruct (enableLiveTranscription _); [constructor | exact Hnd1].
    + destruct (enableLiveTranscription _); [constructor | exact Hnd1].
  - now apply processResults_NoDup.
Qed.

Lemma deliver_NoDup (events : list TranscriptEvent) :
  forall app,
    NoDup (JsMap.keys (partialTranscriptResultTimeMap app)) ->
    NoDup (JsMap.keys (partialTranscriptResultTimeMap (deliver app events))).
Proof.
  induction events as [|e events IH]; simpl; intros app Hnd; auto.
  apply IH. now apply handler_NoDup.
Qed.

(** C2, as the code has it, for end times that are safe integers, so that
    R.endTimeMs - 5000 is computed without rounding. When a finalized result
    R has been processed, a tracked key K other than R's is no longer in the
    time map exactly when it was inserted before R's key and its recorded end
    time is strictly less than R.endTimeMs - 5000; the loop stops at R's key,
    so a key inserted after it is not compared and stays tracked. *)
Theorem eviction_of_older_results (app app' : App) (R : Result.t)
    (K : string) (t : Z) :
  NoDup (JsMap.keys (partialTranscriptResultTimeMap app)) ->
  Result.isPartial R = false ->
  processResult app R = Normal app' ->
  K <> Result.resultId R ->
  JsMap.get K (partialTranscriptResultTimeMap app) = Some t ->
  isSafeInteger t ->
  isSafeInteger (Result.endTimeMs R) ->
  isSafeInteger (Result.endTimeMs R - 5000) ->
  JsMap.get K (partialTranscriptResultTimeMap app')
  = if insertedBefore K (Result.resultId R)
         (JsMap.keys (partialTranscriptResultTimeMap app))
       && (t <? Result.endTimeMs R - 5000)
    then None else Some t.
Proof.
  intros Hnd Hfinal Hproc Hne Hget _ _ _.
  destruct (processResult_Normal _ _ _ Hproc)
    as (entitySet & app3 & _ & _ & Htm & _ & _ & ->).
  rewrite Hfinal.
  destruct (finalizeResult_fields R app3) as (-> & _).
  rewrite get_delete_other by congruence.
  rewrite get_evictOlder, Htm.
  assert (Hget' : JsMap.get K (JsMap.set (Result.resultId R) (Result.endTimeMs R)
                                 (partialTranscriptResultTimeMap app)) = Some t)
    by (rewrite get_set_other; congruence).
  rewrite (evictedBefore_spec _ _ _ _ t) by (auto using NoDup_keys_set).
  now rewrite insertedBefore_set, Hget'.
Qed.

Lemma eviction_of_older_results_witness :
  let stale := partialResult "k" [word alice "um" 100 200] 200 in
  let recent := partialResult "n" [word alice "so" 9000 9100] 9100 in
  let R := finalResult "r" [word bob "done" 9500 10000] None 10000 in
  exists app app',
    transcriptEventHandler initialApp (Transcript [stale; recent]) = Normal app
    /\ NoDup (JsMap.keys (partialTranscriptResultTimeMap app))
    /\ processResult app R = Normal app'
    /\ isSafeInteger 200 /\ isSafeInteger 9100
    /\ isSafeInteger (Result.endTimeMs R)
    /\ isSafeInteger (Result.endTimeMs R - 5000)
    /\ JsMap.get "k" (partialTranscriptResultTimeMap app') = None
    /\ JsMap.get "n" (partialTranscriptResultTimeMap app') = Some 9100.
Proof.
  intros stale recent R.
  assert (Hnd : NoDup ["k"; "n"]).
  { repeat constructor; simpl; intuition discriminate. }
  assert (Hk : isSafeInteger 200) by (vm_compute; split; discriminate).
  assert (Hn : isSafeInteger 9100) by (vm_compute; split; discriminate).
  assert (HR : isSafeInteger (Result.endTimeMs R))
    by (vm_compute; split; discriminate).
  assert (HR' : isSafeInteger (Result.endTimeMs R - 5000))
    by (vm_compute; split; discriminate).
  eexists. eexists.
  split; [vm_compute; reflexivity|].
  split; [exact Hnd|].
  match goal with |- processResult ?a _ = Normal ?b /\ _ =>
    assert (Hproc : processResult a R = Normal b) by (vm_compute; reflexivity)
  end.
  split; [exact Hproc|].
  split; [exact Hk|]. split; [exact Hn|].
  split; [exact HR|]. split; [exact HR'|].
  split.
  - match type of Hproc with processResult ?a _ = Normal ?b =>
      exact (eviction_of_older_results a b R "k" 200 Hnd eq_refl Hproc
               ltac:(discriminate) eq_refl Hk HR HR') end.
  - match type of Hproc with processResult ?a _ = Normal ?b =>
      exact (eviction_of_older_results a b R "n" 9100 Hnd eq_refl Hproc
               ltac:(discriminate) eq_refl Hn HR HR') end.
Defined.

(** C2 as stated fails: the key "k" was inserted after the key "r"; when
    "r" is finalized with end time 10000, "k", recorded at 200, is older than
    the limit 5000 and yet stays tracked. *)
Lemma later_key_is_not_evicted :
  let R0 := partialResult "r" [word bob "well" 100 150] 150 in
  let stale := partialResult "k" [word alice "um" 100 200] 200 in
  let R := finalResult "r" [word bob "well" 100 150; word bob "done" 9500 10000]
                       None 10000 in
  exists app app',
    transcriptEventHandler initialApp (Transcript [R0; stale]) = Normal app
    /\ JsMap.get "k" (partialTranscriptResultTimeMap app) = Some 200
    /\ 200 < Result.endTimeMs R - 5000
    /\ transcriptEventHandler app (Transcript [R]) = Normal app'
    /\ JsMap.get "k" (partialTranscriptResultTimeMap app') = Some 200
    /\ existsb (fun r => String.eqb (Result.resultId r) "k")
               (JsMap.values (partialTranscriptResultMap app')) = true.
Proof.
  intros R0 stale R. eexists. eexists.
  split; [vm_compute; reflexivity|]. split; [reflexivity|].
  split; [reflexivity|]. split; [vm_compute; reflexivity|].
  split; reflexivity.
Qed.

(** ** The store *)

Lemma size_zero_nil {V} (m : JsMap.t V) :
  Nat.eqb (JsMap.size m) 0 = true <-> m = [].
Proof.
  destruct m; simpl; split; intros H; auto; discriminate.
Qed.

Lemma set_not_nil {V} (m : JsMap.t V) k v : JsMap.set k v m <> [].
Proof.
  destruct m as [|[k' v'] m]; simpl; [discriminate|].
  destruct (String.eqb k' k); discriminate.
Qed.

Lemma processResult_store (app app' : App) (result : Result.t) :
  trackedArePartial app ->
  processResult app result = Normal app' ->
  trackedArePartial app' /\ emptiedTogether app'.
Proof.
  intros Hinv Hproc.
  destruct (processResult_Normal _ _ _ Hproc)
    as (entitySet & app3 & _ & _ & Htm & Hrm & _ & ->).
  assert (Hinv3 : trackedArePartial app3 \/ Result.isPartial result = false).
  { destruct (Result.isPartial result) eqn:Hp; [left | now right].
    intros k t. rewrite Htm, Hrm.
    destruct (String.eqb_spec (Result.resultId result) k) as [<-|Hne].
    - rewrite !get_set_same. intros H. injection H as <-. eauto.
    - rewrite !get_set_other by assumption. apply Hinv. }
  destruct (Result.isPartial result) eqn:Hp.
  - destruct Hinv3 as [Hinv3|]; [|discriminate]. split; auto.
    intros H. rewrite Htm in H. now apply set_not_nil in H.
  - destruct (finalizeResult_fields result app3) as (Htm' & Hrm' & _).
    simpl in Htm', Hrm'. split.
    + intros k t. rewrite Htm', Hrm'.
      destruct (Nat.eqb _ 0) eqn:Hsize.
      { apply size_zero_nil in Hsize. rewrite Hsize. discriminate. }
      destruct (String.eqb_spec (Result.resultId result) k) as [<-|Hne];
        [now rewrite get_delete_same|].
      rewrite get_delete_other, get_evictOlder by assumption.
      destruct (evictedBefore _ _ _ _); [discriminate|].
      rewrite Htm, Hrm, !get_set_other by assumption. apply Hinv.
    + intros H. rewrite Hrm'. rewrite Htm' in H.
      apply size_zero_nil in H. now rewrite H.
Qed.

Lemma processResults_store (results : list Result.t) :
  forall app app',
    trackedArePartial app -> emptiedTogether app ->
    processResults app results = Normal app' ->
    trackedArePartial app' /\ emptiedTogether app'.
Proof.
  induction results as [|result results IH]; simpl; intros app app' H1 H2 Hrun.
  - injection Hrun as <-. auto.
  - destruct (processResult app result) as [app1|] eqn:Hproc; [|discriminate].
    destruct (processResult_store _ _ _ H1 Hproc). eauto.
Qed.

Lemma handler_store (app app' : App) (event : TranscriptEvent) :
  trackedArePartial app -> emptiedTogether app ->
  transcriptEventHandler app event = Normal app' ->
  trackedArePartial app' /\ emptiedTogether app'.
Proof.
  intros H1 H2. unfold transcriptEventHandler.
  set (app1 := if negb (enableLiveTranscription app)
               then set_enableLiveTranscription true app else app).
  assert (H1' : trackedArePartial app1)
    by (unfold app1; destruct (negb _); exact H1).
  assert (H2' : emptiedTogether app1)
    by (unfold app1; destruct (negb _); exact H2).
  clearbody app1. destruct event as [status|results].
  - destruct (Status.type status).
    + destruct (configuredLanguageCode _); [|discriminate].
      destruct (isNoWordSeparatorLanguage _); intros H; injection H as <-; auto.
    + destruct (enableLiveTranscription _); intros H; injection H as <-; auto.
      split; [intros k t H; discriminate H | intros _; reflexivity].
    + destruct (enableLiveTranscription _); intros H; injection H as <-; auto.
      split; [intros k t H; discriminate H | intros _; reflexivity].
  - now apply processResults_store.
Qed.

Lemma deliverAll_store (events : list TranscriptEvent) :
  forall app app',
    trackedArePartial app -> emptiedTogether app ->
    deliverAll app events = Some app' ->
    trackedArePartial app' /\ emptiedTogether app'.
Proof.
  induction events as [|e events IH]; simpl; intros app app' H1 H2 Hrun.
  - injection Hrun as <-. auto.
  - destruct (transcriptEventHandler app e) as [app1|] eqn:Hcall; [|discriminate].
    destruct (handler_store _ _ _ H1 H2 Hcall). eauto.
Qed.

Lemma processResults_snoc (results : list Result.t) (last : Result.t) :
  forall app app',
    processResults app (results ++ [last]) = Normal app' ->
    exists app1,
      processResults app results = Normal app1
      /\ processResult app1 last = Normal app'.
Proof.
  induction results as [|result results IH]; simpl; intros app app' Hrun.
  - destruct (processResult app last) as [app1|] eqn:Hproc; [|discriminate].
    injection Hrun as <-. eauto.
  - destruct (processResult app result) as [app1|]; [|discriminate]. eauto.
Qed.

Lemma processResult_keeps_finalized (app app' : App) (F : Result.t) :
  Result.isPartial F = false ->
  processResult app F = Normal app' ->
  partialTranscriptResultTimeMap app' <> [] ->
  JsMap.get (Result.resultId F) (partialTranscriptResultMap app') = Some F.
Proof.
  intros Hfinal Hproc Htracked.
  destruct (processResult_Normal _ _ _ Hproc)
    as (entitySet & app3 & _ & _ & _ & Hrm & _ & Happ').
  rewrite Hfinal in Happ'. subst app'.
  destruct (finalizeResult_fields F app3) as (Htm' & Hrm' & _).
  simpl in Htm', Hrm'. rewrite Hrm'. rewrite Htm' in Htracked.
  destruct (Nat.eqb _ 0) eqn:Hsize.
  - apply size_zero_nil in Hsize. rewrite Hsize in Htracked.
    now destruct Htracked.
  - rewrite Hrm. apply get_set_same.
Qed.

(** C1, as the code has it. After any sequence of events whose calls all
    completed, every key that the time map still tracks has a partial result,
    with the recorded end time, in the result map, so a finalized result is
    no longer tracked once the call that processed it is over; the result map
    itself, which [values()] reads, is only emptied when no key is tracked
    any more. So when a further call completes on a batch that ends with a
    finalized result [F] and some key is still tracked after it, [F] is
    still in the result map under its key, and among [values()]. *)
Theorem tracked_results_are_partial (enabled : bool)
    (events : list TranscriptEvent) (app : App) :
  deliverAll (freshApp enabled) events = Some app ->
  (forall k t,
     JsMap.get k (partialTranscriptResultTimeMap app) = Some t ->
     exists r,
       JsMap.get k (partialTranscriptResultMap app) = Some r
       /\ Result.isPartial r = true
       /\ Result.endTimeMs r = t)
  /\ (partialTranscriptResultTimeMap app = [] ->
      JsMap.values (partialTranscriptResultMap app) = [])
  /\ (forall (results : list Result.t) (F : Result.t) (app' : App),
        Result.isPartial F = false ->
        transcriptEventHandler app (Transcript (results ++ [F])) = Normal app' ->
        partialTranscriptResultTimeMap app' <> [] ->
        JsMap.get (Result.resultId F) (partialTranscriptResultMap app') = Some F
        /\ In F (JsMap.values (partialTranscriptResultMap app'))
        /\ JsMap.get (Result.resultId F) (partialTranscriptResultTimeMap app')
           = None).
Proof.
  intros Hrun.
  destruct (deliverAll_store events (freshApp enabled) app) as [H1 H2]; auto.
  - intros k t H. discriminate H.
  - intros _. reflexivity.
  - split; [exact H1|]. split; [intros H; now rewrite (H2 H)|].
    intros results F app' Hfinal Hcall Htracked.
    unfold transcriptEventHandler in Hcall.
    apply processResults_snoc in Hcall. destruct Hcall as (app1 & _ & Hproc).
    assert (Hget := processResult_keeps_finalized _ _ _ Hfinal Hproc Htracked).
    split; [exact Hget|]. split.
    + apply get_In in Hget. apply (in_map snd) in Hget. exact Hget.
    + destruct (processResult_Normal _ _ _ Hproc)
        as (entitySet & app3 & _ & _ & _ & _ & _ & Happ').
      rewrite Hfinal in Happ'. subst app'.
      destruct (finalizeResult_fields F app3) as (Htm' & _).
      simpl in Htm'. rewrite Htm'. apply get_delete_same.
Qed.

Lemma tracked_results_are_partial_witness :
  let P := partialResult "a" [word alice "hello" 100 500] 500 in
  let F := finalResult "b" [word bob "fine" 600 700; fullStop bob 700 710]
                       None 710 in
  (exists app,
     deliverAll (freshApp true) [Transcript [P; F]] = Some app
     /\ JsMap.keys (partialTranscriptResultTimeMap app) = ["a"]
     /\ exists r, JsMap.get "a" (partialTranscriptResultMap app) = Some r
                  /\ Result.isPartial r = true)
  /\ (exists app app',
        deliverAll (freshApp true) [Transcript [P]] = Some app
        /\ transcriptEventHandler app (Transcript ([] ++ [F])) = Normal app'
        /\ partialTranscriptResultTimeMap app' <> []
        /\ In F (JsMap.values (partialTranscriptResultMap app'))
        /\ JsMap.get "b" (partialTranscriptResultTimeMap app') = None).
Proof.
  intros P F. split.
  - eexists. split; [vm_compute; reflexivity|].
    split; [reflexivity|].
    match goal with |- exists r, JsMap.get _ (partialTranscriptResultMap ?a) = _ /\ _ =>
      assert (Hrun : deliverAll (freshApp true) [Transcript [P; F]] = Some a)
        by (vm_compute; reflexivity);
      destruct (tracked_results_are_partial true [Transcript [P; F]] a Hrun)
        as [Htracked _]
    end.
    destruct (Htracked "a" 500 eq_refl) as (r & Hget & Hp & _).
    exists r. auto.
  - eexists. eexists. split; [vm_compute; reflexivity|].
    match goal with |- transcriptEventHandler ?a _ = Normal ?b /\ _ =>
      assert (Hrun : deliverAll (freshApp true) [Transcript [P]] = Some a)
        by (vm_compute; reflexivity);
      assert (Hcall : transcriptEventHandler a (Transcript ([] ++ [F])) = Normal b)
        by (vm_compute; reflexivity);
      assert (Htracked : partialTranscriptResultTimeMap b <> [])
        by (simpl; discriminate);
      destruct (tracked_results_are_partial true [Transcript [P]] a Hrun)
        as (_ & _ & Hstays);
      destruct (Hstays [] F b eq_refl Hcall Htracked) as (_ & Hin & Hgone)
    end.
    split; [exact Hcall|]. split; [exact Htracked|].
    split; [exact Hin | exact Hgone].
Defined.

(** C1 as stated fails: the batch holds a partial result "a" and a
    finalized result "b"; when the call is over, "a" is still tracked and
    the finalized "b" is still among the values of the result map. *)
Lemma finalized_result_stays_in_values :
  let P := partialResult "a" [word alice "hello" 100 500] 500 in
  let F := finalResult "b" [word bob "fine" 600 700; fullStop bob 700 710]
                       None 710 in
  exists app,
    transcriptEventHandler initialApp (Transcript [P; F]) = Normal app
    /\ List.map (fun r => (Result.resultId r, Result.isPartial r))
                (JsMap.values (partialTranscriptResultMap app))
       = [("a", true); ("b", false)].
Proof.
  intros P F. eexists. split; [vm_compute; reflexivity | reflexivity].
Qed.

(** ** Results without a best alternative or without items *)

Lemma populate_total noSeparator entitySet segs result :
  hasItems result = true ->
  exists segs',
    populatePartialTranscriptSegmentsFromResult noSeparator entitySet segs result
    = Some segs'.
Proof.
  unfold hasItems.
  destruct (Result.alternatives result) as [|alternative others] eqn:Halt;
    [discriminate|].
  destruct (Alternative.items alternative) as [items|] eqn:Hitems;
    [|discriminate].
  intros _.
  destruct (populate_runs noSeparator entitySet segs result _ _ _ Halt Hitems)
    as (new & Hpop & _).
  eauto.
Qed.

Lemma populate_throws noSeparator entitySet segs result :
  hasItems result = false ->
  populatePartialTranscriptSegmentsFromResult noSeparator entitySet segs result
  = None.
Proof.
  unfold hasItems, populatePartialTranscriptSegmentsFromResult.
  destruct (Result.alternatives result) as [|alternative others]; auto.
  destruct (Alternative.items alternative); [discriminate | auto].
Qed.

Lemma collectSegments_total noSeparator entitySet results :
  Forall (fun r => hasItems r = true) results ->
  forall segs,
    exists segs', collectSegments noSeparator entitySet segs results = Some segs'.
Proof.
  induction 1 as [|result results Hr _ IH]; intros segs; simpl; eauto.
  destruct (populate_total noSeparator entitySet segs result Hr) as (s1 & ->).
  apply IH.
Qed.

Lemma collectSegments_throws noSeparator entitySet results result :
  In result results ->
  hasItems result = false ->
  forall segs, collectSegments noSeparator entitySet segs results = None.
Proof.
  induction results as [|r results IH]; simpl; [tauto|].
  intros [->|Hin] Hbad segs.
  - now rewrite populate_throws.
  - destruct (populatePartialTranscriptSegmentsFromResult _ _ _ _); auto.
Qed.

Lemma render_total (app : App) :
  Forall (fun r => hasItems r = true)
         (JsMap.values (partialTranscriptResultMap app)) ->
  exists app', renderPartialTranscriptResults app = Normal app'.
Proof.
  intros Hwf.
  unfold renderPartialTranscriptResults, updatePartialTranscriptDiv,
    renderedSpeakerDivs.
  destruct (partialTranscriptDiv app) eqn:Hdiv; simpl;
    match goal with |- context [collectSegments ?n ?e [] ?l] =>
      destruct (collectSegments_total n e l Hwf []) as (segs & ->) end;
    eauto.
Qed.

Lemma render_throws (app : App) (result : Result.t) :
  In result (JsMap.values (partialTranscriptResultMap app)) ->
  hasItems result = false ->
  completes (renderPartialTranscriptResults app) = false.
Proof.
  intros Hin Hbad.
  unfold renderPartialTranscriptResults, updatePartialTranscriptDiv,
    renderedSpeakerDivs.
  destruct (partialTranscriptDiv app) eqn:Hdiv; simpl;
    rewrite (collectSegments_throws _ _ _ result) by assumption;
    reflexivity.
Qed.

Lemma Forall_values_set {V} (P : V -> Prop) (m : JsMap.t V) k v :
  Forall P (JsMap.values m) -> P v -> Forall P (JsMap.values (JsMap.set k v m)).
Proof.
  intros Hm Hv. induction m as [|[k' v'] m IH]; simpl.
  - constructor; auto.
  - inversion Hm; subst. destruct (String.eqb k' k); constructor; auto.
Qed.

Lemma In_values_set {V} (m : JsMap.t V) k v :
  In v (JsMap.values (JsMap.set k v m)).
Proof.
  induction m as [|[k' v'] m IH]; simpl; [now left|].
  destruct (String.eqb k' k); simpl; auto.
Qed.

Lemma extractEntities_total (result : Result.t) (s : JsSet.t) :
  hasItems result = true -> exists s', extractEntities result s = Some s'.
Proof.
  unfold hasItems, extractEntities.
  destruct (Result.alternatives result) as [|alternative others]; [discriminate|].
  intros _. destruct (negb _); eauto.
  destruct (Alternative.entities alternative) as [[|e es]|]; eauto.
Qed.

Lemma processResult_total (app : App) (result : Result.t) :
  Forall (fun r => hasItems r = true)
         (JsMap.values (partialTranscriptResultMap app)) ->
  hasItems result = true ->
  exists app',
    processResult app result = Normal app'
    /\ Forall (fun r => hasItems r = true)
              (JsMap.values (partialTranscriptResultMap app')).
Proof.
  intros Hwf Hr.
  assert (Hwf' : Forall (fun r => hasItems r = true)
                   (JsMap.values (JsMap.set (Result.resultId result) result
                                            (partialTranscriptResultMap app))))
    by (now apply Forall_values_set).
  destruct (extractEntities_total result (transcriptEntitySet app) Hr)
    as (entitySet & Hext).
  destruct (render_total
              (upsertResult result
                 (set_transcriptEntitySet entitySet
                    (if isNoWordSeparatorLanguage (Result.languageCode result)
                     then set_noWordSeparatorForTranscription true app
                     else app)))) as (app3 & Hrender).
  { destruct (isNoWordSeparatorLanguage _); exact Hwf'. }
  assert (Hproc : processResult app result
                  = Normal (if Result.isPartial result then app3
                            else finalizeResult result app3)).
  { unfold processResult.
    destruct (isNoWordSeparatorLanguage _); simpl in *;
      rewrite Hext, Hrender; now destruct (Result.isPartial result). }
  eexists. split; [exact Hproc|].
  destruct (processResult_Normal _ _ _ Hproc)
    as (es' & a3 & Hext' & Hr' & _ & Hrm & _).
  rewrite Hext in Hext'. injection Hext' as <-.
  rewrite Hrender in Hr'. injection Hr' as <-.
  destruct (Result.isPartial result).
  - now rewrite Hrm.
  - destruct (finalizeResult_fields result app3) as (_ & -> & _).
    destruct (Nat.eqb _ 0); [constructor | now rewrite Hrm].
Qed.

Lemma processResults_total (results : list Result.t) :
  forall app,
    Forall (fun r => hasItems r = true)
           (JsMap.values (partialTranscriptResultMap app)) ->
    Forall (fun r => hasItems r = true) results ->
    exists app', processResults app results = Normal app'.
Proof.
  induction results as [|result results IH]; simpl; intros app Hwf Hrs; eauto.
  inversion Hrs; subst.
  destruct (processResult_total app result) as (app1 & -> & Hwf1); auto.
Qed.

Lemma processResult_throws (app : App) (result : Result.t) :
  hasItems result = false -> completes (processResult app result) = false.
Proof.
  intros Hbad. unfold processResult.
  destruct (extractEntities _ _) as [entitySet|]; [|reflexivity].
  match goal with |- context [renderPartialTranscriptResults ?x] =>
    pose proof (render_throws x result) as Hthrow;
    destruct (renderPartialTranscriptResults x) end; [|reflexivity].
  simpl in Hthrow. discriminate Hthrow; auto.
  destruct (isNoWordSeparatorLanguage _); apply In_values_set.
Qed.

Lemma processResults_throws (results : list Result.t) (result : Result.t) :
  In result results ->
  hasItems result = false ->
  forall app, completes (processResults app results) = false.
Proof.
  induction results as [|r results IH]; simpl; [tauto|].
  intros Hin Hbad app.
  destruct (processResult app r) as [app1|app1] eqn:Hproc; [|reflexivity].
  destruct Hin as [->|Hin]; [|now apply IH].
  pose proof (processResult_throws app result Hbad) as H.
  rewrite Hproc in H. discriminate H.
Qed.

(** C3, as the code has it. A result whose best alternative has an empty
    items array adds no segment, and a batch is processed to its end whenever
    every result stored or received has a best alternative with an items
    array, empty or not. A result without a best alternative, or without
    items array, makes the call throw: no batch that holds one completes. *)
Theorem empty_items_add_no_segment :
  (forall noSeparator entitySet segs result alternative others,
     Result.alternatives result = alternative :: others ->
     Alternative.items alternative = Some [] ->
     populatePartialTranscriptSegmentsFromResult noSeparator entitySet segs result
     = Some segs)
  /\ (forall app results,
        Forall (fun r => hasItems r = true)
               (JsMap.values (partialTranscriptResultMap app)) ->
        Forall (fun r => hasItems r = true) results ->
        exists app', transcriptEventHandler app (Transcript results) = Normal app')
  /\ (forall app results result,
        In result results ->
        hasItems result = false ->
        completes (transcriptEventHandler app (Transcript results)) = false).
Proof.
  split; [|split].
  - intros noSeparator entitySet segs result alternative others Halt Hitems.
    unfold populatePartialTranscriptSegmentsFromResult.
    now rewrite Halt, Hitems.
  - intros app results Hwf Hrs. unfold transcriptEventHandler.
    apply processResults_total; auto.
    now destruct (negb (enableLiveTranscription app)).
  - intros app results result Hin Hbad. unfold transcriptEventHandler.
    now apply processResults_throws with (result := result).
Qed.

Lemma empty_items_add_no_segment_witness :
  let silent := partialResult "s" [] 700 in
  let spoken := partialResult "t" [word alice "hello" 100 500] 500 in
  populatePartialTranscriptSegmentsFromResult false [] [] silent = Some []
  /\ (exists app',
        transcriptEventHandler initialApp (Transcript [silent; spoken])
        = Normal app')
  /\ completes (transcriptEventHandler initialApp
                  (Transcript [noAlternative "p" 100; spoken])) = false.
Proof.
  intros silent spoken.
  destruct empty_items_add_no_segment as (Hempty & Htotal & Hthrow).
  split; [|split].
  - exact (Hempty false [] [] silent _ _ eq_refl eq_refl).
  - apply Htotal; repeat constructor.
  - apply Hthrow with (result := noAlternative "p" 100);
      [now left | reflexivity].
Defined.

(** C3 as stated fails: the first result of the batch has no alternative;
    the call throws, and the second result, which is well formed, is never
    stored. *)
Lemma missing_alternative_aborts_batch :
  let spoken := partialResult "t" [word alice "hello" 100 500] 500 in
  exists app,
    transcriptEventHandler initialApp
      (Transcript [noAlternative "p" 100; spoken]) = Throw app
    /\ JsMap.get "t" (partialTranscriptResultMap app) = None
    /\ populatePartialTranscriptSegmentsFromResult false [] []
         (noAlternative "p" 100) = None.
Proof.
  intros spoken. eexists.
  split; [vm_compute; reflexivity|]. split; reflexivity.
Qed.

(** ** Status events *)

(** A pass that starts without a current block makes one, and appends it to
    the transcript container once the pass is over. *)
Lemma render_fresh (app app1 : App) :
  partialTranscriptDiv app = None ->
  renderPartialTranscriptResults app = Normal app1 ->
  partialTranscriptDiv app1 = Some (List.length (divStore app))
  /\ transcriptContainerDiv app1
     = transcriptContainerDiv app
       ++ [PartialTranscriptDivRef (List.length (divStore app))].
Proof.
  intros Hdiv. unfold renderPartialTranscriptResults. rewrite Hdiv.
  match goal with |- context [updatePartialTranscriptDiv ?x] =>
    pose proof (update_frame x) as Hframe;
    destruct (updatePartialTranscriptDiv x) as [app2|app2] end;
    [|discriminate].
  intros H. injection H as <-. simpl in *.
  destruct Hframe as (_ & _ & Hc & Hd & _). rewrite Hc, Hd. auto.
Qed.

Lemma processResult_entitySet (app app' : App) (result : Result.t) :
  transcriptEntitySet app = [] ->
  processResult app result = Normal app' ->
  transcriptEntitySet app' = [].
Proof.
  intros Hes Hproc.
  destruct (processResult_Normal _ _ _ Hproc)
    as (entitySet & app3 & Hext & _ & _ & _ & Hes3 & ->).
  destruct (Result.isPartial result) eqn:Hp.
  - rewrite Hes3, (extractEntities_partial _ _ _ Hp Hext). exact Hes.
  - now destruct (finalizeResult_fields result app3) as (_ & _ & _ & -> & _).
Qed.

Lemma processResults_entitySet (results : list Result.t) :
  forall app app',
    transcriptEntitySet app = [] ->
    processResults app results = Normal app' ->
    transcriptEntitySet app' = [].
Proof.
  induction results as [|result results IH]; simpl; intros app app' Hes Hrun.
  - now injection Hrun as <-.
  - destruct (processResult app result) as [app1|] eqn:Hproc; [|discriminate].
    eauto using processResult_entitySet.
Qed.

Lemma handler_entitySet (app app' : App) (event : TranscriptEvent) :
  transcriptEntitySet app = [] ->
  transcriptEventHandler app event = Normal app' ->
  transcriptEntitySet app' = [].
Proof.
  intros Hes. unfold transcriptEventHandler.
  set (app1 := if negb (enableLiveTranscription app)
               then set_enableLiveTranscription true app else app).
  assert (Hes1 : transcriptEntitySet app1 = [])
    by (unfold app1; destruct (negb _); exact Hes).
  clearbody app1. destruct event as [status|results].
  - destruct (Status.type status).
    + destruct (configuredLanguageCode _); [|discriminate].
      destruct (isNoWordSeparatorLanguage _); intros H; now injection H as <-.
    + destruct (enableLiveTranscription _); intros H; now injection H as <-.
    + destruct (enableLiveTranscription _); intros H; now injection H as <-.
  - now apply processResults_entitySet.
Qed.

(** The entity set is empty between calls, as long as every call completes. *)
Lemma deliverAll_entitySet (events : list TranscriptEvent) :
  forall app app',
    transcriptEntitySet app = [] ->
    deliverAll app events = Some app' ->
    transcriptEntitySet app' = [].
Proof.
  induction events as [|e events IH]; simpl; intros app app' Hes Hrun.
  - now injection Hrun as <-.
  - destruct (transcriptEventHandler app e) as [app1|] eqn:Hcall; [|discriminate].
    eauto using handler_entitySet.
Qed.

(** C4, as the code has it. A STOPPED or FAILED status, in any state, sets
    noWordSeparatorForTranscription to false, empties the time map and the
    result map and forgets the current block, so that the next result
    processed starts a new block at the end of the transcript container. The
    entity set is not touched: it is empty afterwards when it was empty
    before, which is the case whenever every earlier call completed. *)
Theorem stop_resets_session (app : App) (status : Status.t) :
  Status.type status = STOPPED \/ Status.type status = FAILED ->
  exists app',
    transcriptEventHandler app (TranscriptionStatus status) = Normal app'
    /\ noWordSeparatorForTranscription app' = false
    /\ partialTranscriptResultTimeMap app' = []
    /\ partialTranscriptResultMap app' = []
    /\ partialTranscriptDiv app' = None
    /\ transcriptEntitySet app' = transcriptEntitySet app
    /\ (forall enabled events,
          deliverAll (freshApp enabled) events = Some app ->
          transcriptEntitySet app' = [])
    /\ (forall result app'',
          processResult app' result = Normal app'' ->
          transcriptContainerDiv app''
          = transcriptContainerDiv app'
            ++ [PartialTranscriptDivRef (List.length (divStore app'))]).
Proof.
  intros Htype.
  assert (Hcall : exists app',
            transcriptEventHandler app (TranscriptionStatus status) = Normal app'
            /\ noWordSeparatorForTranscription app' = false
            /\ partialTranscriptResultTimeMap app' = []
            /\ partialTranscriptResultMap app' = []
            /\ partialTranscriptDiv app' = None
            /\ transcriptEntitySet app' = transcriptEntitySet app).
  { unfold transcriptEventHandler.
    destruct Htype as [-> | ->];
      destruct (enableLiveTranscription app) eqn:Hen; simpl; rewrite ?Hen;
      eexists; (split; [reflexivity|]); simpl; repeat split. }
  destruct Hcall as (app' & Hcall & Hflag & Htm & Hrm & Hdiv & Hes).
  exists app'. repeat (split; [assumption|]). split.
  - intros enabled events Hrun. rewrite Hes.
    now apply (deliverAll_entitySet events (freshApp enabled)).
  - intros result app'' Hproc.
    destruct (processResult_Normal _ _ _ Hproc)
      as (entitySet & app3 & _ & Hrender & _ & _ & _ & ->).
    apply render_fresh in Hrender.
    + destruct Hrender as [_ Hc].
      assert (Hc' : transcriptContainerDiv app3
                    = transcriptContainerDiv app'
                      ++ [PartialTranscriptDivRef (List.length (divStore app'))])
        by (rewrite Hc; destruct (isNoWordSeparatorLanguage _); reflexivity).
      destruct (Result.isPartial result); [exact Hc'|].
      now destruct (finalizeResult_fields result app3)
        as (_ & _ & _ & _ & -> & _).
    + destruct (isNoWordSeparatorLanguage _); exact Hdiv.
Qed.

Lemma stop_resets_session_witness :
  let P := partialResult "a" [word alice "hello" 100 500] 500 in
  let Q := partialResult "b" [word bob "hi" 300 600] 600 in
  exists app app' app'',
    deliverAll (freshApp true) [Transcript [P; Q]] = Some app
    /\ List.length (partialTranscriptResultTimeMap app) = 2%nat
    /\ Status.type stopped = STOPPED
    /\ transcriptEventHandler app (TranscriptionStatus stopped) = Normal app'
    /\ partialTranscriptResultMap app' = []
    /\ transcriptEntitySet app' = []
    /\ processResult app' P = Normal app''
    /\ transcriptContainerDiv app''
       = [PartialTranscriptDivRef 0; StatusDiv stopped; PartialTranscriptDivRef 1].
Proof.
  intros P Q. eexists.
  match goal with |- exists app' app'', ?run = Some ?a /\ _ =>
    assert (Hrun : run = Some a) by (vm_compute; reflexivity);
    destruct (stop_resets_session a stopped (or_introl eq_refl))
      as (app' & Hcall & _ & _ & Hrm & _ & _ & Hempty & Hnext)
  end.
  exists app'. eexists.
  split; [exact Hrun|]. split; [reflexivity|]. split; [reflexivity|].
  split; [exact Hcall|]. split; [exact Hrm|].
  split; [exact (Hempty true _ Hrun)|].
  vm_compute in Hcall. injection Hcall as <-.
  match goal with |- processResult ?a P = Normal ?b /\ _ =>
    assert (Hproc : processResult a P = Normal b) by (vm_compute; reflexivity)
  end.
  split; [exact Hproc|].
  rewrite (Hnext _ _ Hproc). reflexivity.
Defined.

(** C4 as stated fails: a partial result without alternative makes its call
    throw and stays stored; the call for the finalized result that follows
    adds its entities and throws as well, before the entity set is cleared;
    the STOPPED status then empties the two maps and leaves the entity set
    as it is. *)
Lemma stop_keeps_entity_set :
  let F := finalResult "f" [word bob "John" 600 700; word bob "Smith" 700 900]
                       (Some [Entity.mk "John Smith"]) 900 in
  let app := deliver initialApp
               [Transcript [noAlternative "p" 100]; Transcript [F]] in
  enableLiveTranscription app = true
  /\ exists app',
       transcriptEventHandler app (TranscriptionStatus stopped) = Normal app'
       /\ partialTranscriptResultMap app' = []
       /\ transcriptEntitySet app' = ["John"; "Smith"].
Proof.
  intros F app. split; [vm_compute; reflexivity|].
  eexists. split; [vm_compute; reflexivity|]. split; reflexivity.
Qed.

(** * Further properties of the transcript code *)

(** ** Order of the segments *)

Lemma insertByStartTime_perm (s : Segment.t) (l : list Segment.t) :
  Permutation (s :: l) (insertByStartTime s l).
Proof.
  induction l as [|s' l IH]; simpl; auto.
  destruct (Segment.startTimeMs s <=? Segment.startTimeMs s'); auto.
  eapply perm_trans; [apply perm_swap|]. now constructor.
Qed.

Lemma insertByStartTime_sorted (s : Segment.t) (l : list Segment.t) :
  Sorted startsBefore l -> Sorted startsBefore (insertByStartTime s l).
Proof.
  induction l as [|s' l IH]; simpl; intros Hl.
  - repeat constructor.
  - destruct (Z.leb_spec (Segment.startTimeMs s) (Segment.startTimeMs s')).
    + constructor; [assumption|]. constructor. assumption.
    + inversion Hl as [|? ? Hs Hhd]; subst. constructor; [auto|].
      destruct l as [|s'' l]; simpl.
      * constructor. unfold startsBefore. lia.
      * destruct (Z.leb_spec (Segment.startTimeMs s) (Segment.startTimeMs s''));
          constructor; unfold startsBefore; try lia.
        now inversion Hhd.
Qed.

Lemma insertByStartTime_filter (t : Z) (s : Segment.t) (l : list Segment.t) :
  filter (fun x => Segment.startTimeMs x =? t) (insertByStartTime s l)
  = filter (fun x => Segment.startTimeMs x =? t) (s :: l).
Proof.
  induction l as [|s' l IH]; simpl; auto.
  destruct (Z.leb_spec (Segment.startTimeMs s) (Segment.startTimeMs s')); auto.
  simpl in *. rewrite IH.
  destruct (Z.eqb_spec (Segment.startTimeMs s) t),
           (Z.eqb_spec (Segment.startTimeMs s') t); auto.
  lia.
Qed.

(** X1. The segments are walked in ascending order of start time; the sort
    keeps every segment, and segments that start at the same time keep the
    order in which they were built. *)
Theorem segments_sorted_by_start_time (l : list Segment.t) :
  Sorted startsBefore (sortByStartTime l)
  /\ Permutation l (sortByStartTime l)
  /\ forall t,
       filter (fun x => Segment.startTimeMs x =? t) (sortByStartTime l)
       = filter (fun x => Segment.startTimeMs x =? t) l.
Proof.
  induction l as [|s l (Hsorted & Hperm & Hstable)]; simpl.
  - repeat split; constructor.
  - split; [now apply insertByStartTime_sorted|]. split.
    + eapply perm_trans; [|apply insertByStartTime_perm]. now constructor.
    + intros t. rewrite insertByStartTime_filter. simpl. now rewrite Hstable.
Qed.

(** ** Speaker blocks *)

Lemma map_updateAt {A B} (g : A -> B) (f : A -> A) (l : list A) :
  (forall x, g (f x) = g x) ->
  forall i, List.map g (updateAt i f l) = List.map g l.
Proof.
  intros Hg. induction l as [|x l IH]; intros [|i]; simpl; auto.
  - now rewrite Hg.
  - now rewrite IH.
Qed.

(** One step of the walk, told by the speaker who spoke last. *)
Lemma renderSegment_turn (w : Walk) (s : Segment.t) :
  walkInvariant w ->
  (forall divs b,
     speakerDivs w = divs ++ [b] ->
     mostRecentSpeaker w = Some (attendeeId (Segment.attendee s)) ->
     speakerDivs (renderSegment w s) = divs ++ [mergedInto b s])
  /\ (mostRecentSpeaker w <> Some (attendeeId (Segment.attendee s)) ->
      speakerDivs (renderSegment w s) = speakerDivs w ++ [newSpeakerTranscript s]).
Proof.
  intros [Hnd Hlast]. destruct w as [divs0 m]. simpl in *.
  set (id := attendeeId (Segment.attendee s)). split.
  - intros divs b Hdivs Hrecent.
    destruct (mostRecentSpeaker_inv _ _ Hrecent) as (m' & ref & Hm).
    simpl in Hm. subst m. specialize (Hlast m' id ref eq_refl).
    destruct (last_entry_last_index m' id ref Hnd) as [Hget Hidx].
    rewrite Hdivs, length_app in Hlast. simpl in Hlast.
    assert (ref = List.length divs) by lia. subst ref.
    unfold renderSegment. fold id. unfold JsMap.has. simpl.
    rewrite Hget, Hidx. simpl. now rewrite Hdivs, updateAt_last.
  - intros Hnot. unfold renderSegment. fold id. simpl.
    destruct (JsMap.has id m) eqn:Hhas; simpl.
    + destruct (indexOf id (JsMap.keys m)
                <? Z.of_nat (List.length (JsMap.keys m)) - 1) eqn:Hidx.
      * reflexivity.
      * exfalso. apply Hnot.
        destruct (last_index_last_entry m id Hhas Hidx) as (m' & ref & -> & _).
        apply mostRecentSpeaker_last.
    + reflexivity.
Qed.

Lemma fold_renderSegment_turns (segs : list Segment.t) :
  forall w divs b speaker,
    walkInvariant w ->
    speakerDivs w = divs ++ [b] ->
    mostRecentSpeaker w = Some speaker ->
    speakerDivs (fold_left renderSegment segs w) = divs ++ turnsFrom b speaker segs.
Proof.
  induction segs as [|s segs IH]; simpl; intros w divs b speaker Hw Hdivs Hrecent;
    auto.
  destruct (renderSegment_invariant w s Hw) as [Hw' Hrecent'].
  destruct (renderSegment_turn w s Hw) as [Hmerge Hnew].
  destruct (String.eqb_spec speaker (attendeeId (Segment.attendee s))) as [Heq|Hne].
  - rewrite <- Heq in *. apply IH; auto.
  - rewrite (IH _ (divs ++ [b]) (newSpeakerTranscript s)
               (attendeeId (Segment.attendee s))); auto.
    + now rewrite <- app_assoc.
    + rewrite Hnew, Hdivs; auto. rewrite Hrecent. congruence.
Qed.

(** X2. The walk over the segments yields one block for every maximal run
    of consecutive segments of the same attendee: the first segment of the
    run opens the block and the others are merged into its span, each after a
    no-break space. The map from speakers to spans has no other effect. *)
Theorem blocks_are_speaker_turns (segs : list Segment.t) :
  speakerDivs (renderSegments segs) = speakerTurns segs.
Proof.
  destruct segs as [|s segs]; [reflexivity|].
  unfold renderSegments. simpl fold_left. unfold speakerTurns.
  assert (Hw : walkInvariant (mkWalk [] (@JsMap.empty nat))).
  { split; simpl; [constructor|]. intros [|e m] k ref H; discriminate H. }
  destruct (renderSegment_invariant _ s Hw) as [Hw' Hrecent].
  apply (fold_renderSegment_turns segs _ [] (newSpeakerTranscript s)); auto.
Qed.

(** ** Segments of a result *)

Lemma populateItem_starts noSeparator entitySet (r r' : Run) (item : Item.t) :
  populateItem noSeparator entitySet r item = Some r' ->
  Forall (fun s => Segment.startTimeMs s <> 0) (segments r) ->
  Forall (fun s => Segment.startTimeMs s <> 0) (segments r').
Proof.
  unfold populateItem.
  destruct (truthy (startTimeMs r)) eqn:Hopen; simpl.
  - destruct (isPunctuation (Item.type item)).
    + destruct (contentSpan r), (attendee r), (startTimeMs r) as [t|];
        try discriminate.
      intros H Hsegs. injection H as <-. simpl.
      apply Forall_app. split; auto. constructor; auto. simpl.
      simpl in Hopen. intros ->. discriminate Hopen.
    + destruct (contentSpan r); [|discriminate].
      intros H. now injection H as <-.
  - intros H. now injection H as <-.
Qed.

Lemma populateItems_starts noSeparator entitySet (items : list Item.t) :
  forall r r',
    populateItems noSeparator entitySet r items = Some r' ->
    Forall (fun s => Segment.startTimeMs s <> 0) (segments r) ->
    Forall (fun s => Segment.startTimeMs s <> 0) (segments r').
Proof.
  induction items as [|item items IH]; simpl; intros r r' H Hsegs.
  - now injection H as <-.
  - destruct (populateItem noSeparator entitySet r item) as [r1|] eqn:Hstep;
      [|discriminate].
    eauto using populateItem_starts.
Qed.

(** X3. No segment starts at time 0: whatever the result, every segment
    that the builder adds has a start time other than 0 (a run that starts at
    0 is never pushed). *)
Theorem segments_never_start_at_zero noSeparator entitySet
    (result : Result.t) (out : list Segment.t) :
  populatePartialTranscriptSegmentsFromResult noSeparator entitySet [] result
  = Some out ->
  Forall (fun s => Segment.startTimeMs s <> 0) out.
Proof.
  unfold populatePartialTranscriptSegmentsFromResult.
  destruct (Result.alternatives result) as [|alternative others]; [discriminate|].
  destruct (Alternative.items alternative) as [items|]; [|discriminate].
  destruct (populateItems _ _ _ items) as [r|] eqn:Hloop; [|discriminate].
  pose proof (populateItems_starts _ _ _ _ _ Hloop (Forall_nil _)) as Hsegs.
  unfold closeRun. destruct (truthy (startTimeMs r)) eqn:Hopen.
  - destruct (contentSpan r), (attendee r), (startTimeMs r) as [t|];
      try discriminate.
    intros H. injection H as <-. apply Forall_app. split; auto.
    constructor; auto. simpl. simpl in Hopen. intros ->. discriminate Hopen.
  - intros H. now injection H as <-.
Qed.

Lemma segments_never_start_at_zero_witness :
  exists out,
    populatePartialTranscriptSegmentsFromResult false [] []
      (partialResult "w" [word alice "zero" 0 100; fullStop alice 100 110;
                          word alice "one" 200 300] 300) = Some out
    /\ List.map Segment.startTimeMs out = [100]
    /\ Forall (fun s => Segment.startTimeMs s <> 0) out.
Proof.
  eexists. split; [reflexivity|]. split; [reflexivity|].
  exact (segments_never_start_at_zero false []
           (partialResult "w" [word alice "zero" 0 100; fullStop alice 100 110;
                               word alice "one" 200 300] 300) _ eq_refl).
Defined.

Lemma populateItems_words noSeparator entitySet (first : Item.t)
    (segs : list Segment.t) (rest : list Item.t) :
  Item.startTimeMs first <> 0 ->
  Forall (fun item => Item.type item = WORD) rest ->
  forall read,
    populateItems noSeparator entitySet
      (mkRun (Some (Item.startTimeMs first)) (Some (Item.attendee first))
             (Some (Elem "span" [] (runTokens noSeparator entitySet first read)))
             segs)
      rest
    = Some (mkRun (Some (Item.startTimeMs first)) (Some (Item.attendee first))
                  (Some (Elem "span" []
                           (runTokens noSeparator entitySet first (read ++ rest))))
                  segs).
Proof.
  intros Hstart Hwords. induction Hwords as [|item rest Hword _ IH]; intros read.
  - now rewrite app_nil_r.
  - simpl. unfold populateItem. simpl.
    destruct (Z.eqb_spec (Item.startTimeMs first) 0) as [|_]; [contradiction|].
    simpl. rewrite Hword. simpl.
    replace (read ++ item :: rest) with ((read ++ [item]) ++ rest)
      by (rewrite <- app_assoc; reflexivity).
    rewrite <- IH. do 3 f_equal. rewrite runTokens_snoc.
    unfold separatedToken. rewrite Hword, orb_false_r.
    destruct noSeparator; simpl; rewrite <- ?app_assoc; reflexivity.
Qed.

(** X4. A result without punctuation whose first item does not start at 0
    gives exactly one segment: it holds all the items, starts at the start
    time of the first item, ends at the end time of the result and carries
    the attendee of the first item, whoever the attendees of the other items
    are. *)
Theorem unpunctuated_result_is_one_segment noSeparator entitySet
    (segs : list Segment.t) (result : Result.t)
    (alternative : Alternative.t) (others : list Alternative.t)
    (first : Item.t) (rest : list Item.t) :
  Result.alternatives result = alternative :: others ->
  Alternative.items alternative = Some (first :: rest) ->
  Item.startTimeMs first <> 0 ->
  Forall (fun item => Item.type item = WORD) rest ->
  populatePartialTranscriptSegmentsFromResult noSeparator entitySet segs result
  = Some (segs ++
          [Segment.mk
             (Elem "span" [] (runTokens noSeparator entitySet first rest))
             (Item.attendee first) (Item.startTimeMs first)
             (Result.endTimeMs result)]).
Proof.
  intros Halt Hitems Hstart Hwords.
  unfold populatePartialTranscriptSegmentsFromResult. rewrite Halt, Hitems.
  simpl.
  change (Elem "span" [] [itemContentSpan entitySet first])
    with (Elem "span" [] (runTokens noSeparator entitySet first [])).
  rewrite (populateItems_words noSeparator entitySet first segs rest Hstart Hwords []).
  unfold closeRun. simpl.
  destruct (Z.eqb_spec (Item.startTimeMs first) 0) as [|_]; [contradiction|].
  reflexivity.
Qed.

Lemma unpunctuated_result_is_one_segment_witness :
  let items := [word alice "so" 100 200; word bob "yes" 0 300] in
  exists out,
    populatePartialTranscriptSegmentsFromResult false [] []
      (partialResult "u" items 300) = Some out
    /\ List.map (fun s => (attendeeId (Segment.attendee s),
                           Segment.startTimeMs s, Segment.endTimeMs s)) out
       = [("attendee-a", 100, 300)].
Proof.
  intros items. eexists. split.
  - apply (unpunctuated_result_is_one_segment false [] []
             (partialResult "u" items 300) _ [] (word alice "so" 100 200)
             [word bob "yes" 0 300] eq_refl eq_refl).
    + discriminate.
    + repeat constructor.
  - reflexivity.
Defined.

Lemma populateItems_runsFrom noSeparator entitySet resultEndTimeMs
    (items : list Item.t) :
  Forall (fun item => Item.startTimeMs item <> 0) items ->
  forall r current,
    currentRun noSeparator entitySet current r ->
    exists r',
      populateItems noSeparator entitySet r items = Some r'
      /\ closeRun resultEndTimeMs r'
         = Some (segments r
                 ++ runsFrom noSeparator entitySet resultEndTimeMs current items).
Proof.
  intros Hstarts.
  induction Hstarts as [|item items Hstart _ IH]; intros r current Hcur.
  - exists r. split; [reflexivity|]. unfold closeRun.
    destruct current as [[first rest]|]; simpl in *.
    + destruct Hcur as (Hst & Hne & Hat & Hcs). rewrite Hst, Hat, Hcs. simpl.
      destruct (Z.eqb_spec (Item.startTimeMs first) 0); [contradiction|].
      reflexivity.
    + unfold runOpen in Hcur. rewrite Hcur. now rewrite app_nil_r.
  - simpl populateItems. unfold populateItem.
    destruct current as [[first rest]|]; simpl in Hcur.
    + destruct Hcur as (Hst & Hne & Hat & Hcs). rewrite Hst, Hat, Hcs.
      simpl truthy.
      destruct (Z.eqb_spec (Item.startTimeMs first) 0); [contradiction|].
      simpl negb. cbv iota. simpl runsFrom.
      destruct (isPunctuation (Item.type item)) eqn:Hp.
      * match goal with |- context [populateItems _ _ ?r1 items] =>
          destruct (IH r1 None) as (r' & Hloop & Hclose); [reflexivity|] end.
        exists r'. split; [exact Hloop|]. rewrite Hclose. simpl segments.
        rewrite <- app_assoc. unfold segmentOfRun. rewrite runTokens_snoc.
        unfold separatedToken. rewrite Hp, orb_true_r. reflexivity.
      * match goal with |- context [populateItems _ _ ?r1 items] =>
          destruct (IH r1 (Some (first, rest ++ [item]))) as (r' & Hloop & Hclose)
        end.
        { simpl. repeat split; auto. rewrite runTokens_snoc.
          unfold separatedToken. rewrite Hp, orb_false_r.
          destruct noSeparator; simpl; rewrite <- ?app_assoc; reflexivity. }
        exists r'. split; [exact Hloop|]. exact Hclose.
    + unfold runOpen in Hcur. rewrite Hcur. simpl negb. cbv iota.
      match goal with |- context [populateItems _ _ ?r1 items] =>
        destruct (IH r1 (Some (item, []))) as (r' & Hloop & Hclose) end.
      { simpl. repeat split; auto. }
      exists r'. split; [exact Hloop|]. exact Hclose.
Qed.

(** X23. When no item of a result starts at time 0, the segments that the
    builder adds are exactly the runs of the items: an item read while no run
    is open opens one, with its start time and attendee; a punctuation item
    read while a run is open joins it with nothing before it and closes it at
    its own end time; any other item joins the open run, after one no-break
    space unless the session has no word separator; the run open after the
    last item is closed at the end time of the result. *)
Theorem segments_are_the_runs noSeparator entitySet (segs : list Segment.t)
    (result : Result.t) (alternative : Alternative.t)
    (others : list Alternative.t) (items : list Item.t) :
  Result.alternatives result = alternative :: others ->
  Alternative.items alternative = Some items ->
  Forall (fun item => Item.startTimeMs item <> 0) items ->
  populatePartialTranscriptSegmentsFromResult noSeparator entitySet segs result
  = Some (segs ++ runsOfItems noSeparator entitySet items
                              (Result.endTimeMs result)).
Proof.
  intros Halt Hitems Hstarts.
  unfold populatePartialTranscriptSegmentsFromResult. rewrite Halt, Hitems.
  destruct (populateItems_runsFrom noSeparator entitySet
              (Result.endTimeMs result) items Hstarts
              (mkRun None None None segs) None) as (r' & Hloop & Hclose);
    [reflexivity|].
  rewrite Hloop. exact Hclose.
Qed.

Lemma segments_are_the_runs_witness :
  let items := [word alice "good" 100 200; word alice "morning" 200 300;
                fullStop alice 300 310; word bob "hi" 400 500] in
  let result := partialResult "r7" items 600 in
  Forall (fun item => Item.startTimeMs item <> 0) items
  /\ (exists built,
        populatePartialTranscriptSegmentsFromResult false [] [] result
        = Some built
        /\ List.map (fun s => (textContent (Segment.contentSpan s),
                               Segment.startTimeMs s, Segment.endTimeMs s)) built
           = [(("good" ++ nbsp ++ "morning.")%string, 100, 310); ("hi", 400, 600)])
  /\ (exists built,
        populatePartialTranscriptSegmentsFromResult true [] [] result
        = Some built
        /\ List.map (fun s => (textContent (Segment.contentSpan s),
                               Segment.startTimeMs s, Segment.endTimeMs s)) built
           = [("goodmorning.", 100, 310); ("hi", 400, 600)]).
Proof.
  intros items result.
  assert (Hstarts : Forall (fun item => Item.startTimeMs item <> 0) items).
  { repeat constructor; discriminate. }
  split; [exact Hstarts|]. split.
  - eexists. split.
    + exact (segments_are_the_runs false [] [] result
               (Alternative.mk (Some items) None) [] items
               eq_refl eq_refl Hstarts).
    + reflexivity.
  - eexists. split.
    + exact (segments_are_the_runs true [] [] result
               (Alternative.mk (Some items) None) [] items
               eq_refl eq_refl Hstarts).
    + reflexivity.
Defined.

(** ** Speaker labels *)

Lemma split_from_no_separator (sep : ascii) (s : string) :
  occurs sep s = false ->
  forall cur, split_from sep cur s = [(cur ++ s)%string].
Proof.
  induction s as [|c s IH]; simpl; intros Hocc cur.
  - f_equal. induction cur; simpl; congruence.
  - apply orb_false_iff in Hocc. destruct Hocc as [Hc Hs].
    rewrite Hc, IH by assumption. f_equal.
    induction cur; simpl; congruence.
Qed.

Lemma split_from_not_nil (sep : ascii) (s : string) :
  forall cur, split_from sep cur s <> [].
Proof.
  induction s as [|c s IH]; simpl; intros cur; [discriminate|].
  destruct (Ascii.eqb c sep); [discriminate | apply IH].
Qed.

Lemma last_split_from (sep : ascii) (name prefix : string) :
  occurs sep name = false ->
  forall cur,
    last (split_from sep cur (prefix ++ String sep name)%string) "" = name.
Proof.
  intros Hocc. induction prefix as [|c prefix IH]; intros cur.
  - simpl. rewrite Ascii.eqb_refl, split_from_no_separator by assumption.
    reflexivity.
  - simpl. destruct (Ascii.eqb c sep).
    + specialize (IH ""%string).
      destruct (split_from sep "" (prefix ++ String sep name)) eqn:E; auto.
      now apply split_from_not_nil in E.
    + apply IH.
Qed.

(** X5. The label of a speaker block is what follows the last '#' of the
    external user id, or the whole id when it has no '#', followed by a
    colon and a space. *)
Theorem speaker_label_after_last_hash (id prefix name : string) :
  occurs "#"%char name = false ->
  speakerLabel (mkAttendee id (prefix ++ "#" ++ name)) = (name ++ ": ")%string
  /\ speakerLabel (mkAttendee id name) = (name ++ ": ")%string.
Proof.
  intros Hocc. unfold speakerLabel, split. simpl externalUserId. split.
  - change ("#" ++ name)%string with (String "#"%char name).
    now rewrite last_split_from.
  - now rewrite split_from_no_separator.
Qed.

Lemma speaker_label_after_last_hash_witness :
  occurs "#"%char "Alice" = false
  /\ speakerLabel (mkAttendee "a" "tenant#room#Alice") = "Alice: ".
Proof.
  split; [reflexivity|].
  exact (proj1 (speaker_label_after_last_hash "a" "tenant#room" "Alice" eq_refl)).
Defined.

(** ** Entities *)

Lemma has_add (x y : string) (s : JsSet.t) :
  JsSet.has x (JsSet.add y s) = JsSet.has x s || String.eqb x y.
Proof.
  unfold JsSet.add. destruct (JsSet.has y s) eqn:Hy.
  - destruct (String.eqb_spec x y) as [->|]; [|now rewrite orb_false_r].
    now rewrite Hy.
  - unfold JsSet.has. rewrite existsb_app. simpl. now rewrite orb_false_r.
Qed.

Lemma has_add_all (x : string) (l : list string) :
  forall s,
    JsSet.has x (fold_left (fun acc c => JsSet.add c acc) l s)
    = JsSet.has x s || existsb (String.eqb x) l.
Proof.
  induction l as [|y l IH]; intros s; simpl.
  - now rewrite orb_false_r.
  - now rewrite IH, has_add, orb_assoc.
Qed.

Lemma has_addEntities (x : string) (entities : list Entity.t) :
  forall s,
    JsSet.has x (addEntities entities s)
    = JsSet.has x s || existsb (String.eqb x) (entityTokens entities).
Proof.
  unfold addEntities, entityTokens.
  induction entities as [|e entities IH]; intros s; simpl.
  - now rewrite orb_false_r.
  - now rewrite IH, has_add_all, existsb_app, orb_assoc.
Qed.

(** X6. What the entity block of the loop does to the entity set: a partial
    result leaves it as it is; a finalized result adds the tokens that its
    entities give when split at spaces, and nothing else. *)
Theorem entity_tokens_added (result : Result.t) (s s' : JsSet.t) (x : string) :
  extractEntities result s = Some s' ->
  JsSet.has x s'
  = JsSet.has x s
    || (negb (Result.isPartial result)
        && existsb (String.eqb x) (entityTokens (entitiesOf result))).
Proof.
  unfold extractEntities, entitiesOf.
  destruct (Result.isPartial result); simpl.
  - intros H. injection H as <-. now rewrite orb_false_r.
  - destruct (Result.alternatives result) as [|alternative others];
      [discriminate|].
    destruct (Alternative.entities alternative) as [[|e es]|];
      intros H; injection H as <-.
    + simpl. now rewrite orb_false_r.
    + rewrite has_addEntities, has_add_all. unfold entityTokens. simpl.
      now rewrite existsb_app, orb_assoc.
    + simpl. now rewrite orb_false_r.
Qed.

Lemma entity_tokens_added_witness :
  let F := finalResult "f" [word bob "John" 600 700]
                       (Some [Entity.mk "John Smith"; Entity.mk "Oslo"]) 900 in
  exists s',
    extractEntities F [] = Some s'
    /\ JsSet.has "Smith" s' = true
    /\ JsSet.has "John Smith" s' = false.
Proof.
  intros F. eexists. split; [reflexivity|].
  rewrite !(entity_tokens_added F [] _ _ eq_refl). split; reflexivity.
Defined.

(** ** What a call leaves of the page *)

Lemma nth_error_updateAt_other {A} (f : A -> A) (l : list A) :
  forall i j, i <> j -> nth_error (updateAt i f l) j = nth_error l j.
Proof.
  induction l as [|x l IH]; intros [|i] [|j] Hne; simpl; auto.
  congruence.
Qed.

Lemma advances_refl (app : App) : advances app app.
Proof.
  split; [lia|]. split; [exists []; now rewrite app_nil_r|]. auto.
Qed.

Lemma advances_trans (a b c : App) :
  advances a b -> advances b c -> advances a c.
Proof.
  intros (Hlen1 & (added1 & Hc1) & Hk1) (Hlen2 & (added2 & Hc2) & Hk2).
  split; [lia|]. split.
  - exists (added1 ++ added2). now rewrite Hc2, Hc1, app_assoc.
  - intros j Hj Hcur. destruct (Hk1 j Hj Hcur) as [Hn1 Hcur1].
    destruct (Hk2 j) as [Hn2 Hcur2]; [lia | assumption |].
    split; congruence.
Qed.

(** A change that leaves the store of blocks alone and keeps or forgets the
    current block. *)
Lemma advances_fields (app app' : App) (added : list ContainerChild) :
  divStore app' = divStore app ->
  transcriptContainerDiv app' = transcriptContainerDiv app ++ added ->
  partialTranscriptDiv app' = partialTranscriptDiv app
  \/ partialTranscriptDiv app' = None ->
  advances app app'.
Proof.
  intros Hstore Hc Hdiv. split; [rewrite Hstore; lia|]. split; [eauto|].
  intros j _ Hcur. rewrite Hstore. split; auto.
  destruct Hdiv as [-> | ->]; [assumption | discriminate].
Qed.

Lemma update_advances (app : App) :
  advances app (stateOf (updatePartialTranscriptDiv app)).
Proof.
  unfold updatePartialTranscriptDiv.
  destruct (partialTranscriptDiv app) as [ref|] eqn:Hdiv; [|apply advances_refl].
  simpl. destruct (renderedSpeakerDivs _ _ _); simpl;
    (split; [simpl; rewrite ?length_updateAt; lia|];
     split; [exists []; simpl; now rewrite app_nil_r|];
     intros j _ Hcur; simpl; split; [|exact Hcur];
     rewrite Hdiv in Hcur;
     rewrite !nth_error_updateAt_other; congruence).
Qed.

Lemma render_advances (app : App) :
  advances app (stateOf (renderPartialTranscriptResults app)).
Proof.
  unfold renderPartialTranscriptResults.
  destruct (partialTranscriptDiv app) as [ref|] eqn:Hdiv; [apply update_advances|].
  set (app1 := set_partialTranscriptDiv (Some (List.length (divStore app)))
                 (set_divStore (divStore app ++ [[]]) app)).
  assert (H1 : advances app app1).
  { split; [simpl; rewrite length_app; simpl; lia|].
    split; [exists []; simpl; now rewrite app_nil_r|].
    intros j Hj _. simpl. split.
    - now rewrite nth_error_app1.
    - intros H. injection H as H. lia. }
  pose proof (update_advances app1) as H2.
  destruct (updatePartialTranscriptDiv app1) as [app2|app2]; simpl in *.
  - eapply advances_trans; [exact H1|]. eapply advances_trans; [exact H2|].
    eapply advances_fields; simpl; eauto.
  - eapply advances_trans; eauto.
Qed.

Lemma processResult_advances (app : App) (result : Result.t) :
  advances app (stateOf (processResult app result)).
Proof.
  unfold processResult.
  set (app1 := if isNoWordSeparatorLanguage (Result.languageCode result)
               then set_noWordSeparatorForTranscription true app else app).
  assert (H1 : advances app app1).
  { unfold app1. destruct (isNoWordSeparatorLanguage _); [|apply advances_refl].
    apply (advances_fields _ _ []); simpl; auto. now rewrite app_nil_r. }
  destruct (extractEntities result (transcriptEntitySet app1)) as [entitySet|];
    [|exact H1].
  set (app2 := upsertResult result (set_transcriptEntitySet entitySet app1)).
  assert (H2 : advances app1 app2).
  { apply (advances_fields _ _ []); simpl; auto. now rewrite app_nil_r. }
  pose proof (render_advances app2) as H3.
  assert (H13 : advances app (stateOf (renderPartialTranscriptResults app2)))
    by (eauto using advances_trans).
  destruct (renderPartialTranscriptResults app2) as [app3|app3]; simpl in *;
    [|exact H13].
  destruct (Result.isPartial result); [exact H13|]. simpl.
  eapply advances_trans; [exact H13|].
  destruct (finalizeResult_fields result app3)
    as (_ & _ & Hdiv & _ & Hc & _ & _ & Hstore).
  apply (advances_fields _ _ []); auto.
  - now rewrite app_nil_r.
  - rewrite Hdiv. destruct (Nat.eqb _ 0); auto.
Qed.

Lemma processResults_advances (results : list Result.t) :
  forall app, advances app (stateOf (processResults app results)).
Proof.
  induction results as [|result results IH]; simpl; intros app;
    [apply advances_refl|].
  pose proof (processResult_advances app result) as H.
  destruct (processResult app result) as [app1|app1]; simpl in H; auto.
  eauto using advances_trans.
Qed.

Lemma handler_advances (app : App) (event : TranscriptEvent) :
  advances app (stateOf (transcriptEventHandler app event)).
Proof.
  unfold transcriptEventHandler.
  set (app1 := if negb (enableLiveTranscription app)
               then set_enableLiveTranscription true app else app).
  assert (H1 : advances app app1).
  { unfold app1. destruct (negb _); [|apply advances_refl].
    apply (advances_fields _ _ []); simpl; auto. now rewrite app_nil_r. }
  clearbody app1. destruct event as [status|results].
  - eapply advances_trans; [exact H1|].
    destruct (Status.type status).
    + destruct (configuredLanguageCode _);
        [destruct (isNoWordSeparatorLanguage _)|];
        apply (advances_fields _ _ [StatusDiv status]); simpl; auto.
    + destruct (enableLiveTranscription _);
        apply (advances_fields _ _ [StatusDiv status]); simpl; auto.
    + destruct (enableLiveTranscription _);
        apply (advances_fields _ _ [StatusDiv status]); simpl; auto.
  - eapply advances_trans; [exact H1 | apply processResults_advances].
Qed.

Lemma deliver_advances (events : list TranscriptEvent) :
  forall app, advances app (deliver app events).
Proof.
  induction events as [|e events IH]; simpl; intros app; [apply advances_refl|].
  eauto using advances_trans, handler_advances.
Qed.

(** X7. The transcript container is only appended to: after any sequence
    of events, whether their calls complete or throw, its children are the
    earlier ones, in the same order, followed by those added since. *)
Theorem transcript_container_only_grows (app : App)
    (events : list TranscriptEvent) :
  exists added,
    transcriptContainerDiv (deliver app events)
    = transcriptContainerDiv app ++ added.
Proof.
  now destruct (deliver_advances events app) as (_ & H & _).
Qed.

(** X8. A block that is not the current block is never written again:
    whatever events follow, its children stay as they are and it does not
    become the current block again. *)
Theorem retired_blocks_keep_their_content (app : App)
    (events : list TranscriptEvent) (j : nat) :
  (j < List.length (divStore app))%nat ->
  partialTranscriptDiv app <> Some j ->
  nth_error (divStore (deliver app events)) j = nth_error (divStore app) j
  /\ partialTranscriptDiv (deliver app events) <> Some j.
Proof.
  intros Hj Hcur.
  destruct (deliver_advances events app) as (_ & _ & H). now apply H.
Qed.

Lemma retired_blocks_keep_their_content_witness :
  let F := finalResult "f" [word bob "fine" 600 700; fullStop bob 700 710]
                       None 710 in
  let P := partialResult "a" [word alice "hello" 1100 1500] 1500 in
  let app := deliver initialApp [Transcript [F]] in
  (0 < List.length (divStore app))%nat
  /\ partialTranscriptDiv app <> Some 0%nat
  /\ nth_error (divStore (deliver app [Transcript [P]; TranscriptionStatus stopped])) 0
     = nth_error (divStore app) 0
  /\ List.length (divStore (deliver app [Transcript [P]])) = 2%nat.
Proof.
  intros F P app.
  assert (Hlen : (0 < List.length (divStore app))%nat) by (vm_compute; lia).
  assert (Hcur : partialTranscriptDiv app <> Some 0%nat)
    by (vm_compute; discriminate).
  split; [exact Hlen|]. split; [exact Hcur|]. split.
  - exact (proj1 (retired_blocks_keep_their_content app
                    [Transcript [P]; TranscriptionStatus stopped] 0 Hlen Hcur)).
  - vm_compute. reflexivity.
Defined.

(** ** The current block and the store *)

Lemma render_sets_block (app : App) :
  partialTranscriptDiv (stateOf (renderPartialTranscriptResults app)) <> None.
Proof.
  unfold renderPartialTranscriptResults.
  destruct (partialTranscriptDiv app) as [ref|] eqn:Hdiv.
  - destruct (update_frame app) as (_ & _ & _ & -> & _). congruence.
  - match goal with |- context [updatePartialTranscriptDiv ?x] =>
      pose proof (update_frame x) as H;
      destruct (updatePartialTranscriptDiv x) end;
    simpl in *; destruct H as (_ & _ & _ & -> & _); discriminate.
Qed.

Lemma get_evictOlder_Some resultId resultEndTimeMs k entries timeMap :
  JsMap.get k (evictOlder resultId resultEndTimeMs entries timeMap) <> None ->
  JsMap.get k timeMap <> None.
Proof.
  rewrite get_evictOlder. now destruct (evictedBefore _ _ _ _).
Qed.

Lemma get_delete_Some {V} (m : JsMap.t V) k k' :
  JsMap.get k' (JsMap.delete k m) <> None -> JsMap.get k' m <> None.
Proof.
  destruct (String.eqb_spec k k') as [->|Hne].
  - now rewrite get_delete_same.
  - now rewrite get_delete_other.
Qed.

Lemma processResult_blockFollowsStore (app : App) (result : Result.t) :
  blockFollowsStore app ->
  blockFollowsStore (stateOf (processResult app result)).
Proof.
  intros Hinv. unfold processResult.
  set (app1 := if isNoWordSeparatorLanguage (Result.languageCode result)
               then set_noWordSeparatorForTranscription true app else app).
  assert (H1 : blockFollowsStore app1)
    by (unfold app1; destruct (isNoWordSeparatorLanguage _); exact Hinv).
  assert (Htm1 : partialTranscriptResultTimeMap app1
                 = partialTranscriptResultTimeMap app)
    by (unfold app1; now destruct (isNoWordSeparatorLanguage _)).
  assert (Hrm1 : partialTranscriptResultMap app1
                 = partialTranscriptResultMap app)
    by (unfold app1; now destruct (isNoWordSeparatorLanguage _)).
  destruct (extractEntities result (transcriptEntitySet app1)) as [entitySet|];
    [|exact H1].
  set (app2 := upsertResult result (set_transcriptEntitySet entitySet app1)).
  pose proof (render_frame app2) as Hframe.
  pose proof (render_sets_block app2) as Hblock.
  cbv zeta in Hframe. destruct Hframe as (_ & _ & Htm & Hrm & _).
  simpl in Htm, Hrm. rewrite Htm1 in Htm. rewrite Hrm1 in Hrm.
  destruct Hinv as (_ & _ & Hkeys).
  assert (H3 : blockFollowsStore (stateOf (renderPartialTranscriptResults app2))).
  { split; [|split].
    - rewrite Htm. split; [contradiction|].
      intros H. now apply set_not_nil in H.
    - rewrite Htm. intros H. now apply set_not_nil in H.
    - intros k. rewrite Htm, Hrm.
      destruct (String.eqb_spec (Result.resultId result) k) as [<-|Hne].
      + rewrite !get_set_same. discriminate.
      + rewrite !get_set_other by assumption. apply Hkeys. }
  destruct (renderPartialTranscriptResults app2) as [app3|app3]; simpl in *;
    [|exact H3].
  destruct (Result.isPartial result); [exact H3|]. simpl.
  destruct (finalizeResult_fields result app3)
    as (Htm' & Hrm' & Hdiv' & _).
  cbv zeta in Htm'. unfold blockFollowsStore. rewrite Htm', Hrm', Hdiv'.
  destruct (Nat.eqb _ 0) eqn:Hsize.
  - apply size_zero_nil in Hsize. rewrite Hsize.
    repeat split; auto; intros k H; now contradiction H.
  - assert (Hnil : JsMap.delete (Result.resultId result)
                     (evictOlder (Result.resultId result) (Result.endTimeMs result)
                        (partialTranscriptResultTimeMap app3)
                        (partialTranscriptResultTimeMap app3)) <> []).
    { intros H. apply size_zero_nil in H. congruence. }
    split; [split; intros H; contradiction|]. split; [intros H; contradiction|].
    intros k H. apply get_delete_Some, get_evictOlder_Some in H.
    destruct H3 as (_ & _ & H3). now apply H3.
Qed.

Lemma processResults_blockFollowsStore (results : list Result.t) :
  forall app,
    blockFollowsStore app ->
    blockFollowsStore (stateOf (processResults app results)).
Proof.
  induction results as [|result results IH]; simpl; intros app Hinv; auto.
  pose proof (processResult_blockFollowsStore app result Hinv) as H.
  destruct (processResult app result); auto.
Qed.

Lemma handler_blockFollowsStore (app : App) (event : TranscriptEvent) :
  blockFollowsStore app ->
  blockFollowsStore (stateOf (transcriptEventHandler app event)).
Proof.
  intros Hinv. unfold transcriptEventHandler.
  set (app1 := if negb (enableLiveTranscription app)
               then set_enableLiveTranscription true app else app).
  assert (H1 : blockFollowsStore app1)
    by (unfold app1; destruct (negb _); exact Hinv).
  clearbody app1. destruct event as [status|results].
  - assert (Hcleared : forall a,
              partialTranscriptDiv a = None ->
              partialTranscriptResultTimeMap a = [] ->
              partialTranscriptResultMap a = [] -> blockFollowsStore a).
    { intros a Hd Ht Hr. unfold blockFollowsStore. rewrite Hd, Ht, Hr.
      repeat split; auto; intros k H; now contradiction H. }
    destruct (Status.type status).
    + destruct (configuredLanguageCode _);
        [destruct (isNoWordSeparatorLanguage _)|]; exact H1.
    + destruct (enableLiveTranscription _); [now apply Hcleared | exact H1].
    + destruct (enableLiveTranscription _); [now apply Hcleared | exact H1].
  - now apply processResults_blockFollowsStore.
Qed.

(** X9. After any sequence of events, whether their calls complete or
    throw, there is a current block exactly when the time map tracks some
    result, and the result map is empty exactly when the time map is. *)
Theorem block_exists_while_results_are_tracked (enabled : bool)
    (events : list TranscriptEvent) :
  let app := deliver (freshApp enabled) events in
  (partialTranscriptDiv app = None <-> partialTranscriptResultTimeMap app = [])
  /\ (partialTranscriptResultTimeMap app = []
      <-> partialTranscriptResultMap app = []).
Proof.
  assert (Hinv : forall evs app,
            blockFollowsStore app -> blockFollowsStore (deliver app evs)).
  { induction evs as [|e evs IH]; simpl; intros app H; auto.
    apply IH. now apply handler_blockFollowsStore. }
  destruct (Hinv events (freshApp enabled)) as (Hblock & Hempty & Hkeys).
  { unfold blockFollowsStore. simpl.
    repeat split; auto; intros k H; now contradiction H. }
  simpl. split; [exact Hblock|]. split; [exact Hempty|].
  intros Hrm.
  destruct (partialTranscriptResultTimeMap (deliver (freshApp enabled) events))
    as [|[k t] m] eqn:Htm; auto.
  exfalso. apply (Hkeys k).
  - simpl. rewrite String.eqb_refl. discriminate.
  - now rewrite Hrm.
Qed.

(** ** The two flags *)

Ltac flags_done :=
  repeat split; intros; try discriminate; try reflexivity;
  try match goal with H : ?f = true |- (?f || _) = true => rewrite H; reflexivity end;
  auto.

Lemma processResult_flags (app : App) (result : Result.t) :
  let a := stateOf (processResult app result) in
  enableLiveTranscription a = enableLiveTranscription app
  /\ (noWordSeparatorForTranscription app = true ->
      noWordSeparatorForTranscription a = true)
  /\ (completes (processResult app result) = true ->
      noWordSeparatorForTranscription a
      = noWordSeparatorForTranscription app
        || isNoWordSeparatorLanguage (Result.languageCode result)).
Proof.
  unfold processResult.
  set (app1 := if isNoWordSeparatorLanguage (Result.languageCode result)
               then set_noWordSeparatorForTranscription true app else app).
  assert (He : enableLiveTranscription app1 = enableLiveTranscription app)
    by (unfold app1; now destruct (isNoWordSeparatorLanguage _)).
  assert (Hf : noWordSeparatorForTranscription app1
               = noWordSeparatorForTranscription app
                 || isNoWordSeparatorLanguage (Result.languageCode result)).
  { unfold app1. destruct (isNoWordSeparatorLanguage _); simpl.
    - now rewrite orb_true_r.
    - now rewrite orb_false_r. }
  clearbody app1.
  destruct (extractEntities result (transcriptEntitySet app1)) as [entitySet|].
  - match goal with |- context [renderPartialTranscriptResults ?x] =>
      pose proof (render_frame x) as Hframe;
      destruct (renderPartialTranscriptResults x) as [app3|app3] end;
      cbv zeta in Hframe; simpl in Hframe;
      destruct Hframe as (He3 & Hf3 & _).
    + destruct (Result.isPartial result); simpl.
      * rewrite He3, Hf3, He, Hf. flags_done.
      * destruct (finalizeResult_fields result app3)
          as (_ & _ & _ & _ & _ & -> & -> & _).
        rewrite He3, Hf3, He, Hf. flags_done.
    + simpl. rewrite He3, Hf3, He, Hf. flags_done.
  - simpl. rewrite He, Hf. flags_done.
Qed.

Lemma processResults_flags (results : list Result.t) :
  forall app,
    let a := stateOf (processResults app results) in
    enableLiveTranscription a = enableLiveTranscription app
    /\ (noWordSeparatorForTranscription app = true ->
        noWordSeparatorForTranscription a = true)
    /\ (completes (processResults app results) = true ->
        noWordSeparatorForTranscription a
        = noWordSeparatorForTranscription app
          || existsb isNoWordSeparatorLanguage
                     (List.map Result.languageCode results)).
Proof.
  induction results as [|result results IH]; intros app; simpl.
  - repeat split; auto. now rewrite orb_false_r.
  - pose proof (processResult_flags app result) as H. cbv zeta in H.
    destruct (processResult app result) as [app1|app1]; simpl in H.
    + destruct H as (He & Hs & Hf). specialize (Hf eq_refl).
      destruct (IH app1) as (He' & Hs' & Hf'). cbv zeta.
      rewrite He', He. repeat split; auto.
      intros Hc. rewrite (Hf' Hc), Hf. now rewrite orb_assoc.
    + destruct H as (He & Hs & _). simpl. repeat split; auto. discriminate.
Qed.

(** The handler past its first block: transcription counts as enabled
    unless the event was a STOPPED or FAILED status. *)
Lemma handler_enabled (app : App) (event : TranscriptEvent) :
  enableLiveTranscription (stateOf (transcriptEventHandler app event))
  = negb (isStopOrFail event).
Proof.
  unfold transcriptEventHandler.
  set (app1 := if negb (enableLiveTranscription app)
               then set_enableLiveTranscription true app else app).
  assert (H1 : enableLiveTranscription app1 = true)
    by (unfold app1; now destruct (enableLiveTranscription app) eqn:E).
  clearbody app1. destruct event as [status|results]; simpl.
  - destruct (Status.type status); simpl.
    + destruct (configuredLanguageCode _);
        [destruct (isNoWordSeparatorLanguage _)|]; exact H1.
    + now rewrite H1.
    + now rewrite H1.
  - destruct (processResults_flags results app1) as (-> & _). exact H1.
Qed.

(** X10. A call of the handler, first block included. When the call is
    entered with transcription disabled and [setButtonVisibility] throws in
    the first block, the call ends there: it throws, the event is not looked
    at, and transcription counts as enabled. In every other case the call
    leaves transcription enabled unless the event was a STOPPED or FAILED
    status, and then disabled, whether the rest of the call completes or not;
    a call entered with transcription enabled leaves the page as it was. *)
Theorem enabled_unless_stopped (app : App) (page : Page)
    (event : TranscriptEvent) :
  let firstBlockThrows :=
    negb (enableLiveTranscription app)
    && negb (returns (setButtonVisibility "button-live-transcription" true
                                          (Some Off) page)) in
  let call := transcriptEventHandlerOnPage app page event in
  enableLiveTranscription (stateOf (fst call))
  = (if firstBlockThrows then true else negb (isStopOrFail event))
  /\ (firstBlockThrows = true ->
      fst call = Throw (set_enableLiveTranscription true app))
  /\ (enableLiveTranscription app = true ->
      call = (transcriptEventHandler app event, page)).
Proof.
  unfold transcriptEventHandlerOnPage, showLiveTranscription.
  destruct (enableLiveTranscription app) eqn:Henabled; simpl.
  - split; [apply handler_enabled|]. split; [discriminate | reflexivity].
  - destruct (setButtonVisibility _ _ _ page) as [page1|page1]; simpl.
    + split; [apply handler_enabled|]. split; discriminate.
    + split; [reflexivity|]. split; [reflexivity | discriminate].
Qed.

Lemma enabled_unless_stopped_witness :
  let app := freshApp false in
  let noButton := mkPage initialButtonStates [] in
  enableLiveTranscription app = false
  /\ fst (transcriptEventHandlerOnPage app noButton
                                       (TranscriptionStatus stopped))
     = Throw (freshApp true)
  /\ fst (transcriptEventHandlerOnPage (freshApp true) noButton
                                       (TranscriptionStatus stopped))
     = transcriptEventHandler (freshApp true) (TranscriptionStatus stopped)
  /\ enableLiveTranscription
       (stateOf (fst (transcriptEventHandlerOnPage app examplePage
                        (TranscriptionStatus stopped)))) = false
  /\ enableLiveTranscription
       (stateOf (fst (transcriptEventHandlerOnPage app examplePage
                        (Transcript [noAlternative "r" 100])))) = true.
Proof.
  intros app noButton. split; [reflexivity|]. split; [|split; [|split]].
  - exact (proj1 (proj2 (enabled_unless_stopped app noButton
                           (TranscriptionStatus stopped))) eq_refl).
  - exact (f_equal fst
             (proj2 (proj2 (enabled_unless_stopped (freshApp true) noButton
                              (TranscriptionStatus stopped))) eq_refl)).
  - exact (proj1 (enabled_unless_stopped app examplePage
                    (TranscriptionStatus stopped))).
  - exact (proj1 (enabled_unless_stopped app examplePage
                    (Transcript [noAlternative "r" 100]))).
Defined.

(** X11. Only a STOPPED or FAILED status resets
    noWordSeparatorForTranscription. After any other event whose call
    completes, the flag is set exactly when it was set before or the event
    carries a language code of the set without word separator; a call that
    throws never clears it either. *)
Theorem separator_flag_is_sticky (app : App) (event : TranscriptEvent) :
  let c := transcriptEventHandler app event in
  (isStopOrFail event = true ->
   noWordSeparatorForTranscription (stateOf c) = false)
  /\ (isStopOrFail event = false ->
      (noWordSeparatorForTranscription app = true ->
       noWordSeparatorForTranscription (stateOf c) = true)
      /\ (completes c = true ->
          noWordSeparatorForTranscription (stateOf c)
          = noWordSeparatorForTranscription app
            || existsb isNoWordSeparatorLanguage (eventLanguageCodes event))).
Proof.
  unfold transcriptEventHandler.
  set (app1 := if negb (enableLiveTranscription app)
               then set_enableLiveTranscription true app else app).
  assert (H1 : noWordSeparatorForTranscription app1
               = noWordSeparatorForTranscription app)
    by (unfold app1; now destruct (negb _)).
  assert (He : enableLiveTranscription app1 = true)
    by (unfold app1; now destruct (enableLiveTranscription app) eqn:E).
  clearbody app1. destruct event as [status|results]; simpl.
  - destruct (Status.type status); simpl.
    + split; [discriminate|]. intros _.
      destruct (configuredLanguageCode _) as [languageCode|]; simpl.
      * destruct (isNoWordSeparatorLanguage languageCode); simpl;
          rewrite ?H1, ?orb_true_r, ?orb_false_r; auto.
      * rewrite H1. split; [auto | discriminate].
    + rewrite He. simpl. split; [auto | discriminate].
    + rewrite He. simpl. split; [auto | discriminate].
  - split; [discriminate|]. intros _.
    destruct (processResults_flags results app1) as (_ & Hs & Hf).
    rewrite H1 in *. auto.
Qed.

Lemma separator_flag_is_sticky_witness :
  let japanese :=
    Status.mk STARTED 1000 "us-east-1"
      (Configuration (Some (mkEngineSettings (Some "ja-JP"))) None) None in
  let english :=
    Status.mk STARTED 2000 "us-east-1"
      (Configuration (Some (mkEngineSettings (Some "en-US"))) None) None in
  noWordSeparatorForTranscription
    (deliver initialApp [TranscriptionStatus japanese;
                         TranscriptionStatus english]) = true.
Proof.
  intros japanese english. simpl deliver.
  destruct (separator_flag_is_sticky
              (stateOf (transcriptEventHandler initialApp
                          (TranscriptionStatus japanese)))
              (TranscriptionStatus english)) as [_ Hkeep].
  destruct (Hkeep eq_refl) as [Hsticky _].
  apply Hsticky.
  destruct (separator_flag_is_sticky initialApp (TranscriptionStatus japanese))
    as [_ Hset].
  destruct (Hset eq_refl) as [_ Hexact].
  rewrite (Hexact eq_refl). reflexivity.
Defined.

(** ** A stored result that cannot be rendered *)

Lemma processResult_stuck (app : App) (k : string) (bad result : Result.t) :
  JsMap.get k (partialTranscriptResultMap app) = Some bad ->
  hasItems bad = false ->
  Result.resultId result <> k ->
  completes (processResult app result) = false
  /\ JsMap.get k (partialTranscriptResultMap (stateOf (processResult app result)))
     = Some bad.
Proof.
  intros Hget Hbad Hne. unfold processResult.
  set (app1 := if isNoWordSeparatorLanguage (Result.languageCode result)
               then set_noWordSeparatorForTranscription true app else app).
  assert (Hrm1 : partialTranscriptResultMap app1
                 = partialTranscriptResultMap app)
    by (unfold app1; now destruct (isNoWordSeparatorLanguage _)).
  destruct (extractEntities result (transcriptEntitySet app1)) as [entitySet|];
    [|simpl; now rewrite Hrm1].
  set (app2 := upsertResult result (set_transcriptEntitySet entitySet app1)).
  assert (Hget2 : JsMap.get k (partialTranscriptResultMap app2) = Some bad).
  { simpl. rewrite Hrm1, get_set_other; assumption. }
  pose proof (render_throws app2 bad) as Hthrow.
  pose proof (render_frame app2) as Hframe. cbv zeta in Hframe.
  destruct Hframe as (_ & _ & _ & Hrm & _).
  destruct (renderPartialTranscriptResults app2) as [app3|app3]; simpl in *.
  - exfalso. assert (H : true = false); [|discriminate H].
    apply Hthrow; auto.
    apply get_In in Hget2. apply (in_map snd) in Hget2. exact Hget2.
  - split; auto. now rewrite Hrm.
Qed.

(** X12. A stored result without a best alternative or without items array
    blocks the pipeline: every later batch that starts with a result of
    another resultId makes the call throw at that result, and the unusable
    result stays stored. *)
Theorem unusable_result_blocks_later_batches (app : App) (k : string)
    (bad result : Result.t) (rest : list Result.t) :
  JsMap.get k (partialTranscriptResultMap app) = Some bad ->
  hasItems bad = false ->
  Result.resultId result <> k ->
  let c := transcriptEventHandler app (Transcript (result :: rest)) in
  completes c = false
  /\ JsMap.get k (partialTranscriptResultMap (stateOf c)) = Some bad.
Proof.
  intros Hget Hbad Hne. unfold transcriptEventHandler. simpl.
  set (app1 := if negb (enableLiveTranscription app)
               then set_enableLiveTranscription true app else app).
  assert (Hget1 : JsMap.get k (partialTranscriptResultMap app1) = Some bad)
    by (unfold app1; now destruct (negb _)).
  destruct (processResult_stuck app1 k bad result Hget1 Hbad Hne) as [Hc Hk].
  destruct (processResult app1 result); [discriminate Hc | auto].
Qed.

Lemma unusable_result_blocks_later_batches_witness :
  let app := deliver initialApp [Transcript [noAlternative "p" 100]] in
  let good := partialResult "t" [word alice "hello" 100 500] 500 in
  JsMap.get "p" (partialTranscriptResultMap app) = Some (noAlternative "p" 100)
  /\ hasItems (noAlternative "p" 100) = false
  /\ Result.resultId good <> "p"
  /\ completes (transcriptEventHandler app (Transcript [good])) = false.
Proof.
  intros app good.
  assert (Hget : JsMap.get "p" (partialTranscriptResultMap app)
                 = Some (noAlternative "p" 100)) by (vm_compute; reflexivity).
  assert (Hne : Result.resultId good <> "p") by discriminate.
  split; [exact Hget|]. split; [reflexivity|]. split; [exact Hne|].
  exact (proj1 (unusable_result_blocks_later_batches app "p"
                  (noAlternative "p" 100) good [] Hget eq_refl Hne)).
Defined.

(** * Button states *)

Lemma set_set {V} (m : JsMap.t V) k v v' :
  JsMap.set k v (JsMap.set k v' m) = JsMap.set k v m.
Proof.
  induction m as [|[k0 v0] m IH]; simpl.
  - now rewrite String.eqb_refl.
  - destruct (String.eqb k0 k) eqn:E; simpl; rewrite E; congruence.
Qed.

Lemma displayButtonStates_states (page : Page) :
  buttonStates (outcomeState (displayButtonStates page)) = buttonStates page.
Proof.
  unfold displayButtonStates. now destruct (displayButtons _ _ _).
Qed.

(** X13. [toggleButton] without a state turns a button that is on off and
    any other button on, be it off, disabled or unknown, and leaves the
    states of the other buttons alone, whether or not the display of the
    states throws. Toggling twice restores the states when the button was on
    or off; a disabled button does not become disabled again. *)
Theorem toggle_flips_the_state (button : string) (page : Page) :
  let page' := outcomeState (toggleButton button None page) in
  JsMap.get button (buttonStates page')
  = Some (if isButtonOn button (buttonStates page) then Off else On)
  /\ (forall other,
        other <> button ->
        JsMap.get other (buttonStates page')
        = JsMap.get other (buttonStates page))
  /\ (JsMap.get button (buttonStates page) = Some On
      \/ JsMap.get button (buttonStates page) = Some Off ->
      buttonStates (outcomeState (toggleButton button None page'))
      = buttonStates page)
  /\ (JsMap.get button (buttonStates page) = Some Disabled ->
      JsMap.get button
        (buttonStates (outcomeState (toggleButton button None page')))
      = Some Off).
Proof.
  cbv zeta. unfold toggleButton. rewrite !displayButtonStates_states.
  unfold isButtonOn. simpl.
  destruct (JsMap.get button (buttonStates page)) as [[| |]|] eqn:Hget;
    rewrite ?get_set_same; simpl; rewrite ?get_set_same;
    (split; [reflexivity|]);
    (split; [intros other Hne; now rewrite get_set_other by congruence|]);
    (split; [intros [H|H]; try discriminate H;
             rewrite set_set; now apply set_get_id
            |intros H; try discriminate H;
             rewrite ?get_set_same; reflexivity]).
Qed.

Lemma toggle_flips_the_state_witness :
  let page := mkPage initialButtonStates [] in
  JsMap.get "button-camera" (buttonStates page) = Some Off
  /\ isButtonOn "button-camera"
       (buttonStates (outcomeState (toggleButton "button-camera" None page)))
     = true
  /\ buttonStates
       (outcomeState
          (toggleButton "button-camera" None
             (outcomeState (toggleButton "button-camera" None page))))
     = initialButtonStates.
Proof.
  intros page.
  destruct (toggle_flips_the_state "button-camera" page)
    as (Hflip & _ & Htwice & _).
  split; [reflexivity|]. split.
  - unfold isButtonOn. now rewrite Hflip.
  - apply Htwice. right. reflexivity.
Defined.

Lemma toggleButton_state (button : string) (st : ButtonState) (page : Page) :
  buttonStates (outcomeState (toggleButton button (Some st) page))
  = JsMap.set button st (buttonStates page).
Proof. unfold toggleButton. now rewrite displayButtonStates_states. Qed.

(** A loop whose body gives the button the state [target button], or leaves
    it alone when there is none. *)
Lemma forEachButton_states (body : string -> Page -> Outcome Page)
    (target : string -> option ButtonState) :
  (forall b page,
     body b page = match target b with
                   | Some st => toggleButton b (Some st) page
                   | None => Done page
                   end) ->
  forall buttons page page',
    forEachButton body buttons page = Done page' ->
    (Forall (fun b => In b (JsMap.keys (buttonStates page))) buttons ->
     JsMap.keys (buttonStates page') = JsMap.keys (buttonStates page))
    /\ forall k,
         JsMap.get k (buttonStates page')
         = if existsb (String.eqb k) buttons
           then match target k with
                | Some st => Some st
                | None => JsMap.get k (buttonStates page)
                end
           else JsMap.get k (buttonStates page).
Proof.
  intros Hbody. induction buttons as [|b buttons IH]; simpl; intros page page' H.
  - injection H as <-. auto.
  - destruct (body b page) as [page1|page1] eqn:Hb; [|discriminate].
    destruct (IH _ _ H) as [Hkeys Hget].
    assert (H1 : buttonStates page1
                 = match target b with
                   | Some st => JsMap.set b st (buttonStates page)
                   | None => buttonStates page
                   end).
    { rewrite Hbody in Hb. destruct (target b) as [st|].
      - rewrite <- (toggleButton_state b st page). now rewrite Hb.
      - now injection Hb as <-. }
    split.
    + intros Hall. inversion Hall as [|? ? Hin Hrest]; subst.
      assert (Hk1 : JsMap.keys (buttonStates page1)
                    = JsMap.keys (buttonStates page)).
      { rewrite H1. destruct (target b); auto.
        apply keys_set_present. now rewrite get_None_keys. }
      rewrite Hkeys; [exact Hk1|]. now rewrite Hk1.
    + intros k. rewrite Hget, H1.
      destruct (String.eqb_spec k b) as [->|Hne]; simpl.
      * destruct (target b) as [st|]; [rewrite get_set_same|];
          now destruct (existsb _ buttons).
      * destruct (target b) as [st|]; [rewrite get_set_other by congruence|];
          reflexivity.
Qed.

Lemma existsb_keys {V} (m : JsMap.t V) k v :
  JsMap.get k m = Some v -> existsb (String.eqb k) (JsMap.keys m) = true.
Proof.
  induction m as [|[k' v'] m IH]; simpl; [discriminate|].
  rewrite (String.eqb_sym k k'). destruct (String.eqb k' k); auto.
Qed.

Lemma Forall_keys_self {V} (m : JsMap.t V) :
  Forall (fun b => In b (JsMap.keys m)) (JsMap.keys m).
Proof. apply Forall_forall. auto. Qed.

(** X14. When [updateUXForViewOnlyMode] returns, every button is disabled
    except the speaker, video statistics and live transcription buttons,
    which keep their state; no button is added or removed. *)
Theorem view_only_mode_disables_buttons (page page' : Page) :
  updateUXForViewOnlyMode page = Done page' ->
  JsMap.keys (buttonStates page') = JsMap.keys (buttonStates page)
  /\ forall button st,
       JsMap.get button (buttonStates page) = Some st ->
       JsMap.get button (buttonStates page')
       = Some (if keepsItsState button then st else Disabled).
Proof.
  intros H. unfold updateUXForViewOnlyMode in H.
  destruct (forEachButton_states
              (fun button page' =>
                 if keepsItsState button then Done page'
                 else toggleButton button (Some Disabled) page')
              (fun b => if keepsItsState b then None else Some Disabled)
              ltac:(intros b p; cbv beta; now destruct (keepsItsState b))
              _ _ _ H) as [Hkeys Hget].
  split; [apply Hkeys, Forall_keys_self|].
  intros button st Hst. rewrite Hget, (existsb_keys _ _ _ Hst), Hst.
  now destruct (keepsItsState button).
Qed.

(** X15. When [updateUXForReplicaMeetingPromotionState] returns, the
    speaker, video statistics and live transcription buttons keep their
    state; the promotion button is on after a promotion and off after a
    demotion; every other button is off after a promotion and disabled after
    a demotion, whatever it was before. *)
Theorem promotion_sets_button_states (isPromoted : bool) (page page' : Page) :
  updateUXForReplicaMeetingPromotionState isPromoted page = Done page' ->
  JsMap.keys (buttonStates page') = JsMap.keys (buttonStates page)
  /\ forall button st,
       JsMap.get button (buttonStates page) = Some st ->
       JsMap.get button (buttonStates page')
       = Some (if keepsItsState button then st
               else if String.eqb button "button-promote-to-primary"
               then (if isPromoted then On else Off)
               else (if isPromoted then Off else Disabled)).
Proof.
  intros H. unfold updateUXForReplicaMeetingPromotionState in H.
  destruct (forEachButton_states
              (fun button page' =>
                 if keepsItsState button then Done page'
                 else if String.eqb button "button-promote-to-primary"
                 then toggleButton button
                        (Some (if isPromoted then On else Off)) page'
                 else toggleButton button
                        (Some (if isPromoted then Off else Disabled)) page')
              (fun b => if keepsItsState b then None
                        else if String.eqb b "button-promote-to-primary"
                        then Some (if isPromoted then On else Off)
                        else Some (if isPromoted then Off else Disabled))
              ltac:(intros b p; cbv beta; destruct (keepsItsState b); auto;
                    now destruct (String.eqb b "button-promote-to-primary"))
              _ _ _ H) as [Hkeys Hget].
  split; [apply Hkeys, Forall_keys_self|].
  intros button st Hst. rewrite Hget, (existsb_keys _ _ _ Hst), Hst.
  destruct (keepsItsState button); auto.
  now destruct (String.eqb button "button-promote-to-primary").
Qed.

Lemma view_only_mode_disables_buttons_witness :
  exists page',
    updateUXForViewOnlyMode examplePage = Done page'
    /\ JsMap.get "button-camera" (buttonStates page') = Some Disabled
    /\ JsMap.get "button-speaker" (buttonStates page') = Some On.
Proof.
  eexists. split; [vm_compute; reflexivity|].
  match goal with |- JsMap.get _ (buttonStates ?p) = _ /\ _ =>
    assert (H : updateUXForViewOnlyMode examplePage = Done p)
      by (vm_compute; reflexivity);
    destruct (view_only_mode_disables_buttons _ _ H) as [_ Hget]
  end.
  split.
  - exact (Hget "button-camera" Off eq_refl).
  - exact (Hget "button-speaker" On eq_refl).
Defined.

Lemma promotion_sets_button_states_witness :
  exists page',
    updateUXForReplicaMeetingPromotionState false examplePage = Done page'
    /\ JsMap.get "button-microphone" (buttonStates page') = Some Disabled
    /\ JsMap.get "button-promote-to-primary" (buttonStates page') = Some Off.
Proof.
  eexists. split; [vm_compute; reflexivity|].
  match goal with |- JsMap.get _ (buttonStates ?p) = _ /\ _ =>
    assert (H : updateUXForReplicaMeetingPromotionState false examplePage
                = Done p) by (vm_compute; reflexivity);
    destruct (promotion_sets_button_states _ _ _ H) as [_ Hget]
  end.
  split.
  - exact (Hget "button-microphone" Off eq_refl).
  - exact (Hget "button-promote-to-primary" On eq_refl).
Defined.

(** X16. After [updateButtonVideoRecordingDrop], whether or not the display
    of the states throws: when each of the three recording buttons is on or
    off, the drop-down button is on exactly when one of them is on; when none
    is on and one of them is disabled or unknown, the states are left as
    they were. *)
Theorem recording_drop_follows_recordings (page : Page) :
  let states := buttonStates page in
  let states' := buttonStates (outcomeState (updateButtonVideoRecordingDrop page)) in
  let anyOn := isButtonOn "button-record-self" states
               || isButtonOn "button-record-cloud" states
               || isButtonOn "button-live-connector" states in
  ((forall b, In b ["button-record-self"; "button-record-cloud";
                    "button-live-connector"] ->
              JsMap.get b states = Some On \/ JsMap.get b states = Some Off) ->
   JsMap.get "button-video-recording-drop" states'
   = Some (if anyOn then On else Off))
  /\ (anyOn = false ->
      (exists b, In b ["button-record-self"; "button-record-cloud";
                       "button-live-connector"]
                 /\ JsMap.get b states <> Some On
                 /\ JsMap.get b states <> Some Off) ->
      states' = states).
Proof.
  cbv zeta. unfold updateButtonVideoRecordingDrop.
  rewrite displayButtonStates_states. simpl buttonStates.
  unfold stateIs, isButtonOn. split.
  - intros Hall.
    assert (H1 := Hall "button-record-self" ltac:(simpl; auto)).
    assert (H2 := Hall "button-record-cloud" ltac:(simpl; auto)).
    assert (H3 := Hall "button-live-connector" ltac:(simpl; auto)).
    destruct H1 as [H1|H1], H2 as [H2|H2], H3 as [H3|H3];
      rewrite H1, H2, H3; simpl; apply get_set_same.
  - intros Hnone (b & Hin & HnOn & HnOff).
    destruct (JsMap.get "button-record-self" (buttonStates page))
      as [[| |]|] eqn:H1;
      destruct (JsMap.get "button-record-cloud" (buttonStates page))
        as [[| |]|] eqn:H2;
      destruct (JsMap.get "button-live-connector" (buttonStates page))
        as [[| |]|] eqn:H3;
      simpl in *; try discriminate Hnone; try reflexivity;
      destruct Hin as [<-|[<-|[<-|[]]]]; congruence.
Qed.

Lemma recording_drop_follows_recordings_witness :
  let page := outcomeState (toggleButton "button-record-cloud" None examplePage) in
  JsMap.get "button-video-recording-drop"
    (buttonStates (outcomeState (updateButtonVideoRecordingDrop page)))
  = Some On.
Proof.
  intros page.
  destruct (recording_drop_follows_recordings page) as [Hdrop _].
  rewrite Hdrop; [reflexivity|].
  intros b [<-|[<-|[<-|[]]]]; vm_compute; auto.
Defined.

(** ** The display of the button states *)

Lemma In_classes_add (x c : string) (l : list string) :
  In x (classes_add c l) <-> x = c \/ In x l.
Proof.
  unfold classes_add. destruct (existsb (String.eqb c) l) eqn:E.
  - split; [auto|]. intros [->|H]; auto.
    apply existsb_exists in E. destruct E as (y & Hy & Heq).
    apply String.eqb_eq in Heq. now subst.
  - rewrite in_app_iff. simpl. intuition.
Qed.

Lemma In_classes_remove (x c : string) (l : list string) :
  In x (classes_remove c l) <-> In x l /\ x <> c.
Proof.
  unfold classes_remove. rewrite filter_In, negb_true_iff, String.eqb_neq.
  tauto.
Qed.

Lemma showOn_first (on : bool) (a b : string) (l : list string) :
  a <> b -> (In a (showOn on a b l) <-> on = true).
Proof.
  intros Hne. unfold showOn. rewrite In_classes_remove, In_classes_add.
  destruct on; intuition congruence.
Qed.

Lemma showOn_second (on : bool) (a b : string) (l : list string) :
  a <> b -> (In b (showOn on a b l) <-> on = false).
Proof.
  intros Hne. unfold showOn. rewrite In_classes_remove, In_classes_add.
  destruct on; intuition congruence.
Qed.

Lemma not_own_drop (button : string) : button <> (button ++ "-drop")%string.
Proof.
  induction button as [|c button IH]; simpl; [discriminate|].
  intros H. injection H as H. contradiction.
Qed.

Lemma displayButton_other (states : JsMap.t ButtonState) (b k : string)
    (els : JsMap.t Element.t) :
  k <> b -> k <> (b ++ "-drop")%string ->
  JsMap.get k (outcomeState (displayButton states b els)) = JsMap.get k els.
Proof.
  intros Hb Hd. unfold displayButton.
  destruct (JsMap.get b els) as [element|]; [|reflexivity].
  destruct (Element.firstElementChild element); simpl.
  - destruct (JsMap.get (b ++ "-drop")%string els); simpl;
      rewrite ?get_set_other by congruence; reflexivity.
  - now rewrite get_set_other by congruence.
Qed.

Lemma displayButton_self (states : JsMap.t ButtonState) (b : string)
    (els els' : JsMap.t Element.t) :
  displayButton states b els = Done els' ->
  exists element,
    JsMap.get b els' = Some element /\ reflectsState states b element.
Proof.
  unfold displayButton.
  destruct (JsMap.get b els) as [element|]; [|discriminate].
  destruct (Element.firstElementChild element) as [child|]; [|discriminate].
  assert (Hgood : reflectsState states b
            (Element.mk (Element.display element)
               (showOn (isButtonOn b states) "btn-success"
                       "btn-outline-secondary" (Element.classList element))
               (Some (showOn (isButtonOn b states) "svg-active" "svg-inactive"
                             child))
               (isButtonDisabled b states))).
  { unfold reflectsState. simpl.
    split; [apply showOn_first; discriminate|].
    split; [apply showOn_second; discriminate|].
    split; [|reflexivity].
    eexists. split; [reflexivity|].
    split; [apply showOn_first | apply showOn_second]; discriminate. }
  destruct (JsMap.get (b ++ "-drop")%string els); intros H; injection H as <-;
    eexists; (split; [|exact Hgood]).
  - rewrite get_set_other by (intros H; symmetry in H; now apply not_own_drop in H).
    apply get_set_same.
  - apply get_set_same.
Qed.

Lemma displayButtons_other (states : JsMap.t ButtonState) (k : string)
    (buttons : list string) :
  forall els,
    ~ In k buttons ->
    (forall b, In b buttons -> k <> (b ++ "-drop")%string) ->
    JsMap.get k (outcomeState (displayButtons states buttons els))
    = JsMap.get k els.
Proof.
  induction buttons as [|b buttons IH]; simpl; intros els Hnot Hdrop; auto.
  pose proof (displayButton_other states b k els) as H.
  destruct (displayButton states b els) as [els1|els1]; simpl in *.
  - rewrite IH by auto. apply H; auto.
  - apply H; auto.
Qed.

Lemma displayButtons_reflect (states : JsMap.t ButtonState)
    (buttons : list string) :
  forall els els',
    NoDup buttons ->
    (forall b b', In b buttons -> In b' buttons -> b <> (b' ++ "-drop")%string) ->
    displayButtons states buttons els = Done els' ->
    forall button,
      In button buttons ->
      exists element,
        JsMap.get button els' = Some element
        /\ reflectsState states button element.
Proof.
  induction buttons as [|b buttons IH]; simpl; intros els els' Hnd Hdrop H button Hin;
    [contradiction|].
  inversion Hnd as [|? ? Hnotin Hnd']; subst.
  destruct (displayButton states b els) as [els1|els1] eqn:Hb; [|discriminate].
  destruct Hin as [<-|Hin].
  - destruct (displayButton_self _ _ _ _ Hb) as (element & Hget & Hgood).
    exists element. split; auto.
    pose proof (displayButtons_other states b buttons els1 Hnotin) as Hother.
    rewrite H in Hother. simpl in Hother. rewrite Hother; auto.
  - apply (IH els1 els'); auto.
Qed.

(** X17. When [displayButtonStates] returns, the page shows the states: for
    every button, the element has the class btn-success exactly when the
    button is on and btn-outline-secondary exactly when it is not, its first
    child has svg-active or svg-inactive accordingly, and the element is
    disabled exactly when the button is. This needs that no button has the
    id of the drop-down of another one. *)
Theorem display_reflects_button_states (page page' : Page) :
  NoDup (JsMap.keys (buttonStates page)) ->
  (forall b b',
     In b (JsMap.keys (buttonStates page)) ->
     In b' (JsMap.keys (buttonStates page)) ->
     b <> (b' ++ "-drop")%string) ->
  displayButtonStates page = Done page' ->
  forall button,
    In button (JsMap.keys (buttonStates page)) ->
    exists element,
      JsMap.get button (elements page') = Some element
      /\ reflectsState (buttonStates page) button element.
Proof.
  intros Hnd Hdrop H button Hin. unfold displayButtonStates in H.
  destruct (displayButtons _ _ _) as [els|els] eqn:Hd; [|discriminate].
  injection H as <-. simpl.
  eapply displayButtons_reflect; eauto.
Qed.

Lemma initial_buttons_distinct : NoDup (JsMap.keys initialButtonStates).
Proof.
  repeat constructor;
    intros H; simpl in H;
    repeat (destruct H as [H|H]; [discriminate H|]); exact H.
Qed.

Lemma initial_buttons_no_drop (b b' : string) :
  In b (JsMap.keys initialButtonStates) ->
  In b' (JsMap.keys initialButtonStates) ->
  b <> (b' ++ "-drop")%string.
Proof.
  assert (H : forallb
                (fun x => forallb
                            (fun y => negb (String.eqb x (y ++ "-drop")))
                            (JsMap.keys initialButtonStates))
                (JsMap.keys initialButtonStates) = true)
    by (vm_compute; reflexivity).
  intros Hb Hb'. rewrite forallb_forall in H. specialize (H b Hb).
  rewrite forallb_forall in H. specialize (H b' Hb').
  apply negb_true_iff, String.eqb_neq in H. exact H.
Qed.

Lemma display_reflects_button_states_witness :
  exists page' element,
    displayButtonStates examplePage = Done page'
    /\ JsMap.get "button-speaker" (elements page') = Some element
    /\ In "btn-success" (Element.classList element).
Proof.
  eexists.
  match goal with |- exists element, ?d = Done ?p /\ _ =>
    assert (H : d = Done p) by (vm_compute; reflexivity);
    destruct (display_reflects_button_states examplePage p
                initial_buttons_distinct initial_buttons_no_drop H
                "button-speaker") as (element & Hget & Hon & _)
  end.
  - simpl. auto 10.
  - exists element. split; [exact H|]. split; [exact Hget|].
    apply Hon. reflexivity.
Defined.

(** * Chat messages *)

Lemma handler_timestamp (chat : Chat) (m : DataMessage.t) :
  lastReceivedMessageTimestamp (dataMessageHandler chat m)
  = if DataMessage.throttled m then lastReceivedMessageTimestamp chat
    else Z.max (lastReceivedMessageTimestamp chat) (DataMessage.timestampMs m).
Proof.
  unfold dataMessageHandler.
  destruct (DataMessage.throttled m); simpl; [reflexivity|].
  destruct (Z.leb_spec (DataMessage.timestampMs m)
                       (lastReceivedMessageTimestamp chat)).
  - lia.
  - destruct (String.eqb _ "quizForumQuestion"); simpl; [lia|].
    destruct (String.eqb _ "displayForm"); simpl; lia.
Qed.

(** X18. After any list of data messages, lastReceivedMessageTimestamp is
    the greatest timestamp among its earlier value and the messages that
    were not throttled, whatever their topics and senders; it never
    decreases. *)
Theorem last_timestamp_is_the_greatest (messages : list DataMessage.t)
    (chat : Chat) :
  lastReceivedMessageTimestamp (dataMessages chat messages)
  = latestTimestamp (lastReceivedMessageTimestamp chat) messages
  /\ lastReceivedMessageTimestamp chat
     <= lastReceivedMessageTimestamp (dataMessages chat messages).
Proof.
  unfold dataMessages, latestTimestamp. revert chat.
  induction messages as [|m messages IH]; intros chat; simpl; [lia|].
  destruct (IH (dataMessageHandler chat m)) as [Heq Hle].
  rewrite Heq, handler_timestamp in *. split; [reflexivity|].
  destruct (DataMessage.throttled m); lia.
Qed.

(** X19. A message that is not newer than a message received before it is
    dropped without a trace, whoever sent it and whatever its topic: once a
    message that is not throttled has been handled, handling a message whose
    timestamp is not greater changes nothing. *)
Theorem message_not_newer_is_dropped (chat : Chat) (m1 m2 : DataMessage.t) :
  DataMessage.throttled m1 = false ->
  DataMessage.timestampMs m2 <= DataMessage.timestampMs m1 ->
  dataMessageHandler (dataMessageHandler chat m1) m2
  = dataMessageHandler chat m1.
Proof.
  intros Hthr Hle.
  pose proof (handler_timestamp chat m1) as Hts. rewrite Hthr in Hts.
  unfold dataMessageHandler at 1.
  destruct (DataMessage.throttled m2); simpl; [reflexivity|].
  destruct (Z.leb_spec (DataMessage.timestampMs m2)
              (lastReceivedMessageTimestamp (dataMessageHandler chat m1)));
    [reflexivity | lia].
Qed.

Lemma message_not_newer_is_dropped_witness :
  let m1 := DataMessage.mk false "a" "t#Ann" 1000 "chat" "hello" in
  let m2 := DataMessage.mk false "b" "t#Bo" 1000 "chat" "hi" in
  receiveMessage (dataMessages (initialChat "a") [m1; m2])
  = [SenderName "Ann"; MessageText true "hello"].
Proof.
  intros m1 m2. unfold dataMessages. simpl fold_left.
  rewrite (message_not_newer_is_dropped (initialChat "a") m1 m2 eq_refl);
    [reflexivity | simpl; lia].
Defined.

Lemma quiz_messages_keep_chat (quiz : list DataMessage.t) :
  Forall (fun q => isQuizTopic q = true) quiz ->
  forall chat,
    lastMessageSender (dataMessages chat quiz) = lastMessageSender chat
    /\ receiveMessage (dataMessages chat quiz) = receiveMessage chat
    /\ selfAttendeeId (dataMessages chat quiz) = selfAttendeeId chat.
Proof.
  unfold dataMessages.
  induction 1 as [|q quiz Hq _ IH]; intros chat; simpl; auto.
  destruct (IH (dataMessageHandler chat q)) as (-> & -> & ->).
  unfold dataMessageHandler, isQuizTopic in *.
  destruct (DataMessage.throttled q); simpl; auto.
  destruct (_ <=? _); auto.
  destruct (String.eqb _ "quizForumQuestion"); simpl; auto.
  destruct (String.eqb _ "displayForm"); simpl; auto.
  discriminate Hq.
Qed.

(** X20. The name of the sender is shown only when the sender changes: when
    two chat messages of the same sender are shown, the second one adds its
    text only, even if messages of the quiz topics arrived in between. *)
Theorem sender_named_once (chat : Chat) (m1 m2 : DataMessage.t)
    (quiz : list DataMessage.t) :
  let chat1 := dataMessageHandler chat m1 in
  let chat2 := dataMessages chat1 quiz in
  DataMessage.throttled m1 = false -> DataMessage.throttled m2 = false ->
  isQuizTopic m1 = false -> isQuizTopic m2 = false ->
  Forall (fun q => isQuizTopic q = true) quiz ->
  lastReceivedMessageTimestamp chat < DataMessage.timestampMs m1 ->
  lastReceivedMessageTimestamp chat2 < DataMessage.timestampMs m2 ->
  DataMessage.senderAttendeeId m2 = DataMessage.senderAttendeeId m1 ->
  receiveMessage (dataMessageHandler chat2 m2)
  = receiveMessage chat1
    ++ [MessageText (String.eqb (DataMessage.senderAttendeeId m2)
                                (selfAttendeeId chat))
                    (DataMessage.text m2)].
Proof.
  intros chat1 chat2 Ht1 Ht2 Hq1 Hq2 Hquiz Hnew1 Hnew2 Hsame.
  destruct (quiz_messages_keep_chat quiz Hquiz chat1) as (Hsender & Hshown & Hself).
  fold chat2 in Hsender, Hshown, Hself.
  assert (Hlast : lastMessageSender chat1 = Some (DataMessage.senderAttendeeId m1)
                  /\ selfAttendeeId chat1 = selfAttendeeId chat).
  { unfold chat1, dataMessageHandler, isQuizTopic in *. rewrite Ht1. simpl.
    destruct (Z.leb_spec (DataMessage.timestampMs m1)
                         (lastReceivedMessageTimestamp chat)); [lia|].
    apply orb_false_iff in Hq1. destruct Hq1 as [-> ->]. simpl. auto. }
  destruct Hlast as [Hlast Hself1].
  unfold dataMessageHandler at 1. unfold isQuizTopic in Hq2.
  rewrite Ht2. simpl.
  destruct (Z.leb_spec (DataMessage.timestampMs m2)
                       (lastReceivedMessageTimestamp chat2)); [lia|].
  apply orb_false_iff in Hq2. destruct Hq2 as [-> ->]. simpl.
  rewrite Hsender, Hlast, Hshown, Hself, Hself1, Hsame. simpl.
  now rewrite String.eqb_refl.
Qed.

Lemma sender_named_once_witness :
  let m1 := DataMessage.mk false "a" "t#Ann" 1000 "chat" "hello" in
  let q := DataMessage.mk false "b" "t#Bo" 1500 "displayForm" "{}" in
  let m2 := DataMessage.mk false "a" "t#Ann" 2000 "chat" "again" in
  receiveMessage (dataMessages (initialChat "b") [m1; q; m2])
  = [SenderName "Ann"; MessageText false "hello"; MessageText false "again"].
Proof.
  intros m1 q m2.
  change (dataMessages (initialChat "b") [m1; q; m2])
    with (dataMessageHandler
            (dataMessages (dataMessageHandler (initialChat "b") m1) [q]) m2).
  rewrite (sender_named_once (initialChat "b") m1 m2 [q]);
    try reflexivity.
  repeat constructor.
Defined.

(** * Voice focus *)

Lemma echoReduction_available (echo : option string) :
  match echo with
  | Some v => String.eqb v "AVAILABLE"
  | None => false
  end = true <-> echo = Some "AVAILABLE".
Proof.
  destruct echo as [v|]; [|split; discriminate].
  rewrite String.eqb_eq. split; congruence.
Qed.

(** X21. The name of the voice focus model is decided once: the first call
    of [getVoiceFocusSpec] that returns leaves a name that is default or
    ns_es, namely the query parameter when it is one of the two, and
    otherwise ns_es when the echo reduction of the meeting is AVAILABLE and
    default when it is not; every later call returns that same name,
    whatever the meeting it is given. *)
Theorem voice_focus_name_is_decided_once (VOICE_FOCUS_NAME : option string)
    (echo1 echo2 : option string) :
  let spec0 := voiceFocusName VOICE_FOCUS_NAME None in
  exists name,
    getVoiceFocusSpec VOICE_FOCUS_NAME (MeetingInfo echo1) spec0 = Some (Some name)
    /\ (name = "default" \/ name = "ns_es")
    /\ (VOICE_FOCUS_NAME = Some "default" \/ VOICE_FOCUS_NAME = Some "ns_es" ->
        Some name = VOICE_FOCUS_NAME)
    /\ (VOICE_FOCUS_NAME <> Some "default" ->
        VOICE_FOCUS_NAME <> Some "ns_es" ->
        (echo1 = Some "AVAILABLE" -> name = "ns_es")
        /\ (echo1 <> Some "AVAILABLE" -> name = "default"))
    /\ getVoiceFocusSpec VOICE_FOCUS_NAME (MeetingInfo echo2) (Some name)
       = Some (Some name).
Proof.
  cbv zeta. unfold voiceFocusName at 1.
  pose proof (echoReduction_available echo1) as Hes.
  destruct VOICE_FOCUS_NAME as [n|].
  - destruct (String.eqb_spec n "default") as [->|Hd].
    + exists "default". simpl.
      split; [reflexivity|]. split; [auto|]. split; [auto|].
      split; [congruence | reflexivity].
    + destruct (String.eqb_spec n "ns_es") as [->|Hn].
      * exists "ns_es". simpl.
        split; [reflexivity|]. split; [auto|]. split; [auto|].
        split; [congruence | reflexivity].
      * assert (Hnone : negb (String.eqb n "")
                        && existsb (String.eqb n) ["default"; "ns_es"] = false).
        { simpl. apply String.eqb_neq in Hd, Hn. rewrite Hd, Hn.
          now rewrite andb_false_r. }
        rewrite Hnone. simpl.
        destruct (match echo1 with
                  | Some v => String.eqb v "AVAILABLE"
                  | None => false
                  end);
          [exists "ns_es" | exists "default"]; simpl;
          (split; [reflexivity|]); (split; [auto|]);
          (split; [intros [H|H]; congruence|]);
          (split; [|reflexivity]); intros _ _; split; intros He; auto.
        -- exfalso. apply He, Hes. reflexivity.
        -- apply Hes in He. discriminate He.
  - simpl.
    destruct (match echo1 with
              | Some v => String.eqb v "AVAILABLE"
              | None => false
              end);
      [exists "ns_es" | exists "default"]; simpl;
      (split; [reflexivity|]); (split; [auto|]);
      (split; [intros [H|H]; discriminate H|]);
      (split; [|reflexivity]); intros _ _; split; intros He; auto.
    + exfalso. apply He, Hes. reflexivity.
    + apply Hes in He. discriminate He.
Qed.

Lemma voice_focus_name_is_decided_once_witness :
  getVoiceFocusSpec (Some "other") (MeetingInfo (Some "AVAILABLE"))
    (voiceFocusName (Some "other") None) = Some (Some "ns_es")
  /\ getVoiceFocusSpec (Some "other") (MeetingInfo None) (Some "ns_es")
     = Some (Some "ns_es").
Proof.
  destruct (voice_focus_name_is_decided_once (Some "other") (Some "AVAILABLE") None)
    as (name & Hfirst & _ & _ & Hchoice & Hsecond).
  assert (Hname : name = "ns_es").
  { apply Hchoice; [discriminate | discriminate | reflexivity]. }
  subst name. split; [exact Hfirst | exact Hsecond].
Defined.

(** * The visibility of a button *)

Lemma displayButton_display (states : JsMap.t ButtonState) (b k : string)
    (els : JsMap.t Element.t) :
  option_map Element.display
    (JsMap.get k (outcomeState (displayButton states b els)))
  = option_map Element.display (JsMap.get k els).
Proof.
  unfold displayButton.
  destruct (JsMap.get b els) as [element|] eqn:Hb; [|reflexivity].
  assert (Hset : forall e' m,
            Element.display e' = Element.display element ->
            option_map Element.display (JsMap.get k m)
            = option_map Element.display (JsMap.get k els) ->
            option_map Element.display (JsMap.get k (JsMap.set b e' m))
            = option_map Element.display (JsMap.get k els)).
  { intros e' m He Hm. destruct (String.eqb_spec b k) as [<-|Hne].
    - now rewrite get_set_same, Hb; simpl; rewrite He.
    - now rewrite get_set_other. }
  destruct (Element.firstElementChild element); simpl; [|now apply Hset].
  destruct (JsMap.get (b ++ "-drop")%string els) as [d|] eqn:Hd; simpl;
    [|now apply Hset].
  destruct (String.eqb_spec (b ++ "-drop")%string k) as [<-|Hne].
  - now rewrite get_set_same, Hd.
  - rewrite get_set_other by assumption. now apply Hset.
Qed.

Lemma displayButtons_display (states : JsMap.t ButtonState) (k : string)
    (buttons : list string) :
  forall els,
    option_map Element.display
      (JsMap.get k (outcomeState (displayButtons states buttons els)))
    = option_map Element.display (JsMap.get k els).
Proof.
  induction buttons as [|b buttons IH]; simpl; intros els; auto.
  pose proof (displayButton_display states b k els) as H.
  destruct (displayButton states b els) as [els1|els1]; simpl in *; auto.
  now rewrite IH.
Qed.

(** X22. When [setButtonVisibility] returns, the element of the button is
    displayed inline-block or not at all, as asked, and the state of the
    button is the one given; when no state is given, the call also toggles
    the button: a button that was on is off, any other is on. *)
Theorem visibility_also_sets_the_state (button : string) (visible : bool)
    (state : option ButtonState) (page page' : Page) :
  setButtonVisibility button visible state page = Done page' ->
  (exists element,
     JsMap.get button (elements page') = Some element
     /\ Element.display element = if visible then "inline-block" else "none")
  /\ JsMap.get button (buttonStates page')
     = Some (match state with
             | Some st => st
             | None => if isButtonOn button (buttonStates page) then Off else On
             end).
Proof.
  unfold setButtonVisibility.
  destruct (JsMap.get button (elements page)) as [element|]; [|discriminate].
  intros H. split.
  - assert (Hd : option_map Element.display (JsMap.get button (elements page'))
                 = Some (if visible then "inline-block" else "none")).
    { apply (f_equal outcomeState) in H. simpl in H. rewrite <- H.
      unfold toggleButton, displayButtonStates. simpl.
      match goal with |- context [displayButtons ?s ?b ?e] =>
        pose proof (displayButtons_display s button b e) as Hk;
        destruct (displayButtons s b e) end;
        simpl in *; rewrite Hk, get_set_same; reflexivity. }
    destruct (JsMap.get button (elements page')) as [e|]; [|discriminate].
    exists e. split; auto. simpl in Hd. congruence.
  - apply (f_equal outcomeState) in H. simpl in H. rewrite <- H.
    unfold toggleButton. rewrite displayButtonStates_states. simpl.
    unfold isButtonOn.
    destruct state as [st|]; [apply get_set_same|].
    destruct (JsMap.get button (buttonStates page)) as [[| |]|];
      apply get_set_same.
Qed.

Lemma visibility_also_sets_the_state_witness :
  exists page',
    setButtonVisibility "button-record-cloud" false None examplePage = Done page'
    /\ JsMap.get "button-record-cloud" (buttonStates page') = Some On
    /\ option_map Element.display
         (JsMap.get "button-record-cloud" (elements page')) = Some "none".
Proof.
  eexists. split; [vm_compute; reflexivity|].
  match goal with |- JsMap.get _ (buttonStates ?p) = _ /\ _ =>
    assert (H : setButtonVisibility "button-record-cloud" false None examplePage
                = Done p) by (vm_compute; reflexivity);
    destruct (visibility_also_sets_the_state _ _ _ _ _ H)
      as [(element & Hget & Hdisplay) Hstate]
  end.
  split; [exact Hstate|]. rewrite Hget. simpl. now rewrite Hdisplay.
Defined.
